(** * unfazed: informative-site finder and read collector

    A shallow embedding of [src/unfazed/informative_site_finder.py] and
    [src/unfazed/read_collector.py], with the properties the specification
    states about them.

    Conventions of the embedding.
    - Python exceptions are values: a function that can raise returns
      [result A], and [Raise e] propagates through [x ← m; k].
    - A Python [dict] is an insertion-ordered association list ([dict_get],
      [dict_set]); iteration visits the keys in insertion order, as CPython
      does.  A Python [set] of read names is a [gset string].
    - numpy [float64] and Python [float] are the kernel's binary64 floats;
      numpy [int32] depths are [Z] with the 32-bit wrap-around of numpy's
      addition written out ([add32]).
    - The opened callset ([cyvcf2.VCF]) and alignment file
      ([pysam.AlignmentFile]) are records holding what the code reads from
      them.
    - A de novo record is a value.  The code mutates the dictionaries of the
      input list in place; the embedding returns the updated records, which
      is the same as long as no dictionary object occurs twice in the list.
    - Messages printed to [stderr], the worker threads of [find_many]
      ([threads != 1]) and the interpreter's recursion limit are left out. *)

From Stdlib Require Import ZArith String Ascii List Bool Lia Uint63 Floats.
From stdpp Require Import base option list gmap strings sorting.

Local Open Scope string_scope.
Local Open Scope list_scope.
Local Open Scope Z_scope.

Set Warnings "-inexact-float,-clear-no-such-hyp".

(** ** Exceptions *)

Inductive exn : Type :=
  | KeyError
  | IndexError
  | ValueError
  | ZeroDivisionError
  | UnboundLocalError
  | OverflowError.

Inductive result (A : Type) : Type :=
  | Ok (a : A)
  | Raise (e : exn).
Arguments Ok {A} a.
Arguments Raise {A} e.

#[global] Instance result_ret : MRet result := fun A a => Ok a.
#[global] Instance result_bind : MBind result := fun A B f m =>
  match m with
  | Ok a => f a
  | Raise e => Raise e
  end.

#[global] Instance result_fmap : FMap result := fun A B f m =>
  match m with
  | Ok a => Ok (f a)
  | Raise e => Raise e
  end.

Definition is_Ok {A} (r : result A) : Prop := ∃ a, r = Ok a.

(** [o] if present, else the exception [e]: a subscript that can fail. *)
Definition expect {A} (e : exn) (o : option A) : result A :=
  match o with
  | Some a => Ok a
  | None => Raise e
  end.

(** [for x in l: st = body(st, x)], stopping at the first exception. *)
Fixpoint for_each {A S} (body : S → A → result S) (l : list A) (st : S) : result S :=
  match l with
  | [] => Ok st
  | x :: l' => st' ← body st x; for_each body l' st'
  end.

(** ** Python dictionaries *)

Section pydict.
Context {K V : Type} `{EqDecision K}.

Fixpoint dict_get (k : K) (d : list (K * V)) : option V :=
  match d with
  | [] => None
  | (k', v) :: d' => if decide (k = k') then Some v else dict_get k d'
  end.

(** [d[k] = v]: in place when [k] is a key, else appended. *)
Fixpoint dict_set (k : K) (v : V) (d : list (K * V)) : list (K * V) :=
  match d with
  | [] => [(k, v)]
  | (k', v') :: d' =>
      if decide (k = k') then (k, v) :: d' else (k', v') :: dict_set k v d'
  end.

Definition dict_mem (k : K) (d : list (K * V)) : bool :=
  match dict_get k d with
  | Some _ => true
  | None => false
  end.

Definition dict_keys (d : list (K * V)) : list K := d.*1.

(** [d[k]], raising [KeyError] on a missing key. *)
Definition subscript (d : list (K * V)) (k : K) : result V :=
  expect KeyError (dict_get k d).
End pydict.

Abbreviation dict K V := (list (K * V)) (only parsing).

(** [a[i]] on a numpy array or list with a non-negative index. *)
Definition index {A} (a : list A) (i : nat) : result A :=
  expect IndexError (a !! i).

(** ** Strings *)

Definition chars_of (s : string) : list ascii := list_ascii_of_string s.
Definition str_of (l : list ascii) : string := string_of_list_ascii l.

Definition char_in (c : ascii) (chars : string) : bool :=
  existsb (Ascii.eqb c) (chars_of chars).

Fixpoint lstrip_chars (chars : string) (l : list ascii) : list ascii :=
  match l with
  | [] => []
  | c :: l' => if char_in c chars then lstrip_chars chars l' else l
  end.

(** [s.strip(chars)]: leading and trailing characters of the set [chars]. *)
Definition strip (chars s : string) : string :=
  str_of (rev (lstrip_chars chars (rev (lstrip_chars chars (chars_of s))))).

Definition lower_char (c : ascii) : ascii :=
  let n := nat_of_ascii c in
  if (Nat.leb 65 n && Nat.leb n 90)%bool then ascii_of_nat (n + 32) else c.

(** [s.lower()] on ASCII text. *)
Definition lower (s : string) : string := str_of (map lower_char (chars_of s)).

Fixpoint is_prefix (p l : list ascii) : bool :=
  match p, l with
  | [], _ => true
  | _ :: _, [] => false
  | a :: p', b :: l' => Ascii.eqb a b && is_prefix p' l'
  end.

Fixpoint contains_chars (p l : list ascii) : bool :=
  is_prefix p l ||
  match l with
  | [] => false
  | _ :: l' => contains_chars p l'
  end.

(** [sub in s] on strings. *)
Definition str_contains (sub s : string) : bool :=
  contains_chars (chars_of sub) (chars_of s).

(** [s.replace(old, "")] for a non-empty [old]: every occurrence, left to
    right, without overlap.  The fuel is the length of the text. *)
Fixpoint remove_all (fuel : nat) (old l : list ascii) : list ascii :=
  match fuel with
  | O => l
  | S fuel' =>
      match l with
      | [] => []
      | c :: l' =>
          if is_prefix old l then remove_all fuel' old (drop (length old) l)
          else c :: remove_all fuel' old l'
      end
  end.

Definition str_remove (old s : string) : string :=
  str_of (remove_all (length (chars_of s)) (chars_of old) (chars_of s)).

(** ** Numbers *)

(** numpy [int32] addition: the sum modulo [2^32], as a signed value. *)
Definition wrap32 (z : Z) : Z := (z + 2 ^ 31) `mod` 2 ^ 32 - 2 ^ 31.
Definition add32 (a b : Z) : Z := wrap32 (a + b).

(** [float(z)] for an integer below [2^63] in absolute value. *)
Definition float_of_Z (z : Z) : float :=
  if z <? 0 then PrimFloat.opp (PrimFloat.of_uint63 (Uint63.of_Z (- z)))
  else PrimFloat.of_uint63 (Uint63.of_Z z).

(** [int(f)]: truncation toward zero; [ValueError] on nan and
    [OverflowError] on an infinity, as Python raises. *)
Definition int_of_float (f : float) : result Z :=
  match Prim2SF f with
  | S754_zero _ => Ok 0
  | S754_finite s m e =>
      let mag := if (0 <=? e)%Z then Z.shiftl (Z.pos m) e
                 else Z.shiftr (Z.pos m) (- e) in
      Ok (if s then - mag else mag)
  | S754_infinity _ => Raise OverflowError
  | S754_nan => Raise ValueError
  end.

(** Stable sort by an integer key: Python's [sorted(l, key=...)]. *)
Section sorted.
Context {A : Type} (key : A → Z).

Fixpoint insert_sorted (x : A) (l : list A) : list A :=
  match l with
  | [] => [x]
  | y :: l' => if key x <=? key y then x :: l else y :: insert_sorted x l'
  end.

(** Elements are inserted from the last one backwards, each before the
    first key that is not smaller, so equal keys keep their input order. *)
Definition sorted (l : list A) : list A := foldr insert_sorted [] l.
End sorted.

(** ** The callset, the pedigree and the de novo records *)

(** The genotype codes of [variant.gt_types]. *)
Inductive genotype : Type := HOM_REF | HET | UNKNOWN | HOM_ALT.

#[global] Instance genotype_eq_dec : EqDecision genotype.
Proof. solve_decision. Defined.

(** One record of the callset, with its per-sample arrays. *)
Record Variant : Type := {
  CHROM : string;
  v_start : Z;
  REF : string;
  ALT : list string;
  gt_types : list genotype;
  gt_ref_depths : list Z;
  gt_alt_depths : list Z;
  gt_quals : list float }.

(** [variant.POS] is one-based, [variant.start] zero-based. *)
Definition POS (v : Variant) : Z := v_start v + 1.

(** The opened callset: its sample names, the chromosome prefix that
    [get_prefix] reports for it, and its records in file order. *)
Record VCF : Type := {
  samples : list string;
  prefix : string;
  records : list Variant }.

(** Modelled from the spec: the region query [vcf("name:lo-hi")] of the
    variant source, which yields the records on [name] that overlap the
    one-based closed interval. *)
Definition region (vcf : VCF) (name : string) (lo hi : Z) : list Variant :=
  List.filter
    (λ v, String.eqb (CHROM v) name && (POS v <=? hi)
          && (lo <=? v_start v + Z.of_nat (String.length (REF v))))
    (records vcf).

Record HetSite : Type := {
  pos : Z;
  ref_allele : string;
  alt_allele : string }.

(** A candidate site; [kid_allele] is [None] when the key is absent. *)
Record Candidate : Type := {
  c_pos : Z;
  c_ref_allele : string;
  c_alt_allele : string;
  kid_allele : option string;
  alt_parent : string;
  ref_parent : string }.

(** A de novo record.  [vartype], [candidate_sites] and [het_sites] are
    [None] when the dictionary has no such key. *)
Record DNM : Type := {
  chrom : string;
  start : Z;
  end_ : Z;
  kid : string;
  vartype : option string;
  candidate_sites : option (list Candidate);
  het_sites : option (list HetSite) }.

Definition set_sites (d : DNM) (cs : option (list Candidate))
    (hs : option (list HetSite)) : DNM :=
  {| chrom := chrom d; start := start d; end_ := end_ d; kid := kid d;
     vartype := vartype d; candidate_sites := cs; het_sites := hs |}.

(** An entry of [pedigrees]; [sex] is held as the integer that
    [autophaseable] reads through [int(...)]. *)
Record Pedigree : Type := {
  dad : string;
  mom : string;
  sex : Z }.

(** Modelled from the spec: [SEX_KEY["male"]] of the utils module. *)
Definition SEX_KEY_male : Z := 1.

(** The pseudoautosomal tables of the utils module, one [chrom → [lo, hi]]
    dictionary per build and region; their values are a parameter. *)
Record PARTables : Type := {
  grch37_par1 : dict string (Z * Z);
  grch37_par2 : dict string (Z * Z);
  grch38_par1 : dict string (Z * Z);
  grch38_par2 : dict string (Z * Z) }.

(** The module globals that [find] sets from its arguments. *)
Record Tunables : Type := {
  MIN_AB_HET : float;
  MAX_AB_HET : float;
  MIN_AB_HOMREF : float;
  MAX_AB_HOMREF : float;
  MIN_AB_HOMALT : float;
  MAX_AB_HOMALT : float;
  MIN_GT_QUAL : float;
  MIN_DEPTH : Z }.

(** [dict(zip(vcf.samples, range(len(vcf.samples))))] *)
Definition sample_dict_of (vcf : VCF) : dict string nat :=
  fold_left (λ d si, dict_set si.1 si.2 d)
    (zip (samples vcf) (seq 0 (length (samples vcf)))) [].

(** The complex-variant test shared by both paths. *)
Definition is_complex (variant : Variant) : bool :=
  negb (length (ALT variant) =? 1)%nat
  || (1 <? String.length (REF variant))%nat
  || (bool_decide ("*" ∈ ALT variant)
      || match ALT variant with
         | a :: _ => (1 <? String.length a)%nat
         | [] => false
         end).

(** ** informative_site_finder.py *)

Section Finder.
Context (par : PARTables) (tun : Tunables).
Context (pedigrees : dict string Pedigree) (build : string).

Definition get_position (vcf : VCF) (denovo : DNM) (extra : Z)
    (whole_region : bool) : list Variant :=
  let name := prefix vcf +:+ strip "chr" (chrom denovo) in
  if whole_region then
    region vcf name (start denovo - extra) (end_ denovo + extra)
  else
    region vcf name (start denovo - extra) (start denovo + extra)
    ++ (if extra <? end_ denovo - start denovo
        then region vcf name (end_ denovo - extra) (end_ denovo + extra)
        else []).

Definition is_high_quality_site (i : nat) (ref_depths alt_depths : list Z)
    (genotypes : list genotype) (gt_quals : list float) : result bool :=
  g ← index genotypes i;
  match
    match g with
    | HOM_REF => Some (MIN_AB_HOMREF tun, MAX_AB_HOMREF tun)
    | HOM_ALT => Some (MIN_AB_HOMALT tun, MAX_AB_HOMALT tun)
    | HET => Some (MIN_AB_HET tun, MAX_AB_HET tun)
    | UNKNOWN => None
    end
  with
  | None => Ok false
  | Some (min_ab, max_ab) =>
      q ← index gt_quals i;
      if PrimFloat.ltb q (MIN_GT_QUAL tun) then Ok false else
      r ← index ref_depths i;
      a ← index alt_depths i;
      if add32 r a <? MIN_DEPTH tun then Ok false else
      let allele_bal := PrimFloat.div (float_of_Z a) (float_of_Z (add32 r a)) in
      Ok (PrimFloat.leb min_ab allele_bal && PrimFloat.leb allele_bal max_ab)
  end.

(** [alt_depths[i] / float(ref_depths[i] + alt_depths[i])] *)
Definition alt_allele_bal (ref_depths alt_depths : list Z) (i : nat) : result float :=
  a ← index alt_depths i;
  r ← index ref_depths i;
  Ok (PrimFloat.div (float_of_Z a) (float_of_Z (add32 r a))).

Definition get_kid_allele (vartype : string) (genotypes : list genotype)
    (ref_depths alt_depths : list Z) (kid_idx dad_idx mom_idx : nat)
    : result (option string) :=
  is_del ←
    (if String.eqb vartype "DEL" then
       r ← index ref_depths kid_idx;
       a ← index alt_depths kid_idx;
       Ok (4 <? add32 r a)
     else Ok false);
  if is_del : bool then
    g ← index genotypes kid_idx;
    match g with
    | HOM_ALT => Ok (Some "ref_parent")
    | HOM_REF => Ok (Some "alt_parent")
    | _ => Ok None
    end
  else
    is_dup ←
      (if String.eqb vartype "DUP" then
         r ← index ref_depths kid_idx;
         if 2 <? r then
           a ← index alt_depths kid_idx;
           if 2 <? a then Ok (MIN_DEPTH tun <? add32 r a) else Ok false
         else Ok false
       else Ok false);
    if is_dup : bool then
      g ← index genotypes kid_idx;
      if bool_decide (g = HET) then
        kid_alt_allele_bal ← alt_allele_bal ref_depths alt_depths kid_idx;
        dad_alt_allele_bal ← alt_allele_bal ref_depths alt_depths dad_idx;
        mom_alt_allele_bal ← alt_allele_bal ref_depths alt_depths mom_idx;
        let parents := PrimFloat.add dad_alt_allele_bal mom_alt_allele_bal in
        if (PrimFloat.ltb parents 1 && PrimFloat.ltb 0.5 kid_alt_allele_bal)
           || (PrimFloat.ltb 1 parents && PrimFloat.ltb kid_alt_allele_bal 0.5)
        then Ok None
        else if PrimFloat.leb 0.67 kid_alt_allele_bal then Ok (Some "alt_parent")
        else if PrimFloat.leb kid_alt_allele_bal 0.33 then Ok (Some "ref_parent")
        else Ok None
      else Ok None
    else Ok None.

Definition par_tables : option (dict string (Z * Z) * dict string (Z * Z)) :=
  if String.eqb build "37" then Some (grch37_par1 par, grch37_par2 par)
  else if String.eqb build "38" then Some (grch38_par1 par, grch38_par2 par)
  else None.

Definition autophaseable (denovo : DNM) : result bool :=
  let chrom := strip "chr" (lower (chrom denovo)) in
  if negb (bool_decide (chrom ∈ ["y"; "x"])) then Ok false else
  ped ← subscript pedigrees (kid denovo);
  if negb (sex ped =? SEX_KEY_male) then Ok false else
  match par_tables with
  | None => Ok false
  | Some (par1, par2) =>
      p1 ← subscript par1 chrom;
      if (p1.1 <=? start denovo) && (start denovo <=? p1.2) then Ok false else
      p2 ← subscript par2 chrom;
      if (p2.1 <=? start denovo) && (start denovo <=? p2.2) then Ok false else
      Ok true
  end.

(** [hq(dad) and hq(mom)] *)
Definition parents_high_quality (dad_idx mom_idx : nat) (variant : Variant)
    : result bool :=
  d ← is_high_quality_site dad_idx (gt_ref_depths variant)
        (gt_alt_depths variant) (gt_types variant) (gt_quals variant);
  if d : bool then
    is_high_quality_site mom_idx (gt_ref_depths variant)
      (gt_alt_depths variant) (gt_types variant) (gt_quals variant)
  else Ok false.

(** The [if / elif / else: continue] chain that names the two parents:
    [(alt_parent, ref_parent)]. *)
Definition assign_parents (gd gm : genotype) (dad mom : string)
    : option (string * string) :=
  if bool_decide (gd ∈ [HET; HOM_ALT]) && bool_decide (gm = HOM_REF)
  then Some (dad, mom)
  else if bool_decide (gm ∈ [HET; HOM_ALT]) && bool_decide (gd = HOM_REF)
  then Some (mom, dad)
  else if bool_decide (gm = HET) && bool_decide (gd = HOM_ALT)
  then Some (dad, mom)
  else if bool_decide (gd = HET) && bool_decide (gm = HOM_ALT)
  then Some (mom, dad)
  else None.

(** The hemizygous-kid block: [unique_allele] after the loop over
    [parent_gts], and [True] when the kid is HET or unknown. *)
Definition unique_allele (gk gd gm : genotype) : bool :=
  if bool_decide (gk ∈ [HOM_ALT; HOM_REF]) then
    let parent_gts := [gd; gm] in
    if bool_decide (HET ∈ parent_gts)
       && (bool_decide (HOM_ALT ∈ parent_gts) || bool_decide (HOM_REF ∈ parent_gts))
    then
      fold_left
        (λ unique parent_gt,
           if bool_decide (parent_gt ∈ [HOM_ALT; HOM_REF])
              && bool_decide (gk = parent_gt)
           then false else unique)
        parent_gts true
    else true
  else true.

(** The part of the loop body that [find] and
    [add_good_candidate_variant] share, from [genotypes = variant.gt_types]
    to the final append: the het site to record, if any, and the candidate
    to append, if it survives every [continue]. *)
Definition informative_site (whole_region : bool) (denovo : DNM)
    (variant : Variant) (kid_idx dad_idx mom_idx : nat) (dad mom : string)
    : result (option HetSite * option Candidate) :=
  let genotypes := gt_types variant in
  let ref_depths := gt_ref_depths variant in
  let alt_depths := gt_alt_depths variant in
  let gt_quals := gt_quals variant in
  alt0 ← index (ALT variant) 0;
  gk ← index genotypes kid_idx;
  is_het_site ←
    (if bool_decide (gk = HET)
     then parents_high_quality dad_idx mom_idx variant
     else Ok false);
  let het :=
    if is_het_site : bool
    then Some {| pos := v_start variant; ref_allele := REF variant;
                 alt_allele := alt0 |}
    else None in
  (* [None]: continue; [Some ka]: go on, with the kid allele if computed *)
  stage ←
    (match whole_region, vartype denovo with
     | true, Some vt =>
         ka ← get_kid_allele vt genotypes ref_depths alt_depths
                kid_idx dad_idx mom_idx;
         Ok (match ka with
             | Some a => Some (Some a)
             | None => None
             end)
     | _, _ =>
         if negb (bool_decide (gk = HET)) then Ok None else
         k ← is_high_quality_site kid_idx ref_depths alt_depths genotypes gt_quals;
         Ok (if k : bool then Some None else None)
     end);
  match stage with
  | None => Ok (het, None)
  | Some ka =>
      hq ← parents_high_quality dad_idx mom_idx variant;
      if negb hq then Ok (het, None) else
      gd ← index genotypes dad_idx;
      gm ← index genotypes mom_idx;
      match assign_parents gd gm dad mom with
      | None => Ok (het, None)
      | Some (altp, refp) =>
          if unique_allele gk gd gm then
            Ok (het, Some {| c_pos := v_start variant;
                             c_ref_allele := REF variant;
                             c_alt_allele := alt0;
                             kid_allele := ka;
                             alt_parent := altp;
                             ref_parent := refp |})
          else Ok (het, None)
      end
  end.

(** [(end - start) < 20 and variant.start in range(start, end)] *)
Definition inside_small_event (denovo : DNM) (variant : Variant) : bool :=
  (end_ denovo - start denovo <? 20)
  && (start denovo <=? v_start variant) && (v_start variant <? end_ denovo).

Definition append_opt {A} (l : list A) (o : option A) : list A :=
  match o with
  | Some x => l ++ [x]
  | None => l
  end.

(** One iteration of the [for variant in get_position(...)] loop of
    [find], on the two lists built for the current de novo. *)
Definition find_variant (whole_region : bool) (denovo : DNM) (ped : Pedigree)
    (kid_idx dad_idx mom_idx : nat)
    (acc : list Candidate * list HetSite) (variant : Variant)
    : result (list Candidate * list HetSite) :=
  if is_complex variant then Ok acc else
  if String.eqb (CHROM variant) "X" && (sex ped =? SEX_KEY_male) then Ok acc else
  if inside_small_event denovo variant then Ok acc else
  '(het, cand) ← informative_site whole_region denovo variant
                   kid_idx dad_idx mom_idx (dad ped) (mom ped);
  Ok (append_opt acc.1 cand, append_opt acc.2 het).

(** The body of [for i, denovo in enumerate(dnms)]: the record stored
    back into [dnms[i]]. *)
Definition find_denovo (vcf : VCF) (search_dist : Z) (whole_region : bool)
    (denovo : DNM) : result DNM :=
  let sample_dict := sample_dict_of vcf in
  auto ← autophaseable denovo;
  if auto : bool then Ok denovo else
  ped ← subscript pedigrees (kid denovo);
  match dict_get (kid denovo) sample_dict,
        dict_get (dad ped) sample_dict,
        dict_get (mom ped) sample_dict with
  | Some kid_idx, Some dad_idx, Some mom_idx =>
      '(candidate_sites, het_sites) ←
        for_each (find_variant whole_region denovo ped kid_idx dad_idx mom_idx)
          (get_position vcf denovo search_dist whole_region) ([], []);
      Ok (set_sites denovo (Some (sorted c_pos candidate_sites))
            (Some (sorted pos het_sites)))
  | _, _, _ => Ok denovo
  end.

(** *** The batched path *)

(** The five values [create_lookups] returns. *)
Record Lookups : Type := {
  samples_by_location : dict string (dict Z (list string));
  vars_by_sample : dict string (dict string (dict Z (list DNM)));
  chrom_ranges : dict string (Z * Z);
  dnms_autophase : list DNM;
  dnms_nonautophase : list DNM }.

Definition empty_lookups : Lookups :=
  {| samples_by_location := []; vars_by_sample := []; chrom_ranges := [];
     dnms_autophase := []; dnms_nonautophase := [] |}.

(** [chrom_ranges] after the three [if]s on it. *)
Definition widen_range (chrom : string) (start end_ : Z)
    (ranges : dict string (Z * Z)) : dict string (Z * Z) :=
  let cur := default (start, end_) (dict_get chrom ranges) in
  dict_set chrom
    (if start <? cur.1 then start else cur.1,
     if cur.2 <? end_ then end_ else cur.2)
    ranges.

(** [vars_by_sample[sample][chrom][start].append(denovo)], creating the
    missing levels. *)
Definition record_var (denovo : DNM)
    (vbs : dict string (dict string (dict Z (list DNM))))
    : dict string (dict string (dict Z (list DNM))) :=
  let by_chrom := default [] (dict_get (kid denovo) vbs) in
  let by_pos := default [] (dict_get (chrom denovo) by_chrom) in
  let here := default [] (dict_get (start denovo) by_pos) in
  dict_set (kid denovo)
    (dict_set (chrom denovo)
       (dict_set (start denovo) (here ++ [denovo]) by_pos) by_chrom) vbs.

(** [samples_by_location[chrom][loc].append(sample)], creating the list
    when [loc] is new. *)
Definition record_loc (loc : Z) (sample : string)
    (locs : dict Z (list string)) : dict Z (list string) :=
  dict_set loc (default [] (dict_get loc locs) ++ [sample]) locs.

Definition record_sample (denovo : DNM)
    (sbl : dict string (dict Z (list string)))
    : dict string (dict Z (list string)) :=
  let locs := default [] (dict_get (chrom denovo) sbl) in
  let locs := record_loc (start denovo) (kid denovo) locs in
  let locs :=
    if 2 <? end_ denovo - start denovo
    then record_loc (end_ denovo) (kid denovo) locs
    else locs in
  dict_set (chrom denovo) locs sbl.

(** The body of the loop of [create_lookups]. *)
Definition create_lookups_step (lk : Lookups) (denovo : DNM) : result Lookups :=
  auto ← autophaseable denovo;
  if auto : bool then
    Ok {| samples_by_location := samples_by_location lk;
          vars_by_sample := vars_by_sample lk;
          chrom_ranges := chrom_ranges lk;
          dnms_autophase := dnms_autophase lk ++ [denovo];
          dnms_nonautophase := dnms_nonautophase lk |}
  else
    Ok {| samples_by_location := record_sample denovo (samples_by_location lk);
          vars_by_sample := record_var denovo (vars_by_sample lk);
          chrom_ranges :=
            widen_range (chrom denovo) (start denovo) (end_ denovo)
              (chrom_ranges lk);
          dnms_autophase := dnms_autophase lk;
          dnms_nonautophase := dnms_nonautophase lk ++ [denovo] |}.

Definition create_lookups (dnms : list DNM) : result Lookups :=
  for_each create_lookups_step dnms empty_lookups.

(** A key [[sample, chrom, position]] of [close_var_keys]. *)
Definition dn_key : Type := string * string * Z.

(** The keys one [(dn_loc, close_sample)] pair contributes in
    whole-region mode. *)
Definition close_keys_of_sample
    (vbs : dict string (dict string (dict Z (list DNM))))
    (chrom : string) (pos search_dist dn_loc : Z)
    (keys : list dn_key) (close_sample : string) : result (list dn_key) :=
  by_chrom ← subscript vbs close_sample;
  by_pos ← subscript by_chrom chrom;
  denovos ← subscript by_pos dn_loc;
  Ok (keys ++
      omap (λ denovo : DNM,
              if (start denovo - search_dist <=? pos)
                 && (pos <=? end_ denovo + search_dist)
              then Some (close_sample, chrom, start denovo)
              else None)
           denovos).

Definition get_close_vars (chrom : string) (pos : Z)
    (sbl : dict string (dict Z (list string)))
    (vbs : dict string (dict string (dict Z (list DNM))))
    (search_dist : Z) (whole_region : bool) : result (list dn_key) :=
  match dict_get chrom sbl with
  | None => Ok []
  | Some locs =>
      if negb whole_region then
        Ok (flat_map
              (λ loc : Z * list string,
                 if (loc.1 - search_dist <=? pos) && (pos <=? loc.1 + search_dist)
                 then map (λ close_sample, (close_sample, chrom, loc.1)) loc.2
                 else [])
              locs)
      else
        for_each
          (λ keys (loc : Z * list string),
             for_each (close_keys_of_sample vbs chrom pos search_dist loc.1)
               loc.2 keys)
          locs []
  end.

Definition get_family_indexes (kid : string) (sample_dict : dict string nat)
    : result (option (nat * nat * nat)) :=
  ped ← subscript pedigrees kid;
  match dict_get kid sample_dict,
        dict_get (dad ped) sample_dict,
        dict_get (mom ped) sample_dict with
  | Some kid_idx, Some dad_idx, Some mom_idx =>
      Ok (Some (kid_idx, dad_idx, mom_idx))
  | _, _, _ => Ok None
  end.

(** The body of [for i, denovo in enumerate(vars_by_sample[kid][chrom][pos])]:
    the record left in slot [i]. *)
Definition add_variant_to (variant : Variant) (whole_region : bool)
    (kid_idx dad_idx mom_idx : nat) (dad mom : string) (denovo : DNM)
    : result DNM :=
  auto ← autophaseable denovo;
  if auto : bool then Ok denovo else
  if inside_small_event denovo variant then Ok denovo else
  '(het, cand) ← informative_site whole_region denovo variant
                   kid_idx dad_idx mom_idx dad mom;
  Ok (set_sites denovo
        (match cand with
         | Some c => Some (default [] (candidate_sites denovo) ++ [c])
         | None => candidate_sites denovo
         end)
        (match het with
         | Some h => Some (default [] (het_sites denovo) ++ [h])
         | None => het_sites denovo
         end)).

Definition add_good_candidate_variant (variant : Variant)
    (vbs : dict string (dict string (dict Z (list DNM))))
    (key : dn_key) (whole_region : bool) (sample_dict : dict string nat)
    : result (dict string (dict string (dict Z (list DNM))) * bool) :=
  let '(kid, chrom, pos) := key in
  idx ← get_family_indexes kid sample_dict;
  ped ← subscript pedigrees kid;
  match idx with
  | None => Ok (vbs, false)
  | Some (kid_idx, dad_idx, mom_idx) =>
      by_chrom ← subscript vbs kid;
      by_pos ← subscript by_chrom chrom;
      match dict_get pos by_pos with
      | None => Ok (vbs, false)
      | Some denovos =>
          denovos' ← mapM (add_variant_to variant whole_region
                             kid_idx dad_idx mom_idx (dad ped) (mom ped))
                       denovos;
          Ok (dict_set kid
                (dict_set chrom (dict_set pos denovos' by_pos) by_chrom) vbs,
              true)
      end
  end.

(** The body of [for variant in vcf_iter] in [multithread_find_many]. *)
Definition scan_variant (sbl : dict string (dict Z (list string)))
    (search_dist : Z) (whole_region : bool) (sample_dict : dict string nat)
    (vbs : dict string (dict string (dict Z (list DNM)))) (variant : Variant)
    : result (dict string (dict string (dict Z (list DNM)))) :=
  if is_complex variant then Ok vbs else
  close_var_keys ← get_close_vars (CHROM variant) (POS variant) sbl vbs
                     search_dist whole_region;
  for_each
    (λ vbs close_var_key,
       r ← add_good_candidate_variant variant vbs close_var_key
             whole_region sample_dict;
       Ok r.1)
    close_var_keys vbs.

Definition multithread_find_many (vcf : VCF) (chrom : string)
    (chrom_range : Z * Z) (sbl : dict string (dict Z (list string)))
    (vbs : dict string (dict string (dict Z (list DNM))))
    (search_dist : Z) (whole_region : bool)
    : result (dict string (dict string (dict Z (list DNM)))) :=
  for_each (scan_variant sbl search_dist whole_region (sample_dict_of vcf))
    (region vcf (prefix vcf +:+ strip "chr" chrom)
       (chrom_range.1 - search_dist) (chrom_range.2 + search_dist))
    vbs.

Definition sort_sites (denovo : DNM) : DNM :=
  set_sites denovo (sorted c_pos <$> candidate_sites denovo)
    (sorted pos <$> het_sites denovo).

(** The four nested loops that build [dnms_annotated]. *)
Definition dnms_annotated
    (vbs : dict string (dict string (dict Z (list DNM)))) : list DNM :=
  flat_map (λ by_sample : string * dict string (dict Z (list DNM)),
    flat_map (λ by_chrom : string * dict Z (list DNM),
      flat_map (λ by_pos : Z * list DNM, map sort_sites by_pos.2)
        by_chrom.2)
      by_sample.2)
    vbs.

(** [find_many] with [threads = 1]: the chromosomes are scanned one after
    the other on the caller's thread, and an exception of a scan is the
    caller's.  The chromosomes of the set [chroms] are visited in the order
    of [remove_dups]. *)
Definition find_many (dnms : list DNM) (vcf : VCF) (search_dist : Z)
    (whole_region : bool) : result (list DNM) :=
  lk ← create_lookups dnms;
  let chroms := remove_dups (map chrom (dnms_nonautophase lk)) in
  vbs ← for_each
          (λ vbs chrom,
             chrom_range ← subscript (chrom_ranges lk) chrom;
             multithread_find_many vcf chrom chrom_range
               (samples_by_location lk) vbs search_dist whole_region)
          chroms (vars_by_sample lk);
  Ok (dnms_annotated vbs ++ dnms_autophase lk).

(** [find]: [None] is the bare [return]. *)
Definition find (dnms : list DNM) (vcf : VCF) (search_dist : Z)
    (multithread_proc_min : Z) (whole_region : bool)
    : result (option (list DNM)) :=
  if multithread_proc_min <=? Z.of_nat (length dnms) then
    Some <$> find_many dnms vcf search_dist whole_region
  else if Z.of_nat (length dnms) <=? 0 then Ok None
  else Some <$> mapM (find_denovo vcf search_dist whole_region) dnms.

End Finder.

(** ** The alignment file *)

(** An aligned read.  [reference_positions] is
    [get_reference_positions(full_length=True)]: one entry per query base,
    [None] where the base is not aligned.  [has_SA] is [has_tag("SA")]. *)
Record AlignedSegment : Type := {
  query_name : string;
  is_qcfail : bool;
  is_unmapped : bool;
  is_duplicate : bool;
  mapping_quality : Z;
  is_secondary : bool;
  is_supplementary : bool;
  mate_is_unmapped : bool;
  next_reference_id : Z;
  reference_id : Z;
  reference_start : Z;
  reference_end : Z;
  tlen : Z;
  reference_positions : list (option Z);
  query_sequence : string;
  has_SA : bool }.

(** A Python number: the bounds passed to [fetch] are integers in the SNV
    collector and mix integers with the float insert-length bound in the SV
    collector. *)
Inductive pynum : Type :=
  | PyInt (z : Z)
  | PyFloat (f : float).

Definition num_float (n : pynum) : float :=
  match n with
  | PyInt z => float_of_Z z
  | PyFloat f => f
  end.

Definition num_add (a b : pynum) : pynum :=
  match a, b with
  | PyInt x, PyInt y => PyInt (x + y)
  | _, _ => PyFloat (PrimFloat.add (num_float a) (num_float b))
  end.

Definition num_sub (a b : pynum) : pynum :=
  match a, b with
  | PyInt x, PyInt y => PyInt (x - y)
  | _, _ => PyFloat (PrimFloat.sub (num_float a) (num_float b))
  end.

Definition num_ltb (a b : pynum) : bool :=
  match a, b with
  | PyInt x, PyInt y => x <? y
  | _, _ => PrimFloat.ltb (num_float a) (num_float b)
  end.

(** [max(a, b)]: [b] only when it is strictly larger. *)
Definition num_max (a b : pynum) : pynum := if num_ltb a b then b else a.

(** Truthiness of a number: zero is false (a nan is true). *)
Definition num_truthy (n : pynum) : bool :=
  match n with
  | PyInt z => negb (z =? 0)
  | PyFloat f => negb (PrimFloat.eqb f 0)
  end.

(** The opened alignment file: the records in file order (what iterating
    the file yields), the region query and the mate lookup; [None] is the
    [ValueError] that pysam raises. *)
Record AlignmentFile : Type := {
  alignments : list AlignedSegment;
  fetch : string → pynum → pynum → option (list AlignedSegment);
  mate : AlignedSegment → option AlignedSegment }.

(** The two-key dictionaries [{"alt": ..., "ref": ...}]. *)
Inductive haplotype : Type := Alt | Ref.

#[global] Instance haplotype_eq_dec : EqDecision haplotype.
Proof. solve_decision. Defined.

Record by_hap (A : Type) : Type := {
  on_alt : A;
  on_ref : A }.
Arguments on_alt {A} _.
Arguments on_ref {A} _.
Arguments Build_by_hap {A} _ _.

Definition hap_get {A} (h : haplotype) (x : by_hap A) : A :=
  match h with
  | Alt => on_alt x
  | Ref => on_ref x
  end.

Definition hap_upd {A} (h : haplotype) (f : A → A) (x : by_hap A) : by_hap A :=
  match h with
  | Alt => {| on_alt := f (on_alt x); on_ref := on_ref x |}
  | Ref => {| on_alt := on_alt x; on_ref := f (on_ref x) |}
  end.

Definition other_haplotype (h : haplotype) : haplotype :=
  match h with
  | Alt => Ref
  | Ref => Alt
  end.

(** ** read_collector.py *)

Definition MILLION : Z := 1000000.
Definition MIN_MAPQ : Z := 1.
Definition STDEV_COUNT : Z := 3.
Definition READLEN : Z := 151.
Definition SPLITTER_ERR_MARGIN : Z := 5.
Definition EXTENDED_RB_READ_GOAL : Z := 100.

(** The loop of [estimate_concordant_insert_len]: [i] is the index that
    [enumerate] gives to the head of [reads]; the result is [insert_sizes]. *)
Fixpoint insert_sizes_from (i : Z) (reads : list AlignedSegment) : list Z :=
  match reads with
  | [] => []
  | read :: reads' =>
      Z.abs (tlen read - READLEN * 2)
      :: (if MILLION <=? i then [] else insert_sizes_from (i + 1) reads')
  end.

(** numpy's mean and standard deviation of a zero-dimensional array: the
    sum over one element divided by the count 1, and the square root of the
    mean squared deviation from it. *)
Definition np_mean0 (x : float) : float := PrimFloat.div x 1.
Definition np_std0 (x : float) : float :=
  let d := PrimFloat.sub x (np_mean0 x) in
  PrimFloat.sqrt (PrimFloat.div (PrimFloat.mul d d) 1).

Section ReadCollector.
(** [numpy.percentile(a, q)] on the array of insert sizes, a parameter:
    the scalar it returns, or the exception it raises. *)
Context (np_percentile : list Z → float → result float).
(** [binary_search(start, end, het_sites)] of the site_searcher module,
    which is not among the sources: a parameter. *)
Context (binary_search : Z → Z → list HetSite → list HetSite).

Definition estimate_concordant_insert_len (bamfile : AlignmentFile)
    : result float :=
  let insert_sizes := insert_sizes_from 0 (alignments bamfile) in
  (* insert_sizes = np.percentile(insert_sizes, 99.5): a scalar from here on *)
  insert_sizes ← np_percentile insert_sizes 99.5%float;
  frag_len ← int_of_float (np_mean0 insert_sizes);
  let stdev := np_std0 insert_sizes in
  Ok (PrimFloat.add (float_of_Z frag_len)
        (PrimFloat.mul stdev (float_of_Z STDEV_COUNT))).

(** A read object is truthy, so [if not read] never fires. *)
Definition goodread (read : AlignedSegment) : bool :=
  negb (is_qcfail read
        || is_unmapped read
        || is_duplicate read
        || (mapping_quality read <? MIN_MAPQ)
        || is_secondary read
        || is_supplementary read
        || mate_is_unmapped read
        || negb (next_reference_id read =? reference_id read)).

(** [l.index(x)] when [x in l]. *)
Fixpoint position_of (x : option Z) (l : list (option Z)) : option nat :=
  match l with
  | [] => None
  | y :: l' => if decide (y = x) then Some O else S <$> position_of x l'
  end.

(** [read.query_sequence[i]], a one-character string. *)
Definition base_at (read : AlignedSegment) (i : nat) : result string :=
  c ← expect IndexError (String.get i (query_sequence read));
  Ok (String c EmptyString).

(** [get_allele_at]: [None] is the [False] it returns.  The mate is
    always a read object here, so [if mate] and [mate and ...] hold. *)
Definition get_allele_at (read mate : AlignedSegment) (pos : Z)
    : result (option string) :=
  match position_of (Some pos) (reference_positions read) with
  | Some read_pos => Some <$> base_at read read_pos
  | None =>
      match position_of (Some pos) (reference_positions mate) with
      | Some mate_pos => Some <$> base_at mate mate_pos
      | None => Ok None
      end
  end.

(** Truthiness of a string. *)
Definition str_truthy (s : string) : bool := negb (String.eqb s "").

(** The allele opposite to [finder_allele] at [site], if
    [finder_allele] is one of the site's two alleles. *)
Definition non_finder (finder_allele : string) (site : HetSite) : option string :=
  if String.eqb finder_allele (ref_allele site) then Some (alt_allele site)
  else if String.eqb finder_allele (alt_allele site) then Some (ref_allele site)
  else None.

(** The state of one call of [connect_reads]: [grouped_readsets] and
    [reads_to_add]. *)
Definition conn_state : Type :=
  by_hap (gset string) * by_hap (list (string * Z)).

Definition assign (h : haplotype) (site_readname : string) (site_pos : Z)
    (st : conn_state) : conn_state :=
  (hap_upd h (λ s, s ∪ {[site_readname]}) st.1,
   hap_upd h (λ l, l ++ [(site_readname, site_pos)]) st.2).

(** The body of [for site_readname in site_reads[site["pos"]]]. *)
Definition connect_site_read (fetched_reads : dict string (AlignedSegment * AlignedSegment))
    (haplotype : haplotype) (site : HetSite)
    (finder_allele non_finder_allele : string)
    (st : conn_state) (site_readname : string) : result conn_state :=
  if bool_decide (site_readname ∉ on_ref st.1)
     && bool_decide (site_readname ∉ on_alt st.1)
  then
    read_mate ← subscript fetched_reads site_readname;
    new_read_allele ← get_allele_at read_mate.1 read_mate.2 (pos site);
    match new_read_allele with
    | None => Ok st
    | Some new_read_allele =>
        if String.eqb new_read_allele finder_allele
        then Ok (assign haplotype site_readname (pos site) st)
        else if String.eqb new_read_allele non_finder_allele
        then Ok (assign (other_haplotype haplotype) site_readname (pos site) st)
        else Ok st
    end
  else Ok st.

(** The body of [for site in read_sites[readname]]. *)
Definition connect_site (site_reads : dict Z (list string))
    (fetched_reads : dict string (AlignedSegment * AlignedSegment))
    (haplotype : haplotype) (readname : string) (found_pos : Z)
    (st : conn_state) (site : HetSite) : result conn_state :=
  if pos site =? found_pos then Ok st else
  read_mate ← subscript fetched_reads readname;
  finder_allele ← get_allele_at read_mate.1 read_mate.2 (pos site);
  match finder_allele with
  | None => Ok st
  | Some finder_allele =>
      match (if str_truthy finder_allele then non_finder finder_allele site
             else None) with
      | None => Ok st
      | Some non_finder_allele =>
          if negb (str_truthy finder_allele && str_truthy non_finder_allele)
          then Ok st else
          names ← subscript site_reads (pos site);
          for_each (connect_site_read fetched_reads haplotype site
                      finder_allele non_finder_allele) names st
      end
  end.

(** The body of [for readname, found_pos in new_reads[haplotype]]. *)
Definition connect_read (read_sites : dict string (list HetSite))
    (site_reads : dict Z (list string))
    (fetched_reads : dict string (AlignedSegment * AlignedSegment))
    (haplotype : haplotype) (st : conn_state) (new_read : string * Z)
    : result conn_state :=
  match dict_get new_read.1 read_sites with
  | None => Ok st
  | Some sites =>
      for_each (connect_site site_reads fetched_reads haplotype
                  new_read.1 new_read.2) sites st
  end.

(** One call of [connect_reads] up to the test on [reads_to_add]:
    [new_reads] is the dictionary in its insertion order. *)
Definition connect_pass (grouped_readsets : by_hap (gset string))
    (read_sites : dict string (list HetSite))
    (site_reads : dict Z (list string))
    (new_reads : dict haplotype (list (string * Z)))
    (fetched_reads : dict string (AlignedSegment * AlignedSegment))
    : result conn_state :=
  for_each
    (λ st (entry : haplotype * list (string * Z)),
       for_each (connect_read read_sites site_reads fetched_reads entry.1)
         entry.2 st)
    new_reads
    (grouped_readsets, {| on_alt := []; on_ref := [] |}).

(** [connect_reads].  The recursion is bounded by [fuel]; [None] means the
    fuel ran out, which is no behaviour of the program. *)
Fixpoint connect_reads (fuel : nat) (grouped_readsets : by_hap (gset string))
    (read_sites : dict string (list HetSite))
    (site_reads : dict Z (list string))
    (new_reads : dict haplotype (list (string * Z)))
    (fetched_reads : dict string (AlignedSegment * AlignedSegment))
    : option (result (by_hap (gset string))) :=
  match fuel with
  | O => None
  | S fuel' =>
      match connect_pass grouped_readsets read_sites site_reads new_reads
              fetched_reads with
      | Raise e => Some (Raise e)
      | Ok (grouped_readsets, reads_to_add) =>
          if (0 <? length (on_alt reads_to_add) + length (on_ref reads_to_add))%nat
          then connect_reads fuel' grouped_readsets read_sites site_reads
                 [(Ref, on_ref reads_to_add); (Alt, on_alt reads_to_add)]
                 fetched_reads
          else Some (Ok grouped_readsets)
      end
  end.

(** The alternate spelling of a chromosome name that the [except
    ValueError] branches of the grouper and of the SNV collector try. *)
Definition flip_chr (chrom : string) : string :=
  if str_contains "chr" chrom then strip "chr" chrom else "chr" +:+ chrom.

(** The three dictionaries that [group_reads_by_haplotype] fills. *)
Record Indices : Type := {
  fetched_reads : dict string (AlignedSegment * AlignedSegment);
  read_sites : dict string (list HetSite);
  site_reads : dict Z (list string) }.

(** [mate_coords[0] <= read_coords[0] <= mate_coords[1] or
     mate_coords[0] <= read_coords[1] <= mate_coords[1]] *)
Definition mates_overlap (read mate : AlignedSegment) : bool :=
  ((reference_start mate <=? reference_start read)
   && (reference_start read <=? reference_end mate))
  || ((reference_start mate <=? reference_end read)
      && (reference_end read <=? reference_end mate)).

(** The body of [for i, read in enumerate(bam_iter)]. *)
Definition index_fetched_read (bamfile : AlignmentFile) (het_site : HetSite)
    (ix : Indices) (i_read : nat * AlignedSegment) : Indices :=
  let read := i_read.2 in
  if EXTENDED_RB_READ_GOAL <? Z.of_nat i_read.1 then ix else
  if negb (goodread read) then ix else
  match mate bamfile read with
  | None => ix
  | Some mate =>
      if negb (goodread mate) then ix else
      if mates_overlap read mate then ix else
      {| fetched_reads :=
           dict_set (query_name read) (read, mate) (fetched_reads ix);
         read_sites :=
           dict_set (query_name read)
             (default [] (dict_get (query_name read) (read_sites ix)) ++ [het_site])
             (read_sites ix);
         site_reads :=
           dict_set (pos het_site)
             (default [] (dict_get (pos het_site) (site_reads ix))
              ++ [query_name read])
             (site_reads ix) |}
  end.

(** [bamfile.fetch(chrom, lo, hi)] with the retry under the flipped name;
    a second [ValueError] is the caller's. *)
Definition fetch_retry (bamfile : AlignmentFile) (chrom alt_chrom : string)
    (lo hi lo' hi' : pynum) : result (list AlignedSegment) :=
  match fetch bamfile chrom lo hi with
  | Some bam_iter => Ok bam_iter
  | None => expect ValueError (fetch bamfile alt_chrom lo' hi')
  end.

(** The body of [for het_site in het_sites]. *)
Definition index_het_site (bamfile : AlignmentFile) (region : DNM)
    (ix : Indices) (het_site : HetSite) : result Indices :=
  let lo := PyInt (pos het_site) in
  let hi := PyInt (pos het_site + 1) in
  bam_iter ← fetch_retry bamfile (chrom region) (flip_chr (chrom region))
               lo hi lo hi;
  Ok (fold_left (index_fetched_read bamfile het_site)
        (zip (seq 0 (length bam_iter)) bam_iter) ix).

(** What the seed loop carries: the alt name set, [new_reads["alt"]] and
    the three dictionaries. *)
Record Seeds : Type := {
  seed_names : gset string;
  seed_new : list (string * Z);
  seed_ix : Indices }.

(** The body of [for read in grouped_reads["alt"]].  [het_site] is the
    variable the first loop left behind: its last site, or unbound when
    there was none. *)
Definition seed_read (bamfile : AlignmentFile) (het_sites : list HetSite)
    (sd : Seeds) (read : AlignedSegment) : result Seeds :=
  let names := seed_names sd ∪ {[query_name read]} in
  let new := seed_new sd ++ [(query_name read, -1)] in
  let ix := seed_ix sd in
  match mate bamfile read with
  | None => Ok {| seed_names := names; seed_new := new; seed_ix := ix |}
  | Some mate =>
      let fetched := dict_set (query_name read) (read, mate) (fetched_reads ix) in
      let match_sites :=
        binary_search (reference_start read) (reference_end read) het_sites in
      if (length match_sites <=? 0)%nat then
        Ok {| seed_names := names; seed_new := new;
              seed_ix := {| fetched_reads := fetched;
                            read_sites := read_sites ix;
                            site_reads := site_reads ix |} |}
      else
        het_site ← expect UnboundLocalError (last het_sites);
        let rs0 := default [] (dict_get (query_name read) (read_sites ix)) in
        let sr0 := default [] (dict_get (pos het_site) (site_reads ix)) in
        Ok {| seed_names := names; seed_new := new;
              seed_ix :=
                {| fetched_reads := fetched;
                   read_sites :=
                     dict_set (query_name read) (rs0 ++ match_sites)
                       (read_sites ix);
                   site_reads :=
                     dict_set (pos het_site)
                       (sr0 ++ map (λ _, query_name read) match_sites)
                       (site_reads ix) |} |}
  end.

(** The final loops: each grouped name that was fetched contributes its
    pair.  The names of a set are visited in the order of [elements]. *)
Definition flatten_reads (fetched : dict string (AlignedSegment * AlignedSegment))
    (names : gset string) : list AlignedSegment :=
  flat_map (λ readname,
              match dict_get readname fetched with
              | Some read_mate => [read_mate.1; read_mate.2]
              | None => []
              end)
           (elements names).

(** [group_reads_by_haplotype] up to
    [connected_reads = connect_reads(...)]: the dictionaries it built and
    the two name sets that the closure returned. *)
Definition connected_reads_of (fuel : nat) (bamfile : AlignmentFile)
    (region : DNM) (grouped_reads : by_hap (list AlignedSegment))
    (het_sites : list HetSite)
    : option (result (Indices * by_hap (gset string))) :=
  match
    ix ← for_each (index_het_site bamfile region) het_sites
           {| fetched_reads := []; read_sites := []; site_reads := [] |};
    for_each (seed_read bamfile het_sites) (on_alt grouped_reads)
      {| seed_names := ∅; seed_new := []; seed_ix := ix |}
  with
  | Raise e => Some (Raise e)
  | Ok sd =>
      let ix := seed_ix sd in
      match connect_reads fuel {| on_alt := seed_names sd; on_ref := ∅ |}
              (read_sites ix) (site_reads ix)
              [(Alt, seed_new sd); (Ref, [])] (fetched_reads ix) with
      | None => None
      | Some (Raise e) => Some (Raise e)
      | Some (Ok connected_reads) => Some (Ok (ix, connected_reads))
      end
  end.

Definition group_reads_by_haplotype (fuel : nat) (bamfile : AlignmentFile)
    (region : DNM) (grouped_reads : by_hap (list AlignedSegment))
    (het_sites : list HetSite)
    : option (result (by_hap (list AlignedSegment))) :=
  match connected_reads_of fuel bamfile region grouped_reads het_sites with
  | None => None
  | Some (Raise e) => Some (Raise e)
  | Some (Ok (ix, connected_reads)) =>
      Some (Ok {| on_alt := flatten_reads (fetched_reads ix) (on_alt connected_reads);
                  on_ref := flatten_reads (fetched_reads ix) (on_ref connected_reads) |})
  end.

(** [concordant_upper_len] after [if not concordant_upper_len: ...]. *)
Definition concordant_or_estimate (bamfile : AlignmentFile)
    (concordant_upper_len : option pynum) : result pynum :=
  match concordant_upper_len with
  | Some c => if num_truthy c then Ok c
              else PyFloat <$> estimate_concordant_insert_len bamfile
  | None => PyFloat <$> estimate_concordant_insert_len bamfile
  end.

(** [l.count(None)] *)
Definition count_none (l : list (option Z)) : Z :=
  Z.of_nat (length (List.filter (λ o, bool_decide (o = None)) l)).

(** The body of [for read in bam_iter] in [collect_reads_snv]. *)
Definition snv_read (bamfile : AlignmentFile) (position : Z) (ref alt : string)
    (informative_reads : by_hap (list AlignedSegment)) (read : AlignedSegment)
    : result (by_hap (list AlignedSegment)) :=
  if negb (goodread read) then Ok informative_reads else
  match mate bamfile read with
  | None => Ok informative_reads
  | Some mate =>
      if negb (goodread mate) then Ok informative_reads else
      if (5 <? count_none (reference_positions read))
         || (5 <? count_none (reference_positions mate))
      then Ok informative_reads else
      read_allele ← get_allele_at read mate position;
      if bool_decide (read_allele = Some ref)
      then Ok (hap_upd Ref (λ l, l ++ [read; mate]) informative_reads)
      else if bool_decide (read_allele = Some alt)
      then Ok (hap_upd Alt (λ l, l ++ [read; mate]) informative_reads)
      else Ok informative_reads
  end.

(** [collect_reads_snv] on the opened alignment file. *)
Definition collect_reads_snv (fuel : nat) (bamfile : AlignmentFile)
    (region : DNM) (het_sites : list HetSite) (ref alt : string)
    (no_extended : bool) (concordant_upper_len : option pynum)
    : option (result (by_hap (list AlignedSegment))) :=
  let position := start region in
  match
    _ ← concordant_or_estimate bamfile concordant_upper_len;
    bam_iter ← fetch_retry bamfile (chrom region) (flip_chr (chrom region))
                 (PyInt (position - 1)) (PyInt (position + 1))
                 (PyInt position) (PyInt (position + 1));
    for_each (snv_read bamfile position ref alt) bam_iter
      {| on_alt := []; on_ref := [] |}
  with
  | Raise e => Some (Raise e)
  | Ok informative_reads =>
      if no_extended then Some (Ok informative_reads)
      else group_reads_by_haplotype fuel bamfile region informative_reads het_sites
  end.

(** [int(n)] on a Python number. *)
Definition num_int (n : pynum) : result Z :=
  match n with
  | PyInt z => Ok z
  | PyFloat f => int_of_float f
  end.

(** [len(list(set(l))) == 1 and list(set(l))[0] is None] *)
Definition only_none (l : list (option Z)) : bool :=
  bool_decide (remove_dups l = [None]).

(** The offset of the breakpoint, or of a neighbour of it, in the read. *)
Definition breakpoint_offset (position : Z) (ref_positions : list (option Z))
    : option nat :=
  match position_of (Some position) ref_positions with
  | Some i => Some i
  | None =>
      match position_of (Some (position - 1)) ref_positions with
      | Some i => Some i
      | None => position_of (Some (position + 1)) ref_positions
      end
  end.

(** The body of [for read in bam_iter] in [collect_reads_sv]. *)
Definition sv_read (bamfile : AlignmentFile) (region : DNM) (position : Z)
    (var_len : float) (concordant_upper_len : pynum)
    (supporting_reads : list AlignedSegment) (read : AlignedSegment)
    : result (list AlignedSegment) :=
  if negb (goodread read) then Ok supporting_reads else
  match mate bamfile read with
  | None => Ok supporting_reads
  | Some mate0 =>
      let insert_size := Z.abs (tlen read - READLEN * 2) in
      if negb (goodread mate0) then Ok supporting_reads else
      if has_SA read then
        if ((position - SPLITTER_ERR_MARGIN <=? reference_start read)
            && (reference_start read <=? position + SPLITTER_ERR_MARGIN))
           || ((position - SPLITTER_ERR_MARGIN <=? reference_end read)
               && (reference_end read <=? position + SPLITTER_ERR_MARGIN))
        then Ok (supporting_reads ++ [read; mate0])
        else Ok supporting_reads
      else
        discordant ←
          (if num_ltb concordant_upper_len (PyInt insert_size) then
             if insert_size =? 0 then Raise ZeroDivisionError else
             let ratio := PrimFloat.abs (PrimFloat.div var_len (float_of_Z insert_size)) in
             Ok (PrimFloat.ltb 0.7 ratio && PrimFloat.ltb ratio 1.3)
           else Ok false);
        if discordant : bool then
          match mate bamfile read with
          | None => Ok supporting_reads
          | Some mate1 =>
              let left0 := Z.min (reference_start mate1) (reference_start read) in
              let right0 := Z.max (reference_start mate1) (reference_start read) in
              concordant_with_wiggle ← num_int concordant_upper_len;
              if negb ((start region - concordant_with_wiggle <? left0)
                       && (left0 <? start region + concordant_with_wiggle)
                       && (end_ region - concordant_with_wiggle <? right0)
                       && (right0 <? end_ region + concordant_with_wiggle))
              then Ok supporting_reads
              else Ok (supporting_reads ++ [mate1; read])
          end
        else
          let ref_positions := reference_positions read in
          match breakpoint_offset position ref_positions with
          | None => Ok supporting_reads
          | Some region_pos =>
              if (Z.of_nat region_pos <? 2)
                 || (Z.of_nat (length ref_positions) - 4 <? Z.of_nat region_pos)
              then Ok supporting_reads
              else
                let before_positions := take (region_pos - 1) ref_positions in
                let after_positions := drop (region_pos + 1) ref_positions in
                if only_none before_positions || only_none after_positions
                then Ok (supporting_reads ++ [mate0; read])
                else Ok supporting_reads
          end
  end.

(** The alternate chromosome name of the SV collector. *)
Definition flip_chr_sv (chrom : string) : string :=
  if str_contains "chr" chrom then str_remove "chr" chrom else "chr" +:+ chrom.

(** The body of [for position in region["start"], region["end"]]. *)
Definition sv_breakpoint (bamfile : AlignmentFile) (region : DNM)
    (var_len : float) (concordant_upper_len : pynum)
    (supporting_reads : list AlignedSegment) (position : Z)
    : result (list AlignedSegment) :=
  let lo := num_max (PyInt 0) (num_sub (PyInt position) concordant_upper_len) in
  let hi := num_add (PyInt position) concordant_upper_len in
  bam_iter ← fetch_retry bamfile (chrom region) (flip_chr_sv (chrom region))
               lo hi lo hi;
  for_each (sv_read bamfile region position var_len concordant_upper_len)
    bam_iter supporting_reads.

(** [collect_reads_sv] up to [informative_reads = ...]: the list
    [supporting_reads] after the loop over the two breakpoints. *)
Definition sv_supporting_reads (bamfile : AlignmentFile) (region : DNM)
    (concordant_upper_len : option pynum) : result (list AlignedSegment) :=
  concordant_upper_len ← concordant_or_estimate bamfile concordant_upper_len;
  let var_len :=
    PrimFloat.abs (PrimFloat.sub (float_of_Z (end_ region))
                     (float_of_Z (start region))) in
  for_each (sv_breakpoint bamfile region var_len concordant_upper_len)
    [start region; end_ region] [].

(** [collect_reads_sv] on the opened alignment file. *)
Definition collect_reads_sv (fuel : nat) (bamfile : AlignmentFile)
    (region : DNM) (het_sites : list HetSite) (no_extended : bool)
    (concordant_upper_len : option pynum)
    : option (result (by_hap (list AlignedSegment))) :=
  match sv_supporting_reads bamfile region concordant_upper_len with
  | Raise e => Some (Raise e)
  | Ok supporting_reads =>
      let informative_reads := {| on_alt := supporting_reads; on_ref := [] |} in
      if no_extended then Some (Ok informative_reads)
      else group_reads_by_haplotype fuel bamfile region informative_reads het_sites
  end.

End ReadCollector.

(** * Fixtures

    A trio, a callset line that is informative for it, and the tunables
    used in the concrete evaluations below. *)

Definition trio_tunables : Tunables :=
  {| MIN_AB_HET := 0.2; MAX_AB_HET := 0.8;
     MIN_AB_HOMREF := 0; MAX_AB_HOMREF := 0.2;
     MIN_AB_HOMALT := 0.8; MAX_AB_HOMALT := 1;
     MIN_GT_QUAL := 20; MIN_DEPTH := 10 |}.

(** An instance of the pseudoautosomal tables. *)
Definition example_par : PARTables :=
  {| grch37_par1 := [("x", (60001, 2699520)); ("y", (10001, 2649520))];
     grch37_par2 := [("x", (154931044, 155260560)); ("y", (59034050, 59363566))];
     grch38_par1 := [("x", (10001, 2781479)); ("y", (10001, 2781479))];
     grch38_par2 := [("x", (155701383, 156030895)); ("y", (56887903, 57217415))] |}.

(** A son with both parents. *)
Definition trio_pedigrees : dict string Pedigree :=
  [("kid", {| dad := "dad"; mom := "mom"; sex := 1 |})].

(** A biallelic SNV where the kid is HET 10/10, the dad HOM_ALT 0/20 and the
    mom HOM_REF 20/0, all with quality 60. *)
Definition informative_snv (chrom : string) (start : Z) : Variant :=
  {| CHROM := chrom; v_start := start; REF := "A"; ALT := ["G"];
     gt_types := [HET; HOM_ALT; HOM_REF];
     gt_ref_depths := [10; 0; 20];
     gt_alt_depths := [10; 20; 0];
     gt_quals := [60; 60; 60]%float |}.

Definition trio_vcf (prefix : string) (records : list Variant) : VCF :=
  {| samples := ["kid"; "dad"; "mom"]; prefix := prefix; records := records |}.

Definition kid_dnm (chrom : string) (start end_ : Z) : DNM :=
  {| chrom := chrom; start := start; end_ := end_; kid := "kid";
     vartype := None; candidate_sites := None; het_sites := None |}.

(** The candidate and the het site that [informative_snv _ start] yields. *)
Definition snv_candidate (start : Z) : Candidate :=
  {| c_pos := start; c_ref_allele := "A"; c_alt_allele := "G";
     kid_allele := None; alt_parent := "dad"; ref_parent := "mom" |}.

Definition snv_het_site (start : Z) : HetSite :=
  {| pos := start; ref_allele := "A"; alt_allele := "G" |}.

(** * Properties *)

(** ** The two finder paths *)

(** C1.  The batched path and the per-DNM path do not give a DNM the same
    sites.  Input: the trio, one DNM [1:1000-5000] of the kid, search
    distance 100, [whole_region = False], and a callset with one informative
    SNV at [start = 4990], ten bases before the DNM's end.  Below the
    threshold ([multithread_proc_min = 2]) [find] searches [end ± 100] and
    records the candidate and the het site; at the threshold
    ([multithread_proc_min = 1]) the batched path builds the key
    [[kid, 1, 5000]] from the end position, finds no DNM starting there and
    records nothing. *)
Theorem find_paths_disagree_near_end :
  let dnms := [kid_dnm "1" 1000 5000] in
  let vcf := trio_vcf "" [informative_snv "1" 4990] in
  find example_par trio_tunables trio_pedigrees "38" dnms vcf 100 2 false
    = Ok (Some [set_sites (kid_dnm "1" 1000 5000)
                  (Some [snv_candidate 4990]) (Some [snv_het_site 4990])])
  ∧ find example_par trio_tunables trio_pedigrees "38" dnms vcf 100 1 false
    = Ok (Some [kid_dnm "1" 1000 5000]).
Proof. split; vm_compute; reflexivity. Qed.

(** C3.  In whole-region batch mode the proximity query raises.  Input:
    one DNM [1:100-200] of the kid ([end - start > 2], so
    [samples_by_location["1"]] has the keys 100 and 200 while
    [vars_by_sample["kid"]["1"]] has the key 100 only) and a variant at
    [POS = 150]: [get_close_vars] raises [KeyError] at [dn_loc = 200], and
    so does the whole batched run. *)
Theorem get_close_vars_raises_on_end_key :
  let dnms := [kid_dnm "1" 100 200] in
  let vcf := trio_vcf "" [informative_snv "1" 149] in
  (∃ lk, create_lookups example_par trio_pedigrees "38" dnms = Ok lk
         ∧ dict_keys (default [] (dict_get "1" (samples_by_location lk))) = [100; 200]
         ∧ get_close_vars "1" 150 (samples_by_location lk) (vars_by_sample lk)
             50 true = Raise KeyError)
  ∧ find_many example_par trio_tunables trio_pedigrees "38" dnms vcf 50 true
    = Raise KeyError.
Proof.
  split; [eexists; split; [vm_compute; reflexivity|]|]; vm_compute; auto.
Qed.

(** C4.  X-chromosome candidates are accepted for a son.  The kid of
    [trio_pedigrees] is male; the DNM is on X and, the build being
    ["na"], not auto-phased.  (i) Per-DNM path, callset named with the
    [chr] prefix: the only record is on [chrX], the test
    [variant.CHROM == "X"] misses it and it becomes a candidate.  (ii)
    Batched path, callset named [X]: the path has no such test and the
    record becomes a candidate.  (iii) For comparison, the per-DNM path on
    the callset named [X] records nothing. *)
Theorem male_kid_gets_X_candidates :
  find example_par trio_tunables trio_pedigrees "na" [kid_dnm "X" 1000 1001]
    (trio_vcf "chr" [informative_snv "chrX" 990]) 100 2 false
    = Ok (Some [set_sites (kid_dnm "X" 1000 1001)
                  (Some [snv_candidate 990]) (Some [snv_het_site 990])])
  ∧ find example_par trio_tunables trio_pedigrees "na" [kid_dnm "X" 1000 1001]
      (trio_vcf "" [informative_snv "X" 990]) 100 1 false
    = Ok (Some [set_sites (kid_dnm "X" 1000 1001)
                  (Some [snv_candidate 990]) (Some [snv_het_site 990])])
  ∧ find example_par trio_tunables trio_pedigrees "na" [kid_dnm "X" 1000 1001]
      (trio_vcf "" [informative_snv "X" 990]) 100 2 false
    = Ok (Some [set_sites (kid_dnm "X" 1000 1001) (Some []) (Some [])]).
Proof. repeat split; vm_compute; reflexivity. Qed.

(** ** Kid-allele inference for duplications *)

Lemma wrap32_small z : - 2 ^ 31 ≤ z < 2 ^ 31 → wrap32 z = z.
Proof. intros Hz. unfold wrap32. rewrite Z.mod_small; lia. Qed.

Lemma index_lookup {A} (l : list A) i x : l !! i = Some x → index l i = Ok x.
Proof. intros H. unfold index. by rewrite H. Qed.

Lemma alt_allele_bal_lookup ref_depths alt_depths i r a :
  ref_depths !! i = Some r →
  alt_depths !! i = Some a →
  - 2 ^ 31 ≤ r + a < 2 ^ 31 →
  alt_allele_bal ref_depths alt_depths i
  = Ok (PrimFloat.div (float_of_Z a) (float_of_Z (r + a))).
Proof.
  intros Hr Ha Hsum. unfold alt_allele_bal.
  rewrite (index_lookup alt_depths i a Ha). cbn [mbind result_bind].
  rewrite (index_lookup ref_depths i r Hr). cbn [mbind result_bind].
  unfold add32. by rewrite (wrap32_small _ Hsum).
Qed.

(** The verdict of section 4.5 of the specification on the three alt allele
    balances of a DUP site, in the spec's words: reject when the parental
    shared allele is the duplicated one, else [alt_parent] from 0.67 up,
    else [ref_parent] up to 0.33, else reject. *)
Definition dup_verdict (b_k b_d b_m : float) : option string :=
  if (PrimFloat.ltb (PrimFloat.add b_d b_m) 1 && PrimFloat.ltb 0.5 b_k)
     || (PrimFloat.ltb 1 (PrimFloat.add b_d b_m) && PrimFloat.ltb b_k 0.5)
  then None
  else if PrimFloat.leb 0.67 b_k then Some "alt_parent"
  else if PrimFloat.leb b_k 0.33 then Some "ref_parent"
  else None.

(** C8, as amended.  For a DUP DNM whose kid has depths [r] and [a] (their
    int32 sum not overflowing) and genotype [g], inference proceeds exactly
    when [r > 2], [a > 2], [r + a > MIN_DEPTH] (strictly) and [g = HET]; it
    then returns the verdict of the specification on the three balances,
    and [None] in every other case. *)
Theorem get_kid_allele_dup tun genotypes ref_depths alt_depths
    kid_idx dad_idx mom_idx r a g :
  ref_depths !! kid_idx = Some r →
  alt_depths !! kid_idx = Some a →
  genotypes !! kid_idx = Some g →
  - 2 ^ 31 ≤ r + a < 2 ^ 31 →
  get_kid_allele tun "DUP" genotypes ref_depths alt_depths kid_idx dad_idx mom_idx
  = if (2 <? r) && (2 <? a) && (MIN_DEPTH tun <? r + a) && bool_decide (g = HET)
    then
      b_d ← alt_allele_bal ref_depths alt_depths dad_idx;
      b_m ← alt_allele_bal ref_depths alt_depths mom_idx;
      Ok (dup_verdict (PrimFloat.div (float_of_Z a) (float_of_Z (r + a))) b_d b_m)
    else Ok None.
Proof.
  intros Hr Ha Hg Hsum.
  unfold get_kid_allele. cbn [String.eqb Ascii.eqb Bool.eqb mbind result_bind].
  rewrite (index_lookup ref_depths kid_idx r Hr). cbn [mbind result_bind].
  destruct (2 <? r); cbn [andb]; [|reflexivity].
  rewrite (index_lookup alt_depths kid_idx a Ha). cbn [mbind result_bind].
  destruct (2 <? a); cbn [andb mbind result_bind]; [|reflexivity].
  unfold add32. rewrite (wrap32_small _ Hsum).
  destruct (MIN_DEPTH tun <? r + a); cbn [andb]; [|reflexivity].
  rewrite (index_lookup genotypes kid_idx g Hg). cbn [mbind result_bind].
  destruct (bool_decide (g = HET)); [|reflexivity].
  rewrite (alt_allele_bal_lookup _ _ _ _ _ Hr Ha Hsum). cbn [mbind result_bind].
  destruct (alt_allele_bal ref_depths alt_depths dad_idx) as [b_d|]; [|reflexivity].
  cbn [mbind result_bind].
  destruct (alt_allele_bal ref_depths alt_depths mom_idx) as [b_m|]; [|reflexivity].
  cbn [mbind result_bind]. unfold dup_verdict.
  repeat match goal with |- context [if ?b then _ else _] => destruct b end;
    reflexivity.
Qed.

(** The boundary 0.67 is inclusive: kid depths 33/67 with parents whose
    balances sum to one. *)
Lemma get_kid_allele_dup_witness :
  get_kid_allele trio_tunables "DUP" [HET; HOM_ALT; HOM_REF]
    [33; 0; 20] [67; 20; 0] 0 1 2 = Ok (Some "alt_parent").
Proof.
  rewrite (get_kid_allele_dup trio_tunables [HET; HOM_ALT; HOM_REF]
             [33; 0; 20] [67; 20; 0] 0 1 2 33 67 HET);
    [vm_compute; reflexivity | reflexivity | reflexivity | reflexivity | lia].
Defined.

(** The boundary 0.33 is inclusive, and 0.5 is rejected. *)
Example get_kid_allele_dup_033 :
  get_kid_allele trio_tunables "DUP" [HET; HOM_ALT; HOM_REF]
    [67; 0; 20] [33; 20; 0] 0 1 2 = Ok (Some "ref_parent")
  ∧ get_kid_allele trio_tunables "DUP" [HET; HOM_ALT; HOM_REF]
      [50; 0; 20] [50; 20; 0] 0 1 2 = Ok None.
Proof. split; vm_compute; reflexivity. Qed.

(** C8 as stated fails at [ref + alt = min_depth]: the kid has depths 3/7,
    so both exceed 2, their sum 10 is [>= MIN_DEPTH = 10], the kid is HET
    and the verdict on the balances (0.7, 1, 0) is [alt_parent]; yet
    [get_kid_allele] returns [None]. *)
Lemma get_kid_allele_dup_rejects_at_min_depth :
  (2 < 3 ∧ 2 < 7 ∧ 3 + 7 >= MIN_DEPTH trio_tunables)
  ∧ dup_verdict (PrimFloat.div (float_of_Z 7) (float_of_Z (3 + 7))) 1 0
    = Some "alt_parent"
  ∧ get_kid_allele trio_tunables "DUP" [HET; HOM_ALT; HOM_REF]
      [3; 0; 20] [7; 20; 0] 0 1 2 = Ok None.
Proof. vm_compute. repeat split; congruence. Qed.

(** ** The insert-length estimator *)

Lemma insert_sizes_from_length i reads :
  0 ≤ i ≤ MILLION →
  Z.of_nat (length (insert_sizes_from i reads))
  = Z.min (Z.of_nat (length reads)) (MILLION + 1 - i).
Proof.
  revert i. induction reads as [|read reads IH]; intros i Hi.
  - cbn. lia.
  - cbn [insert_sizes_from length]. destruct (Z.leb_spec MILLION i).
    + cbn [length]. lia.
    + rewrite !Nat2Z.inj_succ, IH by lia. lia.
Qed.

(** A mapped, paired read with the given name and template length. *)
Definition plain_read (name : string) (tlen : Z) : AlignedSegment :=
  {| query_name := name; is_qcfail := false; is_unmapped := false;
     is_duplicate := false; mapping_quality := 60; is_secondary := false;
     is_supplementary := false; mate_is_unmapped := false;
     next_reference_id := 0; reference_id := 0;
     reference_start := 0; reference_end := 0; tlen := tlen;
     reference_positions := []; query_sequence := ""; has_SA := false |}.

(** An alignment file that holds the given records and answers no query. *)
Definition file_of (reads : list AlignedSegment) : AlignmentFile :=
  {| alignments := reads; fetch := λ _ _ _, Some []; mate := λ _, None |}.

(** C9.  The estimator does not do what the claim says.  (i) It appends
    before it tests [i >= MILLION], so on a long file it examines
    1,000,001 alignments.  (ii) It assigns the percentile, a scalar, to
    [insert_sizes]: on a file of two reads with insert sizes 0 and 100,
    whose 99.5th percentile is 99.5, it returns [int(99.5) + 0.0 * 3 = 99],
    where the mean plus three standard deviations of the values up to the
    percentile is 0 (and 200 over both values). *)
Theorem estimate_returns_truncated_percentile
    (np_percentile : list Z → float → result float) (bamfile : AlignmentFile) :
  np_percentile [0; 100] 99.5%float = Ok 99.5%float →
  estimate_concordant_insert_len np_percentile
    (file_of [plain_read "r1" 302; plain_read "r2" 402]) = Ok 99%float
  ∧ Z.of_nat (length (insert_sizes_from 0 (alignments bamfile)))
    = Z.min (Z.of_nat (length (alignments bamfile))) (MILLION + 1).
Proof.
  intros Hp. split.
  - unfold estimate_concordant_insert_len.
    change (insert_sizes_from 0 _) with [0; 100]. rewrite Hp. vm_compute.
    reflexivity.
  - rewrite insert_sizes_from_length by (unfold MILLION; lia). lia.
Qed.

Lemma estimate_returns_truncated_percentile_witness :
  estimate_concordant_insert_len (λ _ _, Ok 99.5%float)
    (file_of [plain_read "r1" 302; plain_read "r2" 402]) = Ok 99%float.
Proof.
  exact (proj1 (estimate_returns_truncated_percentile (λ _ _, Ok 99.5%float)
                  (file_of []) eq_refl)).
Defined.

(** ** Dictionaries *)

Section pydict_facts.
Context {K V : Type} `{EqDecision K}.
Implicit Types (d : list (K * V)) (k : K) (v : V).

Lemma dict_get_set k k' v d :
  dict_get k' (dict_set k v d) = if decide (k' = k) then Some v else dict_get k' d.
Proof.
  induction d as [|[k0 v0] d IH]; cbn.
  - by repeat case_decide.
  - repeat (case_decide; cbn; simplify_eq); try done.
Qed.

Lemma dict_get_set_eq k v d : dict_get k (dict_set k v d) = Some v.
Proof. rewrite dict_get_set. by case_decide. Qed.

Lemma dict_get_set_ne k k' v d :
  k' ≠ k → dict_get k' (dict_set k v d) = dict_get k' d.
Proof. intros. rewrite dict_get_set. by case_decide. Qed.

Lemma dict_get_Some_elem k v d : dict_get k d = Some v → (k, v) ∈ d.
Proof.
  induction d as [|[k0 v0] d IH]; cbn; [done|].
  case_decide; intros; simplify_eq; [left | right; auto].
Qed.

Lemma dict_get_Some_key k v d : dict_get k d = Some v → k ∈ dict_keys d.
Proof.
  intros Hget%dict_get_Some_elem. unfold dict_keys.
  apply list_elem_of_fmap. by exists (k, v).
Qed.

Lemma dict_get_None_keys k d : dict_get k d = None → k ∉ dict_keys d.
Proof.
  induction d as [|[k0 v0] d IH]; cbn; [intros _; apply not_elem_of_nil|].
  case_decide; [done|]. intros Hget. apply not_elem_of_cons. auto.
Qed.

Lemma dict_elem_get k v d : NoDup (dict_keys d) → (k, v) ∈ d → dict_get k d = Some v.
Proof.
  induction d as [|[k0 v0] d IH]; cbn; [by intros _ ?%elem_of_nil|].
  intros [Hk0 Hnd]%NoDup_cons [Heq|Hin]%elem_of_cons.
  - simplify_eq. by case_decide.
  - case_decide; [|auto]. subst k0. exfalso. apply Hk0.
    unfold dict_keys. apply list_elem_of_fmap. by exists (k, v).
Qed.

Lemma dict_keys_set k v d :
  dict_keys (dict_set k v d)
  = if dict_mem k d then dict_keys d else dict_keys d ++ [k].
Proof.
  unfold dict_mem, dict_keys. induction d as [|[k0 v0] d IH]; cbn; [done|].
  case_decide; cbn; [by subst|]. rewrite IH. by destruct (dict_get k d).
Qed.

Lemma dict_keys_set_NoDup k v d :
  NoDup (dict_keys d) → NoDup (dict_keys (dict_set k v d)).
Proof.
  intros Hnd. rewrite dict_keys_set. unfold dict_mem.
  destruct (dict_get k d) eqn:Hget; [done|].
  apply NoDup_app. split_and!; [done| |apply NoDup_singleton].
  intros x Hx ->%list_elem_of_singleton. by apply dict_get_None_keys in Hget.
Qed.
End pydict_facts.

(** ** The closure of the grouper *)

(** Generic facts on [for_each]. *)
Lemma for_each_app {A S} (body : S → A → result S) l1 l2 st :
  for_each body (l1 ++ l2) st = st' ← for_each body l1 st; for_each body l2 st'.
Proof.
  revert st. induction l1 as [|x l1 IH]; intros st; [done|].
  cbn [app for_each]. destruct (body st x) as [st1|e]; [|done].
  cbn [mbind result_bind]. apply IH.
Qed.

Lemma for_each_rel {A S} (R : S → S → Prop) `{!Reflexive R, !Transitive R}
    (Q : A → Prop) (body : S → A → result S) l st st' :
  (∀ s x s', Q x → body s x = Ok s' → R s s') →
  Forall Q l →
  for_each body l st = Ok st' →
  R st st'.
Proof.
  intros Hbody Hl. revert st. induction Hl as [|x l Hx Hl IH]; intros st Hrun.
  - cbn in Hrun. by injection Hrun as <-.
  - cbn [for_each] in Hrun. destruct (body st x) as [st1|e] eqn:Hstep; [|done].
    cbn [mbind result_bind] in Hrun. etransitivity; [by eapply Hbody | by apply IH].
Qed.

Lemma Forall_True {A} (l : list A) : Forall (λ _, True) l.
Proof. by apply Forall_forall. Qed.

Section Closure.
Context (fetched : dict string (AlignedSegment * AlignedSegment)).
Context (rsites : dict string (list HetSite)) (sreads : dict Z (list string)).

Definition assigned (g : by_hap (gset string)) : gset string :=
  on_alt g ∪ on_ref g.

(** Componentwise inclusion of the two name sets. *)
Definition hap_le (g g' : by_hap (gset string)) : Prop :=
  on_alt g ⊆ on_alt g' ∧ on_ref g ⊆ on_ref g'.

(** The names queued in [reads_to_add]. *)
Definition added (rta : by_hap (list (string * Z))) : list string :=
  (on_alt rta).*1 ++ (on_ref rta).*1.

(** Every name that occurs in a list of [site_reads]. *)
Definition site_read_names : gset string :=
  list_to_set (mjoin (sreads.*2)).

(** [grows st st']: [st'] is [st] after some assignments, each of a name
    of [site_reads] that was in neither set when it was made. *)
Inductive grows : conn_state → conn_state → Prop :=
  | grows_refl st : grows st st
  | grows_step st st' h name p :
      grows st st' →
      name ∉ assigned st'.1 →
      name ∈ site_read_names →
      grows st (assign h name p st').

#[local] Instance grows_reflexive : Reflexive grows.
Proof. intros st. constructor. Qed.

#[local] Instance grows_transitive : Transitive grows.
Proof.
  intros st1 st2 st3 H12 H23. induction H23; [done|]. constructor; auto.
Qed.

Lemma assigned_assign h name p (st : conn_state) :
  assigned (assign h name p st).1 = assigned st.1 ∪ {[name]}.
Proof. destruct h; unfold assigned, assign; cbn; set_solver. Qed.

Lemma added_assign h name p (st : conn_state) :
  added (assign h name p st).2 ≡ₚ name :: added st.2.
Proof.
  destruct h; unfold added, assign; cbn; rewrite fmap_app; cbn.
  - rewrite <- app_assoc. cbn. symmetry. apply Permutation_middle.
  - rewrite app_assoc. symmetry. apply Permutation_cons_append.
Qed.

Lemma grows_disjoint st st' :
  grows st st' → on_alt st.1 ## on_ref st.1 → on_alt st'.1 ## on_ref st'.1.
Proof.
  induction 1 as [|st st' h name p _ IH Hfresh _]; [done|]. intros Hd.
  specialize (IH Hd). unfold assigned in Hfresh.
  destruct h; cbn; set_solver.
Qed.

Lemma grows_le st st' : grows st st' → hap_le st.1 st'.1.
Proof.
  induction 1 as [|st st' h name p _ [IHa IHr] _ _]; [done|].
  destruct h; split; cbn; set_solver.
Qed.

(** What a run of assignments adds: fresh names of [site_reads], each
    once, and nothing else. *)
Lemma grows_added st st' :
  grows st st' →
  ∃ new, added st'.2 ≡ₚ new ++ added st.2
         ∧ NoDup new
         ∧ (∀ x, x ∈ new → (x ∉ assigned st.1) ∧ (x ∈ site_read_names))
         ∧ assigned st'.1 = assigned st.1 ∪ list_to_set new.
Proof.
  induction 1 as [st|st st' h name p _ (new & Hperm & Hnd & Hnew & Has) Hfresh HU].
  - exists []. split_and!; [done | constructor | set_solver | set_solver].
  - exists (name :: new). split_and!.
    + by rewrite added_assign, Hperm.
    + constructor; [|done]. rewrite Has in Hfresh. set_solver.
    + rewrite Has in Hfresh. set_solver.
    + rewrite assigned_assign, Has. set_solver.
Qed.

Lemma connect_site_read_grows h site fa nfa st name st' :
  name ∈ site_read_names →
  connect_site_read fetched h site fa nfa st name = Ok st' →
  grows st st'.
Proof.
  intros HU. unfold connect_site_read.
  destruct (bool_decide (name ∉ on_ref st.1)) eqn:Hr; cbn [andb];
    [|intros [= <-]; constructor].
  destruct (bool_decide (name ∉ on_alt st.1)) eqn:Ha;
    [|intros [= <-]; constructor].
  apply bool_decide_eq_true in Hr, Ha.
  assert (name ∉ assigned st.1) by (unfold assigned; set_solver).
  destruct (subscript fetched name) as [rm|]; [|done]. cbn [mbind result_bind].
  destruct (get_allele_at _ _ _) as [[allele|]|]; cbn [mbind result_bind];
    [|intros [= <-]; constructor|done].
  repeat case_match; intros [= <-]; by repeat constructor.
Qed.

Lemma elem_of_site_read_names p names name :
  dict_get p sreads = Some names → name ∈ names → name ∈ site_read_names.
Proof.
  unfold site_read_names. intros Hget Hin.
  apply elem_of_list_to_set, list_elem_of_join. exists names. split; [done|].
  apply list_elem_of_fmap. exists (p, names). split; [done|].
  clear Hin. induction sreads as [|[k v] d IH]; [done|].
  cbn in Hget. case_decide; simplify_eq; [left | right; auto].
Qed.

Lemma connect_site_grows h readname found st site st' :
  connect_site sreads fetched h readname found st site = Ok st' →
  grows st st'.
Proof.
  unfold connect_site. case_match; [intros [= <-]; constructor|].
  destruct (subscript fetched readname) as [rm|]; [|done]. cbn [mbind result_bind].
  destruct (get_allele_at _ _ _) as [[fa|]|]; cbn [mbind result_bind];
    [|intros [= <-]; constructor|done].
  destruct (if str_truthy fa then _ else _) as [nfa|];
    [|intros [= <-]; constructor].
  case_match; [intros [= <-]; constructor|].
  unfold subscript. destruct (dict_get (pos site) sreads) as [names|] eqn:Hnames;
    [|done].
  cbn [expect mbind result_bind]. intros Hrun.
  eapply (for_each_rel grows (λ name, name ∈ names)); [|by apply Forall_forall|done].
  intros s x s' Hx. apply connect_site_read_grows.
  by eapply elem_of_site_read_names.
Qed.

Lemma connect_read_grows h st new_read st' :
  connect_read rsites sreads fetched h st new_read = Ok st' → grows st st'.
Proof.
  unfold connect_read. case_match; [|intros [= <-]; constructor].
  intros Hrun. eapply (for_each_rel grows (λ _, True)); [|apply Forall_True|done].
  intros s x s' _. apply connect_site_grows.
Qed.

Lemma connect_pass_grows g new st' :
  connect_pass g rsites sreads new fetched = Ok st' →
  grows (g, {| on_alt := []; on_ref := [] |}) st'.
Proof.
  unfold connect_pass. intros Hrun.
  eapply (for_each_rel grows (λ _, True)); [|apply Forall_True|done].
  intros s entry s' _ Hentry. cbn beta in Hentry.
  eapply (for_each_rel grows (λ _, True)); [|apply Forall_True|exact Hentry].
  intros s1 x s1' _. apply connect_read_grows.
Qed.
End Closure.

#[local] Instance hap_le_preorder : PreOrder hap_le.
Proof.
  split.
  - by intros g.
  - intros g1 g2 g3 [??] [??]. split; set_solver.
Qed.

(** Inclusion of the name sets of two states, as a relation on states. *)
Definition state_le (st st' : conn_state) : Prop := hap_le st.1 st'.1.

#[local] Instance state_le_preorder : PreOrder state_le.
Proof.
  split.
  - intros st. unfold state_le. reflexivity.
  - intros s1 s2 s3. unfold state_le. apply transitivity.
Qed.

Lemma for_each_replay {A} (Q : A → Prop) (G : conn_state)
    (body : conn_state → A → result conn_state) l st st' :
  (∀ s x s', Q x → body s x = Ok s' → state_le s s') →
  (∀ s x s', Q x → body s x = Ok s' → state_le s' G → body G x = Ok G) →
  Forall Q l →
  for_each body l st = Ok st' →
  state_le st' G →
  for_each body l G = Ok G.
Proof.
  intros Hmono Hreplay Hl. revert st.
  induction Hl as [|x l Hx Hl IH]; intros st Hrun Hle; [done|].
  cbn [for_each] in *. destruct (body st x) as [s1|] eqn:Hstep; [|done].
  cbn [mbind result_bind] in Hrun.
  assert (state_le s1 G) as Hs1.
  { etransitivity; [|exact Hle].
    by eapply (for_each_rel state_le Q body l). }
  rewrite (Hreplay _ _ _ Hx Hstep Hs1). cbn [mbind result_bind]. by eapply IH.
Qed.

Section ClosureRuns.
Context (fetched : dict string (AlignedSegment * AlignedSegment)).
Context (rsites : dict string (list HetSite)) (sreads : dict Z (list string)).

#[local] Abbreviation U := (site_read_names sreads).
#[local] Abbreviation no_reads := {| on_alt := []; on_ref := [] |}.

Lemma grows_state_le st st' : grows sreads st st' → state_le st st'.
Proof. apply grows_le. Qed.

(** A pass that queues a read leaves fewer unassigned names. *)
Lemma connect_pass_measure g new g' rta :
  connect_pass g rsites sreads new fetched = Ok (g', rta) →
  (0 <? length (on_alt rta) + length (on_ref rta))%nat = true →
  (size (U ∖ assigned g') < size (U ∖ assigned g))%nat.
Proof.
  intros Hpass Hlen. apply connect_pass_grows, grows_added in Hpass.
  destruct Hpass as (new_names & Hperm & _ & Hnew & Has). cbn in *.
  rewrite app_nil_r in Hperm.
  destruct new_names as [|x new_names].
  { apply Permutation_nil_r in Hperm. unfold added in Hperm.
    apply app_eq_nil in Hperm as [Ha Hr].
    apply fmap_nil_inv in Ha, Hr. rewrite Ha, Hr in Hlen. done. }
  destruct (Hnew x) as [Hfresh HU]; [left|].
  apply subset_size. rewrite Has. set_solver.
Qed.

(** A pass that queues nothing leaves the sets as they were. *)
Lemma connect_pass_stable g new g' rta :
  connect_pass g rsites sreads new fetched = Ok (g', rta) →
  (0 <? length (on_alt rta) + length (on_ref rta))%nat = false →
  assigned g' = assigned g.
Proof.
  intros Hpass Hlen. apply connect_pass_grows, grows_added in Hpass.
  destruct Hpass as (new_names & Hperm & _ & _ & Has). cbn in *.
  rewrite app_nil_r in Hperm.
  assert (added rta = []) as Hnil.
  { unfold added. destruct (on_alt rta), (on_ref rta); cbn in *; done. }
  rewrite Hnil in Hperm. apply Permutation_nil in Hperm as ->.
  rewrite Has. set_solver.
Qed.

Lemma connect_reads_enough_fuel n fuel g new :
  (size (U ∖ assigned g) ≤ n)%nat →
  (n < fuel)%nat →
  is_Some (connect_reads fuel g rsites sreads new fetched).
Proof.
  revert fuel g new. induction n as [|n IH]; intros fuel g new Hn Hfuel;
    (destruct fuel as [|fuel]; [lia|]); cbn [connect_reads];
    destruct (connect_pass g rsites sreads new fetched) as [[g' rta]|] eqn:Hpass;
    try done;
    destruct (0 <? _)%nat eqn:Hlen; try done;
    pose proof (connect_pass_measure _ _ _ _ Hpass Hlen).
  - lia.
  - apply IH; lia.
Qed.

Lemma connect_reads_fuel_mono fuel fuel' g new r :
  connect_reads fuel g rsites sreads new fetched = Some r →
  (fuel ≤ fuel')%nat →
  connect_reads fuel' g rsites sreads new fetched = Some r.
Proof.
  revert fuel' g new. induction fuel as [|fuel IH]; intros fuel' g new Hrun Hle;
    [done|].
  destruct fuel' as [|fuel']; [lia|]. cbn [connect_reads] in *.
  destruct (connect_pass g rsites sreads new fetched) as [[g' rta]|]; [|done].
  destruct (0 <? _)%nat; [|done]. apply IH; [done|lia].
Qed.

(** What a finished closure changed: both sets grew, by names of
    [site_reads] only, and stayed disjoint if they were. *)
Lemma connect_reads_grows fuel g new g' :
  connect_reads fuel g rsites sreads new fetched = Some (Ok g') →
  hap_le g g'
  ∧ assigned g' ⊆ assigned g ∪ U
  ∧ (on_alt g ## on_ref g → on_alt g' ## on_ref g').
Proof.
  revert g new. induction fuel as [|fuel IH]; intros g new Hrun; [done|].
  cbn [connect_reads] in Hrun.
  destruct (connect_pass g rsites sreads new fetched) as [[g1 rta]|] eqn:Hpass;
    [|done].
  apply connect_pass_grows in Hpass.
  pose proof (grows_le _ _ _ Hpass) as Hle.
  pose proof (grows_disjoint _ _ _ Hpass) as Hdis.
  destruct (grows_added _ _ _ Hpass) as (names & _ & _ & Hnew & Has).
  cbn in Hle, Hdis, Has.
  assert (assigned g1 ⊆ assigned g ∪ U) as Hsub.
  { rewrite Has. intros x [?|Hx%elem_of_list_to_set]%elem_of_union; [set_solver|].
    apply elem_of_union_r. by apply Hnew. }
  destruct (0 <? _)%nat.
  - destruct (IH _ _ Hrun) as (Hle' & Hsub' & Hdis'). split_and!.
    + by etransitivity.
    + set_solver.
    + auto.
  - by injection Hrun as <-.
Qed.

Lemma connect_site_read_replay G h site fa nfa st name st' :
  name ∈ U →
  connect_site_read fetched h site fa nfa st name = Ok st' →
  state_le st' (G, no_reads) →
  connect_site_read fetched h site fa nfa (G, no_reads) name = Ok (G, no_reads).
Proof.
  intros HU Hrun Hle.
  pose proof (grows_le _ _ _ (connect_site_read_grows _ _ _ _ _ _ _ _ _ HU Hrun))
    as Hmono.
  destruct Hle as [Hla Hlr], Hmono as [Hma Hmr]. cbn in Hla, Hlr.
  unfold connect_site_read in *. cbn [fst].
  destruct (bool_decide (name ∉ on_ref G)) eqn:Hr; cbn [andb]; [|done].
  destruct (bool_decide (name ∉ on_alt G)) eqn:Ha; [|done].
  apply bool_decide_eq_true in Hr, Ha.
  rewrite !bool_decide_eq_true_2 in Hrun by set_solver. cbn [andb] in Hrun.
  destruct (subscript fetched name) as [rm|]; [|done].
  cbn [mbind result_bind] in *.
  destruct (get_allele_at _ _ _) as [[allele|]|]; cbn [mbind result_bind] in *;
    [|done|done].
  repeat case_match; try done; injection Hrun as <-;
    exfalso; destruct h; cbn in *; set_solver.
Qed.

Lemma connect_site_replay G h readname found st site st' :
  connect_site sreads fetched h readname found st site = Ok st' →
  state_le st' (G, no_reads) →
  connect_site sreads fetched h readname found (G, no_reads) site
  = Ok (G, no_reads).
Proof.
  unfold connect_site. case_match; [done|].
  destruct (subscript fetched readname) as [rm|]; [|done]. cbn [mbind result_bind].
  destruct (get_allele_at _ _ _) as [[fa|]|]; cbn [mbind result_bind]; [|done|done].
  destruct (if str_truthy fa then _ else _) as [nfa|]; [|done].
  case_match; [done|].
  unfold subscript. destruct (dict_get (pos site) sreads) as [names|] eqn:Hnames;
    [|done].
  cbn [expect mbind result_bind].
  apply (for_each_replay (λ name, name ∈ names)); [| |by apply Forall_forall].
  - intros s x s' Hx Hstep. eapply grows_state_le, connect_site_read_grows; [|done].
    by eapply elem_of_site_read_names.
  - intros s x s' Hx. apply connect_site_read_replay.
    by eapply elem_of_site_read_names.
Qed.

Lemma connect_read_replay G h st new_read st' :
  connect_read rsites sreads fetched h st new_read = Ok st' →
  state_le st' (G, no_reads) →
  connect_read rsites sreads fetched h (G, no_reads) new_read = Ok (G, no_reads).
Proof.
  unfold connect_read. case_match; [|done].
  apply (for_each_replay (λ _, True)); [| |apply Forall_True].
  - intros s x s' _ Hstep. by eapply grows_state_le, connect_site_grows.
  - intros s x s' _. apply connect_site_replay.
Qed.

(** Replaying a pass on sets that already contain what the pass produced
    assigns nothing. *)
Lemma connect_pass_replay G g new st' :
  connect_pass g rsites sreads new fetched = Ok st' →
  hap_le st'.1 G →
  connect_pass G rsites sreads new fetched = Ok (G, no_reads).
Proof.
  unfold connect_pass.
  apply (for_each_replay (λ _, True) (G, no_reads)); [| |apply Forall_True].
  - intros s entry s' _ Hstep. cbn beta in Hstep.
    eapply (for_each_rel state_le (λ _, True)); [|apply Forall_True|exact Hstep].
    intros s1 x s1' _ Hx. by eapply grows_state_le, connect_read_grows.
  - intros s entry s' _ Hstep. cbn beta in Hstep.
    revert Hstep. apply (for_each_replay (λ _, True)); [| |apply Forall_True].
    + intros s1 x s1' _ Hx. by eapply grows_state_le, connect_read_grows.
    + intros s1 x s1' _. apply connect_read_replay.
Qed.
End ClosureRuns.

(** The names of the fetched pairs: the keys of [fetched_reads]. *)
Definition fetched_names (fetched : dict string (AlignedSegment * AlignedSegment))
    : gset string :=
  list_to_set (dict_keys fetched).

(** Every name assigned between [st] and [st'] names a fetched pair. *)
Definition within_fetched (fetched : dict string (AlignedSegment * AlignedSegment))
    (st st' : conn_state) : Prop :=
  assigned st'.1 ⊆ assigned st.1 ∪ fetched_names fetched.

#[local] Instance within_fetched_preorder fetched : PreOrder (within_fetched fetched).
Proof.
  unfold within_fetched. split.
  - intros st. set_solver.
  - intros s1 s2 s3 H12 H23. set_solver.
Qed.

Section ClosureFetched.
Context (fetched : dict string (AlignedSegment * AlignedSegment)).
Context (rsites : dict string (list HetSite)) (sreads : dict Z (list string)).

Lemma connect_site_read_fetched h site fa nfa st name st' :
  connect_site_read fetched h site fa nfa st name = Ok st' →
  within_fetched fetched st st'.
Proof.
  unfold connect_site_read. case_match; [|by intros [= <-]].
  unfold subscript. destruct (dict_get name fetched) as [rm|] eqn:Hget; [|done].
  apply dict_get_Some_key in Hget. cbn [expect mbind result_bind].
  destruct (get_allele_at _ _ _) as [[allele|]|]; cbn [mbind result_bind];
    [|by intros [= <-]|done].
  repeat case_match; intros [= <-]; try done;
    unfold within_fetched, fetched_names; rewrite assigned_assign; set_solver.
Qed.

Lemma connect_site_fetched h readname found st site st' :
  connect_site sreads fetched h readname found st site = Ok st' →
  within_fetched fetched st st'.
Proof.
  unfold connect_site. case_match; [by intros [= <-]|].
  destruct (subscript fetched readname) as [rm|]; [|done]. cbn [mbind result_bind].
  destruct (get_allele_at _ _ _) as [[fa|]|]; cbn [mbind result_bind];
    [|by intros [= <-]|done].
  destruct (if str_truthy fa then _ else _) as [nfa|]; [|by intros [= <-]].
  case_match; [by intros [= <-]|].
  destruct (subscript sreads (pos site)) as [names|]; [|done].
  cbn [mbind result_bind]. intros Hrun.
  eapply (for_each_rel (within_fetched fetched) (λ _, True));
    [|apply Forall_True|exact Hrun].
  intros s x s' _. apply connect_site_read_fetched.
Qed.

Lemma connect_read_fetched h st new_read st' :
  connect_read rsites sreads fetched h st new_read = Ok st' →
  within_fetched fetched st st'.
Proof.
  unfold connect_read. case_match; [|by intros [= <-]].
  intros Hrun.
  eapply (for_each_rel (within_fetched fetched) (λ _, True));
    [|apply Forall_True|exact Hrun].
  intros s x s' _. apply connect_site_fetched.
Qed.

Lemma connect_pass_fetched g new st' :
  connect_pass g rsites sreads new fetched = Ok st' →
  assigned st'.1 ⊆ assigned g ∪ fetched_names fetched.
Proof.
  unfold connect_pass. intros Hrun.
  apply (for_each_rel (within_fetched fetched) (λ _, True)) in Hrun;
    [exact Hrun| |apply Forall_True].
  intros s entry s' _ Hentry. cbn beta in Hentry.
  eapply (for_each_rel (within_fetched fetched) (λ _, True));
    [|apply Forall_True|exact Hentry].
  intros s1 x s1' _. apply connect_read_fetched.
Qed.

(** Whatever a finished closure added names a fetched pair. *)
Lemma connect_reads_fetched fuel g new g' :
  connect_reads fuel g rsites sreads new fetched = Some (Ok g') →
  assigned g' ⊆ assigned g ∪ fetched_names fetched.
Proof.
  revert g new. induction fuel as [|fuel IH]; intros g new Hrun; [done|].
  cbn [connect_reads] in Hrun.
  destruct (connect_pass g rsites sreads new fetched) as [[g1 rta]|] eqn:Hpass;
    [|done].
  apply connect_pass_fetched in Hpass. cbn [fst] in Hpass.
  destruct (0 <? _)%nat.
  - apply IH in Hrun. set_solver.
  - by injection Hrun as <-.
Qed.
End ClosureFetched.

(** The sets a finished closure returns are a fixed point of it. *)
Lemma connect_reads_fixed_point fetched rsites sreads fuel g new g' :
  connect_reads fuel g rsites sreads new fetched = Some (Ok g') →
  ∀ fuel', (0 < fuel')%nat →
    connect_reads fuel' g' rsites sreads new fetched = Some (Ok g').
Proof.
  intros Hrun fuel' Hfuel'. destruct fuel as [|fuel]; [done|].
  cbn [connect_reads] in Hrun.
  destruct (connect_pass g rsites sreads new fetched) as [[g1 rta]|] eqn:Hpass;
    [|done].
  assert (hap_le g1 g') as Hle.
  { destruct (0 <? _)%nat.
    - by apply connect_reads_grows in Hrun as [? _].
    - by injection Hrun as <-. }
  apply (connect_pass_replay _ _ _ g') in Hpass; [|done].
  destruct fuel' as [|fuel']; [lia|]. cbn [connect_reads]. by rewrite Hpass.
Qed.

(** C7.  The closure terminates: with fuel above the number of names of
    [site_reads] that are in neither set, [connect_reads] returns, and more
    fuel changes nothing.  When it returns sets, both input sets are
    included in the output sets (an assigned name stays where it is), the
    new names are names of [site_reads] that are keys of [fetched_reads],
    and running it again on its output returns that output (idempotence).
    In every call the queued reads are distinct names that were unassigned
    when the call began, so a name passes from unassigned to assigned at
    most once, and a call that queues nothing ends the recursion. *)
Theorem connect_reads_terminates fetched rsites sreads g new :
  let bound := S (size (site_read_names sreads ∖ assigned g)) in
  (∃ r, ∀ fuel, (bound ≤ fuel)%nat →
     connect_reads fuel g rsites sreads new fetched = Some r)
  ∧ (∀ fuel g', connect_reads fuel g rsites sreads new fetched = Some (Ok g') →
       hap_le g g'
       ∧ assigned g' ⊆ assigned g ∪ (site_read_names sreads ∩ fetched_names fetched)
       ∧ ∀ fuel', (0 < fuel')%nat →
           connect_reads fuel' g' rsites sreads new fetched = Some (Ok g'))
  ∧ (∀ g1 reads_to_add,
       connect_pass g rsites sreads new fetched = Ok (g1, reads_to_add) →
       NoDup (added reads_to_add)
       ∧ (∀ x, x ∈ added reads_to_add → x ∉ assigned g)
       ∧ assigned g1 = assigned g ∪ list_to_set (added reads_to_add)
       ∧ (added reads_to_add = [] →
          ∀ fuel, connect_reads (S fuel) g rsites sreads new fetched = Some (Ok g1))).
Proof.
  intros bound. split_and!.
  - destruct (connect_reads_enough_fuel fetched rsites sreads
                (size (site_read_names sreads ∖ assigned g)) bound g new)
      as [r Hr]; [done | unfold bound; lia |].
    exists r. intros fuel Hfuel. by eapply connect_reads_fuel_mono.
  - intros fuel g' Hrun. split_and!.
    + by apply connect_reads_grows in Hrun as (? & _).
    + pose proof (connect_reads_fetched _ _ _ _ _ _ _ Hrun).
      apply connect_reads_grows in Hrun as (_ & ? & _). set_solver.
    + by eapply connect_reads_fixed_point.
  - intros g1 rta Hpass.
    destruct (grows_added _ _ _ (connect_pass_grows _ _ _ _ _ _ Hpass))
      as (names & Hperm & Hnd & Hnew & Has).
    cbn in Hperm, Hnew, Has. rewrite app_nil_r in Hperm. split_and!.
    + by rewrite Hperm.
    + intros x Hx. rewrite Hperm in Hx. by apply Hnew.
    + rewrite Has. f_equal. apply set_eq. intros x.
      by rewrite !elem_of_list_to_set, Hperm.
    + intros Hnil fuel. cbn [connect_reads]. rewrite Hpass.
      unfold added in Hnil. apply app_eq_nil in Hnil as [Ha Hr].
      apply fmap_nil_inv in Ha, Hr. by rewrite Ha, Hr.
Qed.

(** The step that mutates [grouped_readsets] keeps the two sets disjoint. *)
Lemma connect_site_read_disjoint fetched h site fa nfa st name st' :
  on_alt st.1 ## on_ref st.1 →
  connect_site_read fetched h site fa nfa st name = Ok st' →
  on_alt st'.1 ## on_ref st'.1.
Proof.
  intros Hdis Hrun.
  eapply (grows_disjoint [(pos site, [name])]); [|exact Hdis].
  eapply connect_site_read_grows; [|exact Hrun].
  unfold site_read_names. cbn. set_solver.
Qed.

(** ** A small alignment file

    A DNM [1:15 C>T] and two het sites, [h1 = 10 A/G] and [h2 = 20 C/T].
    Read [s] carries the DNM and [G], [T] at the sites; read [r] carries
    the reference allele at the DNM and [A], [C] at the sites; read [b]
    covers [h2] only and carries [C].  Every read has a mate further down
    that covers none of the three positions, and the mate of that mate is
    the read. *)

Definition site_h1 : HetSite := {| pos := 10; ref_allele := "A"; alt_allele := "G" |}.
Definition site_h2 : HetSite := {| pos := 20; ref_allele := "C"; alt_allele := "T" |}.

Definition read_at (name : string) (positions : list (option Z)) (bases : string)
    : AlignedSegment :=
  {| query_name := name; is_qcfail := false; is_unmapped := false;
     is_duplicate := false; mapping_quality := 60; is_secondary := false;
     is_supplementary := false; mate_is_unmapped := false;
     next_reference_id := 0; reference_id := 0;
     reference_start := 5; reference_end := 25; tlen := 400;
     reference_positions := positions; query_sequence := bases; has_SA := false |}.

Definition mate_of (read : AlignedSegment) : AlignedSegment :=
  {| query_name := query_name read; is_qcfail := false; is_unmapped := false;
     is_duplicate := false; mapping_quality := 60; is_secondary := false;
     is_supplementary := false; mate_is_unmapped := false;
     next_reference_id := 0; reference_id := 0;
     reference_start := 300; reference_end := 320; tlen := -400;
     reference_positions := [Some 300]; query_sequence := "N"; has_SA := false |}.

Definition read_s : AlignedSegment := read_at "s" [Some 10; Some 15; Some 20] "GTT".
Definition read_r : AlignedSegment := read_at "r" [Some 10; Some 15; Some 20] "ACC".
Definition read_b : AlignedSegment := read_at "b" [Some 20] "C".

Definition small_bam : AlignmentFile :=
  {| alignments := [read_s; read_r; read_b];
     fetch := λ _ lo _,
       match lo with
       | PyInt 10 | PyInt 14 => Some [read_s; read_r]
       | PyInt 20 => Some [read_s; read_r; read_b]
       | _ => Some []
       end;
     mate := λ read,
       if reference_start read =? 300 then
         List.find (λ r, String.eqb (query_name r) (query_name read))
           [read_s; read_r; read_b]
       else Some (mate_of read) |}.

Definition small_dnm : DNM := kid_dnm "1" 15 16.

(** An instance of the search for the het sites that a read spans. *)
Definition spanned_sites (lo hi : Z) (het_sites : list HetSite) : list HetSite :=
  List.filter (λ h, (lo <=? pos h) && (pos h <=? hi)) het_sites.

(** An instance of the percentile: the largest value. *)
Definition largest_value (a : list Z) (q : float) : result float :=
  Ok (float_of_Z (foldr Z.max 0 a)).

(** ** The two haplotype sets *)

(** C6.  The two name sets of the grouper are disjoint.  (i) The sets
    that [group_reads_by_haplotype] gets back from the closure, and from
    which it builds its two output lists, are disjoint, whatever the seed
    reads, the het sites and the fetched pairs.  (ii) Disjointness is
    invariant during the closure: from disjoint sets, the one step that adds
    a name ([connect_site_read]), a whole call up to the recursion
    ([connect_pass], on any work list) and the whole recursion
    ([connect_reads]) end in disjoint sets. *)
Theorem grouped_readsets_disjoint
    (binary_search : Z → Z → list HetSite → list HetSite)
    fuel bamfile region grouped_reads het_sites :
  (∀ ix connected_reads,
     connected_reads_of binary_search fuel bamfile region grouped_reads het_sites
     = Some (Ok (ix, connected_reads)) →
     on_alt connected_reads ## on_ref connected_reads)
  ∧ (∀ fetched rsites sreads g new,
       on_alt g ## on_ref g →
       (∀ h site fa nfa reads_to_add name st',
          connect_site_read fetched h site fa nfa (g, reads_to_add) name = Ok st' →
          on_alt st'.1 ## on_ref st'.1)
       ∧ (∀ st', connect_pass g rsites sreads new fetched = Ok st' →
                 on_alt st'.1 ## on_ref st'.1)
       ∧ (∀ fuel g', connect_reads fuel g rsites sreads new fetched = Some (Ok g') →
                     on_alt g' ## on_ref g')).
Proof.
  split.
  - intros ix connected. unfold connected_reads_of.
    destruct (_ ≫= _) as [sd|]; [|done].
    destruct (connect_reads _ _ _ _ _ _) as [[g'|]|] eqn:Hrun; [|done|done].
    intros [= <- <-]. apply connect_reads_grows in Hrun as (_ & _ & Hdis).
    apply Hdis. cbn. set_solver.
  - intros fetched rsites sreads g new Hdis. split_and!.
    + intros h site fa nfa rta name st'.
      by apply connect_site_read_disjoint.
    + intros st' Hpass.
      by apply (grows_disjoint _ _ _ (connect_pass_grows _ _ _ _ _ _ Hpass)).
    + intros fuel' g' Hrun.
      apply connect_reads_grows in Hrun as (_ & _ & Hdis'). auto.
Qed.

(** On the small alignment file, seeded with read [s] and its mate, the
    closure puts [s] in [alt] and [r], [b] in [ref]. *)
Lemma grouped_readsets_disjoint_witness :
  ∃ ix connected_reads,
    connected_reads_of spanned_sites 3 small_bam small_dnm
      {| on_alt := [read_s; mate_of read_s]; on_ref := [] |} [site_h1; site_h2]
    = Some (Ok (ix, connected_reads))
    ∧ elements (on_alt connected_reads) = ["s"]
    ∧ elements (on_ref connected_reads) ≡ₚ ["r"; "b"]
    ∧ on_alt connected_reads ## on_ref connected_reads.
Proof.
  eexists _, _. split; [vm_compute; reflexivity|]. split_and!.
  - vm_compute. reflexivity.
  - vm_compute. first [reflexivity | apply perm_swap].
  - eapply (proj1 (grouped_readsets_disjoint spanned_sites 3 small_bam small_dnm
                     {| on_alt := [read_s; mate_of read_s]; on_ref := [] |}
                     [site_h1; site_h2])).
    vm_compute. reflexivity.
Defined.

(** ** The collectors without extended grouping *)

(** The pairs of a fetched region that the SNV collector looks at: a good
    read with a good mate, neither with more than five unaligned bases. *)
Definition usable_pairs (bamfile : AlignmentFile) (bam_iter : list AlignedSegment)
    : list (AlignedSegment * AlignedSegment) :=
  omap (λ read,
          if goodread read then
            match mate bamfile read with
            | Some mate =>
                if goodread mate
                   && negb (5 <? count_none (reference_positions read))
                   && negb (5 <? count_none (reference_positions mate))
                then Some (read, mate) else None
            | None => None
            end
          else None)
       bam_iter.

(** Each pair with the allele it carries at [position]. *)
Definition observed_alleles (position : Z)
    (pairs : list (AlignedSegment * AlignedSegment))
    : result (list (AlignedSegment * AlignedSegment * option string)) :=
  mapM (λ rm, allele ← get_allele_at rm.1 rm.2 position; Ok (rm, allele)) pairs.

(** The side a pair is filed under: [ref] when its allele is the reference
    allele, else [alt] when it is the alternate allele. *)
Definition side_of (ref alt : string) (allele : option string) : option haplotype :=
  if bool_decide (allele = Some ref) then Some Ref
  else if bool_decide (allele = Some alt) then Some Alt
  else None.

(** The reads, each followed by its mate, of the pairs filed under [h]. *)
Definition supporting (h : haplotype) (ref alt : string)
    (observed : list (AlignedSegment * AlignedSegment * option string))
    : list AlignedSegment :=
  flat_map (λ o, if bool_decide (side_of ref alt o.2 = Some h)
                 then [o.1.1; o.1.2] else [])
           observed.

Lemma snv_read_spec bamfile position ref alt acc read :
  snv_read bamfile position ref alt acc read
  = match usable_pairs bamfile [read] with
    | [] => Ok acc
    | rm :: _ =>
        allele ← get_allele_at rm.1 rm.2 position;
        Ok {| on_alt := on_alt acc ++ supporting Alt ref alt [(rm, allele)];
              on_ref := on_ref acc ++ supporting Ref ref alt [(rm, allele)] |}
    end.
Proof.
  unfold snv_read, usable_pairs. cbn [omap list_omap].
  destruct (goodread read); cbn [negb]; [|done].
  destruct (mate bamfile read) as [m|]; [|done].
  destruct (goodread m); cbn [negb andb]; [|done].
  destruct (5 <? count_none (reference_positions read)); cbn [negb orb andb]; [done|].
  destruct (5 <? count_none (reference_positions m)); cbn [negb orb andb]; [done|].
  cbn [fst snd]. destruct (get_allele_at read m position) as [allele|]; [|done].
  cbn [mbind result_bind]. unfold supporting, side_of. cbn [flat_map fst snd].
  destruct acc as [acc_alt acc_ref].
  destruct (bool_decide (allele = Some ref)); [|destruct (bool_decide (allele = Some alt))];
    cbn; by rewrite ?app_nil_r.
Qed.

Lemma usable_pairs_cons bamfile read bam_iter :
  usable_pairs bamfile (read :: bam_iter)
  = usable_pairs bamfile [read] ++ usable_pairs bamfile bam_iter.
Proof. unfold usable_pairs. cbn [omap list_omap]. by case_match. Qed.

Lemma supporting_cons h ref alt o observed :
  supporting h ref alt (o :: observed)
  = supporting h ref alt [o] ++ supporting h ref alt observed.
Proof. unfold supporting. cbn [flat_map]. by rewrite app_nil_r. Qed.

Lemma snv_loop bamfile position ref alt bam_iter acc :
  for_each (snv_read bamfile position ref alt) bam_iter acc
  = observed ← observed_alleles position (usable_pairs bamfile bam_iter);
    Ok {| on_alt := on_alt acc ++ supporting Alt ref alt observed;
          on_ref := on_ref acc ++ supporting Ref ref alt observed |}.
Proof.
  revert acc. induction bam_iter as [|read bam_iter IH]; intros acc.
  { destruct acc. cbn. by rewrite !app_nil_r. }
  cbn [for_each]. rewrite usable_pairs_cons, snv_read_spec.
  destruct (usable_pairs bamfile [read]) as [|rm pairs] eqn:Hread.
  { cbn [mbind result_bind app]. apply IH. }
  assert (pairs = []) as ->.
  { unfold usable_pairs in Hread. cbn [omap list_omap] in Hread.
    by case_match; simplify_eq. }
  cbn [app]. unfold observed_alleles. cbn [mapM].
  destruct (get_allele_at rm.1 rm.2 position) as [allele|]; cbn [mbind result_bind];
    [|done].
  rewrite IH. fold (observed_alleles position (usable_pairs bamfile bam_iter)).
  destruct (observed_alleles _ _) as [observed|]; cbn [mbind result_bind]; [|done].
  unfold mret, result_ret. cbn [mbind result_bind on_alt on_ref].
  rewrite (supporting_cons Alt _ _ (rm, allele) observed),
    (supporting_cons Ref _ _ (rm, allele) observed).
  by rewrite <- !app_assoc.
Qed.

(** C5, as amended.  With [no_extended] true no grouping closure is
    performed: the result depends neither on the het sites nor on the site
    search nor on the fuel.  The SNV collector returns, of the usable pairs
    fetched at the DNM position, under ["alt"] those that carry the
    alternate allele and under ["ref"] those that carry the reference
    allele (each read followed by its mate), in fetch order; an exception of
    the insert-length estimate, of the fetch or of an allele lookup is the
    caller's.  The SV collector returns its supporting reads under ["alt"]
    and the empty list under ["ref"]. *)
Theorem collect_reads_no_extended np_percentile binary_search fuel bamfile
    region het_sites ref alt concordant_upper_len :
  collect_reads_snv np_percentile binary_search fuel bamfile region het_sites
    ref alt true concordant_upper_len
  = Some (_ ← concordant_or_estimate np_percentile bamfile concordant_upper_len;
          bam_iter ← fetch_retry bamfile (chrom region) (flip_chr (chrom region))
                       (PyInt (start region - 1)) (PyInt (start region + 1))
                       (PyInt (start region)) (PyInt (start region + 1));
          observed ← observed_alleles (start region) (usable_pairs bamfile bam_iter);
          Ok {| on_alt := supporting Alt ref alt observed;
                on_ref := supporting Ref ref alt observed |})
  ∧ collect_reads_sv np_percentile binary_search fuel bamfile region het_sites
      true concordant_upper_len
    = Some (supporting_reads ←
              sv_supporting_reads np_percentile bamfile region concordant_upper_len;
            Ok {| on_alt := supporting_reads; on_ref := [] |}).
Proof.
  split.
  - unfold collect_reads_snv.
    destruct (concordant_or_estimate _ _ _) as [c|]; cbn [mbind result_bind]; [|done].
    destruct (fetch_retry _ _ _ _ _ _ _) as [bam_iter|]; cbn [mbind result_bind];
      [|done].
    rewrite snv_loop. by destruct (observed_alleles _ _).
  - unfold collect_reads_sv. by destruct (sv_supporting_reads _ _ _ _).
Qed.

(** C5 as stated fails for the SNV collector: on the small alignment file,
    with the DNM [1:15 C>T] and [no_extended] true, the ["ref"] list holds
    read [r] and its mate, which carry the reference allele. *)
Lemma collect_reads_snv_ref_not_empty :
  ∃ out,
    collect_reads_snv largest_value spanned_sites 0 small_bam small_dnm
      [site_h1; site_h2] "C" "T" true None = Some (Ok out)
    ∧ on_alt out = [read_s; mate_of read_s]
    ∧ on_ref out = [read_r; mate_of read_r]
    ∧ on_ref out ≠ [].
Proof. eexists. split; [vm_compute; reflexivity|]. by split_and!. Qed.

(** ** The entry point [find] *)

Lemma index_Raise {A} (l : list A) i e : index l i = Raise e → (length l ≤ i)%nat.
Proof.
  unfold index. destruct (l !! i) eqn:Hl; [done|]. intros _.
  by apply lookup_ge_None.
Qed.

Lemma is_Ok_Ok {A} (a : A) : is_Ok (Ok a).
Proof. by exists a. Qed.

(** Every per-sample array of the record has one entry per sample. *)
Definition variant_wf (n : nat) (variant : Variant) : Prop :=
  length (gt_types variant) = n
  ∧ length (gt_ref_depths variant) = n
  ∧ length (gt_alt_depths variant) = n
  ∧ length (gt_quals variant) = n.

(** Each of the four tables has an entry for ["x"] and for ["y"]. *)
Definition par_complete (par : PARTables) : Prop :=
  Forall (λ table : dict string (Z * Z),
            is_Some (dict_get "x" table) ∧ is_Some (dict_get "y" table))
    [grch37_par1 par; grch37_par2 par; grch38_par1 par; grch38_par2 par].

Lemma is_Ok_bind {A B} (m : result A) (k : A → result B) :
  is_Ok m → (∀ a, is_Ok (k a)) → is_Ok (m ≫= k).
Proof. intros [a ->] Hk. apply Hk. Qed.

Lemma index_total {A} (l : list A) i : (i < length l)%nat → is_Ok (index l i).
Proof.
  intros Hi. unfold index. destruct (lookup_lt_is_Some_2 l i Hi) as [x ->].
  apply is_Ok_Ok.
Qed.

Create HintDb total discriminated.
#[local] Hint Resolve is_Ok_Ok index_total : total.
#[local] Hint Extern 3 (_ < _)%nat => cbn in *; lia : total.
#[local] Hint Extern 3 (_ = _ :> nat) => cbn in *; lia : total.

(** Walks down a computation in the exception monad: each call is shown to
    return by a lemma of the [total] database, each test is split. *)
Ltac total :=
  repeat first
    [ apply is_Ok_Ok
    | solve [eauto with total]
    | apply is_Ok_bind; [|intros ?]
    | match goal with
      | |- is_Ok (if ?b then _ else _) => destruct b
      | |- is_Ok (match ?x with _ => _ end) => destruct x
      end ].

Section FindTotal.
Context (par : PARTables) (tun : Tunables).
Context (pedigrees : dict string Pedigree) (build : string).

Lemma is_high_quality_site_total i ref_depths alt_depths genotypes gt_quals :
  (i < length genotypes)%nat → (i < length ref_depths)%nat →
  (i < length alt_depths)%nat → (i < length gt_quals)%nat →
  is_Ok (is_high_quality_site tun i ref_depths alt_depths genotypes gt_quals).
Proof. intros. unfold is_high_quality_site. total. Qed.

Lemma parents_high_quality_total n dad_idx mom_idx variant :
  variant_wf n variant → (dad_idx < n)%nat → (mom_idx < n)%nat →
  is_Ok (parents_high_quality tun dad_idx mom_idx variant).
Proof.
  intros (?&?&?&?) ??. unfold parents_high_quality.
  apply is_Ok_bind; [apply is_high_quality_site_total; lia|].
  intros []; [apply is_high_quality_site_total; lia | apply is_Ok_Ok].
Qed.

Lemma alt_allele_bal_total ref_depths alt_depths i :
  (i < length ref_depths)%nat → (i < length alt_depths)%nat →
  is_Ok (alt_allele_bal ref_depths alt_depths i).
Proof. intros. unfold alt_allele_bal. total. Qed.

Lemma get_kid_allele_total vt genotypes ref_depths alt_depths kid_idx dad_idx mom_idx n :
  length genotypes = n → length ref_depths = n → length alt_depths = n →
  (kid_idx < n)%nat → (dad_idx < n)%nat → (mom_idx < n)%nat →
  is_Ok (get_kid_allele tun vt genotypes ref_depths alt_depths kid_idx dad_idx mom_idx).
Proof.
  intros. unfold get_kid_allele.
  pose proof (alt_allele_bal_total ref_depths alt_depths kid_idx).
  pose proof (alt_allele_bal_total ref_depths alt_depths dad_idx).
  pose proof (alt_allele_bal_total ref_depths alt_depths mom_idx).
  total.
Qed.
End FindTotal.

Lemma for_each_total {A S} (Q : A → Prop) (body : S → A → result S) l st :
  (∀ s x, Q x → is_Ok (body s x)) → Forall Q l → is_Ok (for_each body l st).
Proof.
  intros Hbody Hl. revert st. induction Hl as [|x l Hx _ IH]; intros st.
  - apply is_Ok_Ok.
  - cbn [for_each]. destruct (Hbody st x Hx) as [st' ->]. apply IH.
Qed.

Lemma mapM_total {A B} (P : A → B → Prop) (f : A → result B) l :
  Forall (λ x, ∃ y, f x = Ok y ∧ P x y) l →
  ∃ out, mapM f l = Ok out ∧ Forall2 P l out.
Proof.
  induction 1 as [|x l (y & Hy & HP) _ (out & Hout & IH)].
  - exists []. by split; [|constructor].
  - exists (y :: out). cbn [mapM]. rewrite Hy, Hout. by split; [|constructor].
Qed.

Lemma sample_dict_of_bound vcf name i :
  dict_get name (sample_dict_of vcf) = Some i → (i < length (samples vcf))%nat.
Proof.
  unfold sample_dict_of.
  set (n := length (samples vcf)).
  assert (Forall (λ si : string * nat, (si.2 < n)%nat)
            (zip (samples vcf) (seq 0 n))) as Hzip.
  { apply Forall_forall. intros [s j] Hin. apply elem_of_zip_r in Hin.
    apply elem_of_seq in Hin. cbn. lia. }
  assert (∀ name i, dict_get name ([] : dict string nat) = Some i → (i < n)%nat)
    as Hd by done.
  revert Hd. generalize ([] : dict string nat). revert name i.
  induction Hzip as [|[s j] l Hj _ IH]; intros name i d Hd; cbn [fold_left].
  - apply Hd.
  - apply IH. intros name' i'. cbn [fst snd]. rewrite dict_get_set.
    case_decide; [|apply Hd]. intros [= <-]. exact Hj.
Qed.

(** What [find] does to one record: it leaves it as it is, or sets both
    site lists. *)
Definition annotates (denovo out : DNM) : Prop :=
  out = denovo ∨ ∃ cs hs, out = set_sites denovo (Some cs) (Some hs).

Section FindReturns.
Context (par : PARTables) (tun : Tunables).
Context (pedigrees : dict string Pedigree) (build : string).

Lemma informative_site_total n whole_region denovo variant
    kid_idx dad_idx mom_idx dad mom :
  variant_wf n variant →
  (0 < length (ALT variant))%nat →
  (kid_idx < n)%nat → (dad_idx < n)%nat → (mom_idx < n)%nat →
  is_Ok (informative_site tun whole_region denovo variant
           kid_idx dad_idx mom_idx dad mom).
Proof.
  intros Hwf HALT Hk Hd Hm. pose proof Hwf as (Hg & Hr & Ha & Hq).
  pose proof (parents_high_quality_total tun n dad_idx mom_idx variant Hwf Hd Hm).
  pose proof (is_high_quality_site_total tun kid_idx (gt_ref_depths variant)
                (gt_alt_depths variant) (gt_types variant) (gt_quals variant)).
  pose proof (λ vt, get_kid_allele_total tun vt (gt_types variant)
                      (gt_ref_depths variant) (gt_alt_depths variant)
                      kid_idx dad_idx mom_idx n Hg Hr Ha Hk Hd Hm).
  unfold informative_site. total.
Qed.

Lemma subscript_total {K V} `{EqDecision K} (d : dict K V) k :
  is_Some (dict_get k d) → is_Ok (subscript d k).
Proof. intros [v Hv]. unfold subscript. rewrite Hv. apply is_Ok_Ok. Qed.

Lemma autophaseable_total denovo :
  par_complete par →
  is_Some (dict_get (kid denovo) pedigrees) →
  is_Ok (autophaseable par pedigrees build denovo).
Proof.
  intros Hpar Hped. unfold autophaseable.
  destruct (bool_decide _) eqn:Hchrom; cbn [negb]; [|apply is_Ok_Ok].
  apply bool_decide_eq_true in Hchrom.
  apply is_Ok_bind; [by apply subscript_total|]. intros ped.
  destruct (negb _); [apply is_Ok_Ok|].
  unfold par_complete in Hpar. rewrite !Forall_cons in Hpar.
  destruct Hpar as (H1 & H2 & H3 & H4 & _).
  assert (∀ table : dict string (Z * Z),
            is_Some (dict_get "x" table) ∧ is_Some (dict_get "y" table) →
            is_Ok (subscript table (strip "chr" (lower (chrom denovo))))) as Hsub.
  { intros table [Hx Hy]. apply subscript_total.
    apply elem_of_cons in Hchrom as [->|Hchrom];
      [|apply list_elem_of_singleton in Hchrom as ->]; done. }
  unfold par_tables.
  destruct (String.eqb build "37"); [|destruct (String.eqb build "38")];
    [| |apply is_Ok_Ok].
  - pose proof (Hsub _ H1). pose proof (Hsub _ H2). total.
  - pose proof (Hsub _ H3). pose proof (Hsub _ H4). total.
Qed.

Lemma is_complex_false_ALT variant :
  is_complex variant = false → (0 < length (ALT variant))%nat.
Proof.
  unfold is_complex. intros [[H1 _]%orb_false_elim _]%orb_false_elim.
  apply negb_false_iff, Nat.eqb_eq in H1. lia.
Qed.

Lemma find_variant_total n whole_region denovo ped kid_idx dad_idx mom_idx acc variant :
  variant_wf n variant →
  (kid_idx < n)%nat → (dad_idx < n)%nat → (mom_idx < n)%nat →
  is_Ok (find_variant tun whole_region denovo ped kid_idx dad_idx mom_idx acc variant).
Proof.
  intros Hwf Hk Hd Hm. unfold find_variant.
  destruct (is_complex variant) eqn:Hc; [apply is_Ok_Ok|].
  destruct (_ && _); [apply is_Ok_Ok|].
  destruct (inside_small_event _ _); [apply is_Ok_Ok|].
  destruct (informative_site_total n whole_region denovo variant kid_idx dad_idx
              mom_idx (dad ped) (mom ped)) as [[het cand] ->];
    auto using is_complex_false_ALT.
  apply is_Ok_Ok.
Qed.

Lemma get_position_wf n vcf denovo extra whole_region :
  Forall (variant_wf n) (records vcf) →
  Forall (variant_wf n) (get_position vcf denovo extra whole_region).
Proof.
  intros Hwf.
  assert (∀ name lo hi, Forall (variant_wf n) (region vcf name lo hi)) as Hregion.
  { intros name lo hi. apply Forall_forall. intros v Hv.
    apply list_elem_of_In, filter_In in Hv as [Hv _].
    rewrite Forall_forall in Hwf. by apply Hwf, list_elem_of_In. }
  unfold get_position. destruct whole_region; [apply Hregion|].
  apply Forall_app. split; [apply Hregion|]. case_match; [apply Hregion|constructor].
Qed.

Lemma find_denovo_returns vcf search_dist whole_region denovo :
  par_complete par →
  is_Some (dict_get (kid denovo) pedigrees) →
  Forall (variant_wf (length (samples vcf))) (records vcf) →
  ∃ out, find_denovo par tun pedigrees build vcf search_dist whole_region denovo
         = Ok out
         ∧ annotates denovo out.
Proof.
  intros Hpar Hped Hwf. unfold find_denovo.
  destruct (autophaseable_total denovo Hpar Hped) as [auto ->].
  cbn [mbind result_bind]. destruct auto; [exists denovo; split; [done|by left]|].
  destruct Hped as [ped Hped]. unfold subscript. rewrite Hped.
  cbn [expect mbind result_bind]. fold (sample_dict_of vcf).
  destruct (dict_get (kid denovo) (sample_dict_of vcf)) as [kid_idx|] eqn:Hk;
    [|exists denovo; split; [by repeat case_match|by left]].
  destruct (dict_get (dad ped) (sample_dict_of vcf)) as [dad_idx|] eqn:Hd;
    [|exists denovo; split; [by repeat case_match|by left]].
  destruct (dict_get (mom ped) (sample_dict_of vcf)) as [mom_idx|] eqn:Hm;
    [|exists denovo; split; [by repeat case_match|by left]].
  apply sample_dict_of_bound in Hk, Hd, Hm.
  edestruct (for_each_total (variant_wf (length (samples vcf)))
               (find_variant tun whole_region denovo ped kid_idx dad_idx mom_idx))
    as [[cs hs] ->]; [|by apply get_position_wf|].
  { intros s x Hx. by eapply find_variant_total. }
  cbn [mbind result_bind]. eexists. split; [done|]. right. by eexists _, _.
Qed.
End FindReturns.

(** ** The batched scan *)

(** [vars_by_sample[k][c][p]], empty when a level is missing. *)
Definition slot (vbs : dict string (dict string (dict Z (list DNM))))
    (k c : string) (p : Z) : list DNM :=
  default [] (by_chrom ← dict_get k vbs; by_pos ← dict_get c by_chrom;
              dict_get p by_pos).

(** [samples_by_location[c][p]], empty when a level is missing. *)
Definition close_samples_at (sbl : dict string (dict Z (list string)))
    (c : string) (p : Z) : list string :=
  default [] (locs ← dict_get c sbl; dict_get p locs).

(** Every record filed under a start position starts there. *)
Definition vbs_keyed (vbs : dict string (dict string (dict Z (list DNM)))) : Prop :=
  ∀ k c p d, d ∈ slot vbs k c p → start d = p.

(** The position keys of each chromosome of the index are distinct. *)
Definition sbl_wf (sbl : dict string (dict Z (list string))) : Prop :=
  ∀ c locs, dict_get c sbl = Some locs → NoDup (dict_keys locs).

(** The site lists of a record, empty when the key is absent. *)
Definition cands (d : DNM) : list Candidate := default [] (candidate_sites d).
Definition hets (d : DNM) : list HetSite := default [] (het_sites d).

(** [d'] is [d] with [newc] appended to its candidate sites and [newh] to
    its het sites. *)
Definition extends_sites (d d' : DNM) (newc : list Candidate) (newh : list HetSite)
    : Prop :=
  chrom d' = chrom d ∧ start d' = start d ∧ end_ d' = end_ d ∧ kid d' = kid d
  ∧ vartype d' = vartype d
  ∧ cands d' = cands d ++ newc ∧ hets d' = hets d ++ newh.

Lemma slot_update vbs k c p l by_chrom by_pos k' c' p' :
  dict_get k vbs = Some by_chrom →
  dict_get c by_chrom = Some by_pos →
  slot (dict_set k (dict_set c (dict_set p l by_pos) by_chrom) vbs) k' c' p'
  = if decide ((k', c', p') = (k, c, p)) then l else slot vbs k' c' p'.
Proof.
  intros Hk Hc. unfold slot. rewrite dict_get_set.
  destruct (decide (k' = k)) as [->|]; cbn; [|by case_decide; simplify_eq].
  rewrite Hk. cbn. rewrite dict_get_set.
  destruct (decide (c' = c)) as [->|]; cbn; [|by case_decide; simplify_eq].
  rewrite Hc. cbn. rewrite dict_get_set.
  destruct (decide (p' = p)) as [->|]; cbn; by case_decide; simplify_eq.
Qed.

Section BatchScan.
Context (par : PARTables) (tun : Tunables).
Context (pedigrees : dict string Pedigree) (build : string).

(** A site that [informative_site] returns records the variant's start. *)
Lemma informative_site_pos whole_region denovo variant kid_idx dad_idx mom_idx
    dad mom het cand :
  informative_site tun whole_region denovo variant kid_idx dad_idx mom_idx dad mom
  = Ok (het, cand) →
  (∀ h, het = Some h → pos h = v_start variant)
  ∧ (∀ c, cand = Some c → c_pos c = v_start variant).
Proof.
  unfold informative_site. intros Hrun.
  repeat match type of Hrun with
         | (?m ≫= _) = Ok _ =>
             let E := fresh "E" in
             destruct m eqn:E; cbn [mbind result_bind] in Hrun; [|done]
         | (match ?x with _ => _ end) = Ok _ => destruct x
         | (if ?b then _ else _) = Ok _ => destruct b
         end;
    simplify_eq; split; intros ? ?; repeat case_match; by simplify_eq.
Qed.

Lemma set_sites_same d : set_sites d (candidate_sites d) (het_sites d) = d.
Proof. by destruct d. Qed.

(** What one evaluation does to a record: at most one new candidate and at
    most one new het site, each at the variant's start. *)
Lemma add_variant_to_effect variant whole_region kid_idx dad_idx mom_idx dad mom d d' :
  add_variant_to par tun pedigrees build variant whole_region
    kid_idx dad_idx mom_idx dad mom d = Ok d' →
  ∃ newc newh,
    extends_sites d d' newc newh
    ∧ sublist (c_pos <$> newc) [v_start variant]
    ∧ sublist (pos <$> newh) [v_start variant].
Proof.
  unfold add_variant_to. intros Hrun.
  assert (∃ newc newh, extends_sites d d newc newh
            ∧ sublist (c_pos <$> newc) [v_start variant]
            ∧ sublist (pos <$> newh) [v_start variant]) as Hsame.
  { exists [], []. unfold extends_sites. rewrite !app_nil_r.
    split_and!; try done; apply sublist_nil_l. }
  destruct (autophaseable _ _ _ _) as [[]|]; cbn [mbind result_bind] in Hrun;
    [by simplify_eq| |done].
  destruct (inside_small_event _ _); [by simplify_eq|].
  destruct (informative_site _ _ _ _ _ _ _ _ _) as [[het cand]|] eqn:Hsite;
    cbn [mbind result_bind] in Hrun; [|done].
  apply informative_site_pos in Hsite as [Hhet Hcand]. simplify_eq.
  exists (option_list cand), (option_list het). unfold extends_sites, cands, hets.
  destruct d as [? ? ? ? ? cs hs]. cbn.
  destruct cand as [c|], het as [h|]; cbn; rewrite ?app_nil_r;
    rewrite ?(Hcand _ eq_refl), ?(Hhet _ eq_refl);
    split_and!; try done; try apply sublist_nil_l; by destruct cs, hs.
Qed.
End BatchScan.

(** How often [t] occurs in a list. *)
Definition occurrences {T} `{EqDecision T} (t : T) (l : list T) : nat :=
  length (filter (λ x, x = t) l).

Arguments occurrences : simpl never.

Lemma occurrences_app {T} `{EqDecision T} (t : T) l1 l2 :
  occurrences t (l1 ++ l2) = (occurrences t l1 + occurrences t l2)%nat.
Proof. unfold occurrences. by rewrite filter_app, length_app. Qed.

Lemma occurrences_cons {T} `{EqDecision T} (t x : T) l :
  occurrences t (x :: l)
  = ((if decide (x = t) then 1 else 0) + occurrences t l)%nat.
Proof. unfold occurrences. rewrite filter_cons. by case_decide. Qed.

Lemma occurrences_none {T} `{EqDecision T} (t : T) l :
  t ∉ l → occurrences t l = 0%nat.
Proof.
  induction l as [|x l IH]; [done|]. rewrite not_elem_of_cons, occurrences_cons.
  intros [? ?]. case_decide; [by subst|]. by rewrite IH.
Qed.

(** An element that occurs at most once splits the list around it. *)
Lemma occurrences_le_1 {T} `{EqDecision T} (t : T) l :
  (occurrences t l ≤ 1)%nat →
  t ∉ l ∨ ∃ l1 l2, l = l1 ++ t :: l2 ∧ (t ∉ l1) ∧ (t ∉ l2).
Proof.
  induction l as [|x l IH]; [left; apply not_elem_of_nil|].
  rewrite occurrences_cons. case_decide as Hx; intros Hle.
  - subst x. right. exists [], l. split_and!; [done|apply not_elem_of_nil|].
    destruct (decide (t ∈ l)) as [Hin|]; [|done]. exfalso.
    apply list_elem_of_split in Hin as (l1 & l2 & ->).
    rewrite occurrences_app, occurrences_cons in Hle. case_decide; [lia|done].
  - destruct IH as [Hnot|(l1 & l2 & -> & H1 & H2)]; [lia| |].
    + left. by apply not_elem_of_cons.
    + right. exists (x :: l1), l2. split_and!; [done| |done].
      apply not_elem_of_cons. by split; [congruence|].
Qed.

Lemma dict_get_not_key {K V} `{EqDecision K} (k : K) (d : dict K V) :
  k ∉ dict_keys d → dict_get k d = None.
Proof.
  induction d as [|[k0 v0] d IH]; [done|]. cbn.
  intros [? ?]%not_elem_of_cons. case_decide; [done|]. auto.
Qed.

(** Counting in the concatenation of what the entries of a dictionary
    yield, when each entry yields only elements that carry its own key. *)
Lemma occurrences_flat_map_keyed {V T} `{EqDecision T}
    (f : Z * V → list T) (key_of : T → Z) (t : T) (locs : dict Z V) :
  NoDup (dict_keys locs) →
  (∀ loc x, x ∈ f loc → key_of x = loc.1) →
  occurrences t (flat_map f locs)
  = match dict_get (key_of t) locs with
    | Some v => occurrences t (f (key_of t, v))
    | None => 0%nat
    end.
Proof.
  intros Hnd Hkey. induction locs as [|[p v] locs IH]; [done|].
  cbn [flat_map dict_get]. rewrite occurrences_app.
  cbn in Hnd. apply NoDup_cons in Hnd as [Hp Hnd]. specialize (IH Hnd).
  case_decide as Hpt.
  - rewrite IH, Hpt, dict_get_not_key by done. lia.
  - rewrite IH, occurrences_none; [done|]. intros Hin%Hkey. cbn in Hin. congruence.
Qed.

Lemma length_omap_le {A B} (f : A → option B) l :
  (length (omap f l) ≤ length l)%nat.
Proof. induction l as [|x l IH]; cbn; [done|]. destruct (f x); cbn; lia. Qed.

Section CloseVars.
Context (sbl : dict string (dict Z (list string))).
Context (vbs : dict string (dict string (dict Z (list DNM)))).
Context (search_dist : Z).

(** The key a record contributes in whole-region mode, if it is in range. *)
Definition key_in_range (close_sample chrom : string) (pos : Z) (denovo : DNM)
    : option dn_key :=
  if (start denovo - search_dist <=? pos) && (pos <=? end_ denovo + search_dist)
  then Some (close_sample, chrom, start denovo) else None.

(** The keys of one position of the index, in either mode. *)
Definition keys_at (whole_region : bool) (chrom : string) (pos : Z)
    (loc : Z * list string) : list dn_key :=
  if whole_region then
    flat_map (λ s, omap (key_in_range s chrom pos) (slot vbs s chrom loc.1)) loc.2
  else if (loc.1 - search_dist <=? pos) && (pos <=? loc.1 + search_dist)
  then map (λ s, (s, chrom, loc.1)) loc.2
  else [].

Lemma close_keys_of_sample_spec chrom pos dn_loc keys0 s keys :
  close_keys_of_sample vbs chrom pos search_dist dn_loc keys0 s = Ok keys →
  keys = keys0 ++ omap (key_in_range s chrom pos) (slot vbs s chrom dn_loc).
Proof.
  unfold close_keys_of_sample, subscript, slot.
  destruct (dict_get s vbs) as [by_chrom|]; cbn; [|done].
  destruct (dict_get chrom by_chrom) as [by_pos|]; cbn; [|done].
  destruct (dict_get dn_loc by_pos) as [denovos|]; cbn; [|done].
  by intros [= <-].
Qed.

Lemma close_keys_of_samples_spec chrom pos dn_loc samples keys0 keys :
  for_each (close_keys_of_sample vbs chrom pos search_dist dn_loc) samples keys0
  = Ok keys →
  keys = keys0 ++ flat_map (λ s, omap (key_in_range s chrom pos)
                                   (slot vbs s chrom dn_loc)) samples.
Proof.
  revert keys0. induction samples as [|s samples IH]; intros keys0; cbn [for_each].
  - intros [= <-]. by rewrite app_nil_r.
  - destruct (close_keys_of_sample _ _ _ _ _ _ _) as [keys1|] eqn:Hs; [|done].
    cbn [mbind result_bind]. intros Hrest%IH.
    apply close_keys_of_sample_spec in Hs. subst. by rewrite <- app_assoc.
Qed.

(** [get_close_vars], when it returns, returns the keys of the positions of
    the chromosome in dictionary order. *)
Lemma get_close_vars_spec chrom pos whole_region keys :
  get_close_vars chrom pos sbl vbs search_dist whole_region = Ok keys →
  keys = flat_map (keys_at whole_region chrom pos) (default [] (dict_get chrom sbl)).
Proof.
  unfold get_close_vars. destruct (dict_get chrom sbl) as [locs|]; cbn;
    [|by intros [= <-]].
  destruct whole_region; cbn [negb].
  - assert (∀ keys0,
      for_each (λ keys loc,
                  for_each (close_keys_of_sample vbs chrom pos search_dist loc.1)
                    loc.2 keys) locs keys0 = Ok keys →
      keys = keys0 ++ flat_map (keys_at true chrom pos) locs) as Hloop.
    { clear. induction locs as [|loc locs IH]; intros keys0; cbn [for_each].
      - intros [= <-]. by rewrite app_nil_r.
      - destruct (for_each _ loc.2 keys0) as [keys1|] eqn:Hloc; [|done].
        cbn [mbind result_bind]. intros Hrest%IH.
        apply close_keys_of_samples_spec in Hloc. subst.
        by rewrite <- app_assoc. }
    apply (Hloop []).
  - by intros [= <-].
Qed.

(** A key occurs among the close keys at most as often as its sample is
    listed at its position, times the number of records filed under it in
    whole-region mode. *)
Lemma get_close_vars_occurrences chrom pos whole_region keys k c p :
  sbl_wf sbl → vbs_keyed vbs →
  get_close_vars chrom pos sbl vbs search_dist whole_region = Ok keys →
  (occurrences (k, c, p) keys
   ≤ occurrences k (close_samples_at sbl c p)
     * (if whole_region then length (slot vbs k c p) else 1))%nat.
Proof.
  intros Hsbl Hvbs ->%get_close_vars_spec.
  destruct (decide (chrom = c)) as [->|Hc]; last first.
  { rewrite occurrences_none; [lia|]. intros Hin%list_elem_of_In%in_flat_map.
    destruct Hin as (loc & _ & Hin%list_elem_of_In). unfold keys_at in Hin.
    destruct whole_region.
    - apply list_elem_of_In, in_flat_map in Hin as (s & _ & Hin%list_elem_of_In).
      apply list_elem_of_omap in Hin as (d & _ & Hd). unfold key_in_range in Hd.
      case_match; simplify_eq.
    - case_match; [|by apply elem_of_nil in Hin].
      apply list_elem_of_fmap in Hin as (s & ? & _). simplify_eq. }
  unfold close_samples_at.
  destruct (dict_get c sbl) as [locs|] eqn:Hlocs; cbn; [|by unfold occurrences].
  rewrite (occurrences_flat_map_keyed _ (λ key : dn_key, key.2) (k, c, p));
    [|by eapply Hsbl|]; last first.
  { intros loc x Hx. unfold keys_at in Hx. destruct whole_region.
    - apply list_elem_of_In, in_flat_map in Hx as (s & _ & Hx%list_elem_of_In).
      apply list_elem_of_omap in Hx as (d & Hd & Hx). unfold key_in_range in Hx.
      case_match; simplify_eq. cbn. by eapply Hvbs.
    - case_match; [|by apply elem_of_nil in Hx].
      apply list_elem_of_fmap in Hx as (s & ? & _). by simplify_eq. }
  cbn [snd]. destruct (dict_get p locs) as [samples|]; cbn; [|lia].
  unfold keys_at. cbn [fst snd]. destruct whole_region.
  - induction samples as [|s samples IH]; [done|].
    cbn [flat_map]. rewrite occurrences_app, (occurrences_cons k s).
    case_decide as Hs.
    + subst s. rewrite Nat.mul_add_distr_r, Nat.mul_1_l.
      apply Nat.add_le_mono; [|exact IH].
      unfold occurrences.
      etransitivity; [apply length_filter|]. apply length_omap_le.
    + rewrite occurrences_none; [exact IH|].
      intros (d & _ & Hd)%list_elem_of_omap. unfold key_in_range in Hd.
      case_match; simplify_eq.
  - case_match; [|unfold occurrences; cbn; lia]. rewrite Nat.mul_1_r.
    induction samples as [|s samples IH]; [done|].
    cbn [map]. rewrite !occurrences_cons.
    repeat case_decide; simplify_eq; lia.
Qed.
End CloseVars.

Lemma mapM_Ok_Forall2 {A B} (f : A → result B) l l' :
  mapM f l = Ok l' → Forall2 (λ x y, f x = Ok y) l l'.
Proof.
  revert l'. induction l as [|x l IH]; intros l'; cbn [mapM].
  - intros [= <-]. constructor.
  - destruct (f x) as [y|] eqn:Hx; cbn [mbind result_bind]; [|done].
    destruct (mapM f l) as [ys|]; cbn [mbind result_bind]; [|done].
    intros [= <-]. constructor; auto.
Qed.

Lemma extends_sites_refl d : extends_sites d d [] [].
Proof. unfold extends_sites. by rewrite !app_nil_r. Qed.

Lemma extends_sites_trans d1 d2 d3 c1 c2 h1 h2 :
  extends_sites d1 d2 c1 h1 → extends_sites d2 d3 c2 h2 →
  extends_sites d1 d3 (c1 ++ c2) (h1 ++ h2).
Proof.
  unfold extends_sites. intros (?&?&?&?&?&Hc1&Hh1) (?&?&?&?&?&Hc2&Hh2).
  rewrite Hc2, Hc1, Hh2, Hh1, <- !app_assoc. split_and!; congruence.
Qed.

Section BatchEffects.
Context (par : PARTables) (tun : Tunables).
Context (pedigrees : dict string Pedigree) (build : string).
Context (sbl : dict string (dict Z (list string))).
Context (search_dist : Z) (whole_region : bool) (sample_dict : dict string nat).

(** One call of [add_good_candidate_variant]: other slots are untouched,
    and a record alone in the slot of the key is evaluated once. *)
Lemma add_good_candidate_variant_effect variant vbs key vbs' b :
  add_good_candidate_variant par tun pedigrees build variant vbs key
    whole_region sample_dict = Ok (vbs', b) →
  vbs_keyed vbs →
  vbs_keyed vbs'
  ∧ (∀ k c p, (k, c, p) ≠ key → slot vbs' k c p = slot vbs k c p)
  ∧ (∀ d, slot vbs key.1.1 key.1.2 key.2 = [d] →
       ∃ d' newc newh,
         slot vbs' key.1.1 key.1.2 key.2 = [d']
         ∧ extends_sites d d' newc newh
         ∧ sublist (c_pos <$> newc) [v_start variant]
         ∧ sublist (pos <$> newh) [v_start variant]).
Proof.
  destruct key as [[k c] p]. cbn [fst snd]. intros Hrun Hkeyed.
  assert (vbs_keyed vbs
          ∧ (∀ k' c' p', (k', c', p') ≠ (k, c, p) → slot vbs k' c' p' = slot vbs k' c' p')
          ∧ (∀ d, slot vbs k c p = [d] →
               ∃ d' newc newh,
                 slot vbs k c p = [d'] ∧ extends_sites d d' newc newh
                 ∧ sublist (c_pos <$> newc) [v_start variant]
                 ∧ sublist (pos <$> newh) [v_start variant])) as Hsame.
  { split_and!; [done..|]. intros d Hd. exists d, [], [].
    split_and!; [done|apply extends_sites_refl|apply sublist_nil_l..]. }
  unfold add_good_candidate_variant in Hrun.
  destruct (get_family_indexes _ _ _) as [idx|]; cbn [mbind result_bind] in Hrun;
    [|done].
  destruct (subscript pedigrees k) as [ped|]; cbn [mbind result_bind] in Hrun;
    [|done].
  destruct idx as [[[kid_idx dad_idx] mom_idx]|]; [|by simplify_eq].
  unfold subscript in Hrun.
  destruct (dict_get k vbs) as [by_chrom|] eqn:Hk; cbn in Hrun; [|done].
  destruct (dict_get c by_chrom) as [by_pos|] eqn:Hc; cbn in Hrun; [|done].
  destruct (dict_get p by_pos) as [denovos|] eqn:Hp; [|by simplify_eq].
  destruct (mapM _ denovos) as [denovos'|] eqn:Hmap; cbn in Hrun; [|done].
  injection Hrun as <- <-.
  assert (slot vbs k c p = denovos) as Hslot.
  { unfold slot. rewrite Hk. cbn. rewrite Hc. cbn. by rewrite Hp. }
  apply mapM_Ok_Forall2 in Hmap.
  split_and!.
  - intros k' c' p' d'. rewrite (slot_update _ _ _ _ _ _ _ _ _ _ Hk Hc).
    case_decide as Hkey; [|apply Hkeyed]. injection Hkey as -> -> ->.
    intros Hd'. apply list_elem_of_lookup in Hd' as [i Hi].
    destruct (Forall2_lookup_r _ _ _ _ _ Hmap Hi) as (d & Hd & Hrun).
    apply add_variant_to_effect in Hrun as (newc & newh & (_&->&_) & _).
    apply (Hkeyed k c). rewrite Hslot. by eapply list_elem_of_lookup_2.
  - intros k' c' p' Hne. rewrite (slot_update _ _ _ _ _ _ _ _ _ _ Hk Hc).
    by case_decide.
  - intros d Hd. rewrite Hslot in Hd. rewrite Hd in Hmap.
    apply Forall2_cons_inv_l in Hmap as (d' & rest & Hrun & Hrest & ->).
    apply Forall2_nil_inv_l in Hrest as ->.
    apply add_variant_to_effect in Hrun as (newc & newh & Hext & Hc' & Hh').
    exists d', newc, newh. rewrite (slot_update _ _ _ _ _ _ _ _ _ _ Hk Hc).
    by case_decide.
Qed.

(** The loop over [close_var_keys] as a function of the keys. *)
Definition add_good_loop (variant : Variant) (keys : list dn_key)
    (vbs : dict string (dict string (dict Z (list DNM))))
    : result (dict string (dict string (dict Z (list DNM)))) :=
  for_each
    (λ vbs close_var_key,
       r ← add_good_candidate_variant par tun pedigrees build variant vbs
             close_var_key whole_region sample_dict;
       Ok r.1)
    keys vbs.

Lemma add_good_loop_app variant keys1 keys2 vbs :
  add_good_loop variant (keys1 ++ keys2) vbs
  = vbs1 ← add_good_loop variant keys1 vbs; add_good_loop variant keys2 vbs1.
Proof. apply for_each_app. Qed.

Lemma add_good_loop_cons variant key keys vbs :
  add_good_loop variant (key :: keys) vbs
  = r ← add_good_candidate_variant par tun pedigrees build variant vbs key
          whole_region sample_dict;
    add_good_loop variant keys r.1.
Proof.
  unfold add_good_loop. cbn [for_each].
  by destruct (add_good_candidate_variant _ _ _ _ _ _ _ _ _).
Qed.

Lemma add_good_loop_other variant keys vbs vbs' k c p :
  add_good_loop variant keys vbs = Ok vbs' →
  (k, c, p) ∉ keys →
  vbs_keyed vbs →
  vbs_keyed vbs' ∧ slot vbs' k c p = slot vbs k c p.
Proof.
  revert vbs.
  induction keys as [|key keys IH]; intros vbs.
  - by intros [= <-].
  - rewrite add_good_loop_cons.
    intros Hrun [Hne Hnot]%not_elem_of_cons Hkeyed.
    destruct (add_good_candidate_variant _ _ _ _ _ _ _ _ _) as [[vbs1 b]|] eqn:Hkey;
      cbn [mbind result_bind fst] in Hrun; [|done].
    apply add_good_candidate_variant_effect in Hkey as (Hkeyed1 & Hother & _);
      [|done].
    destruct (IH _ Hrun Hnot Hkeyed1) as [? ->]. split; [done|]. by apply Hother.
Qed.

Lemma add_good_loop_once variant keys vbs vbs' k c p d :
  add_good_loop variant keys vbs = Ok vbs' →
  (occurrences (k, c, p) keys ≤ 1)%nat →
  vbs_keyed vbs →
  slot vbs k c p = [d] →
  vbs_keyed vbs'
  ∧ ∃ d' newc newh,
      slot vbs' k c p = [d']
      ∧ extends_sites d d' newc newh
      ∧ sublist (c_pos <$> newc) [v_start variant]
      ∧ sublist (pos <$> newh) [v_start variant].
Proof.
  intros Hrun Hocc Hkeyed Hslot.
  apply occurrences_le_1 in Hocc as [Hnot|(keys1 & keys2 & -> & H1 & H2)].
  - destruct (add_good_loop_other _ _ _ _ _ _ _ Hrun Hnot Hkeyed) as [? Heq].
    split; [done|]. exists d, [], []. rewrite Heq.
    split_and!; [done|apply extends_sites_refl|apply sublist_nil_l..].
  - rewrite add_good_loop_app in Hrun.
    destruct (add_good_loop variant keys1 vbs) as [vbs1|] eqn:Hrun1;
      cbn [mbind result_bind] in Hrun; [|done].
    destruct (add_good_loop_other _ _ _ _ _ _ _ Hrun1 H1 Hkeyed) as [Hkeyed1 Heq1].
    rewrite add_good_loop_cons in Hrun.
    destruct (add_good_candidate_variant _ _ _ _ _ _ _ _ _) as [[vbs2 b]|] eqn:Hkey;
      cbn [mbind result_bind fst] in Hrun; [|done].
    apply add_good_candidate_variant_effect in Hkey as (Hkeyed2 & _ & Hthis);
      [|done].
    cbn [fst snd] in Hthis.
    destruct (Hthis d) as (d' & newc & newh & Hslot2 & Hext & Hc & Hh);
      [by rewrite Heq1|].
    destruct (add_good_loop_other _ _ _ _ _ _ _ Hrun H2 Hkeyed2) as [Hkeyed3 Heq3].
    split; [done|]. exists d', newc, newh. by rewrite Heq3.
Qed.

(** One streamed variant gives a record that is alone under its key, and
    whose kid is listed once at its start, at most one entry of each kind. *)
Lemma scan_variant_effect vbs variant vbs' k c p d :
  sbl_wf sbl →
  (occurrences k (close_samples_at sbl c p) ≤ 1)%nat →
  vbs_keyed vbs →
  slot vbs k c p = [d] →
  scan_variant par tun pedigrees build sbl search_dist whole_region sample_dict
    vbs variant = Ok vbs' →
  vbs_keyed vbs'
  ∧ ∃ d' newc newh,
      slot vbs' k c p = [d']
      ∧ extends_sites d d' newc newh
      ∧ sublist (c_pos <$> newc) [v_start variant]
      ∧ sublist (pos <$> newh) [v_start variant].
Proof.
  intros Hsbl Hocc Hkeyed Hslot. unfold scan_variant.
  destruct (is_complex variant).
  { intros [= <-]. split; [done|]. exists d, [], [].
    split_and!; [done|apply extends_sites_refl|apply sublist_nil_l..]. }
  destruct (get_close_vars _ _ _ _ _ _) as [keys|] eqn:Hkeys;
    cbn [mbind result_bind]; [|done].
  intros Hrun. eapply add_good_loop_once; [exact Hrun| |done..].
  etransitivity; [by eapply get_close_vars_occurrences|].
  rewrite Hslot. destruct whole_region; cbn [length]; lia.
Qed.

(** A stream of variants: the new entries of the record are a subsequence
    of the stream. *)
Lemma scan_stream_effect variants vbs vbs' k c p d :
  sbl_wf sbl →
  (occurrences k (close_samples_at sbl c p) ≤ 1)%nat →
  vbs_keyed vbs →
  slot vbs k c p = [d] →
  for_each (scan_variant par tun pedigrees build sbl search_dist whole_region
              sample_dict) variants vbs = Ok vbs' →
  vbs_keyed vbs'
  ∧ ∃ d' newc newh,
      slot vbs' k c p = [d']
      ∧ extends_sites d d' newc newh
      ∧ sublist (c_pos <$> newc) (v_start <$> variants)
      ∧ sublist (pos <$> newh) (v_start <$> variants).
Proof.
  intros Hsbl Hocc. revert vbs d.
  induction variants as [|variant variants IH]; intros vbs d Hkeyed Hslot;
    cbn [for_each].
  - intros [= <-]. split; [done|]. exists d, [], [].
    split_and!; [done|apply extends_sites_refl|apply sublist_nil_l..].
  - destruct (scan_variant _ _ _ _ _ _ _ _ _ _) as [vbs1|] eqn:Hscan;
      cbn [mbind result_bind]; [|done].
    intros Hrest.
    destruct (scan_variant_effect _ _ _ _ _ _ _ Hsbl Hocc Hkeyed Hslot Hscan)
      as (Hkeyed1 & d1 & c1 & h1 & Hslot1 & Hext1 & Hc1 & Hh1).
    destruct (IH _ _ Hkeyed1 Hslot1 Hrest)
      as (Hkeyed' & d' & c2 & h2 & Hslot' & Hext2 & Hc2 & Hh2).
    split; [done|]. exists d', (c1 ++ c2), (h1 ++ h2).
    split_and!; [done|by eapply extends_sites_trans|..];
      rewrite fmap_app, fmap_cons;
      by apply (sublist_app _ [_]).
Qed.
End BatchEffects.

(** ** The indices of the batched path *)

(** [d] is filed under [(k, c, p)] in [vars_by_sample]. *)
Definition same_slot (k c : string) (p : Z) (d : DNM) : Prop :=
  kid d = k ∧ chrom d = c ∧ start d = p.

(** [d] makes [create_lookups] list kid [k] at position [p] of chromosome
    [c]: it starts there, or it is longer than 2 and ends there. *)
Definition listed_at (k c : string) (p : Z) (d : DNM) : Prop :=
  kid d = k ∧ chrom d = c
  ∧ (start d = p ∨ (end_ d = p ∧ 2 < end_ d - start d)).

#[local] Instance same_slot_dec k c p d : Decision (same_slot k c p d).
Proof. unfold same_slot. apply _. Defined.

#[local] Instance listed_at_dec k c p d : Decision (listed_at k c p d).
Proof. unfold listed_at. apply _. Defined.

Lemma slot_record_var denovo vbs k c p :
  slot (record_var denovo vbs) k c p
  = slot vbs k c p ++ filter (same_slot k c p) [denovo].
Proof.
  unfold slot, record_var, same_slot. rewrite filter_cons, filter_nil.
  rewrite dict_get_set. destruct (decide (k = kid denovo)) as [->|]; last first.
  { cbn. rewrite decide_False by naive_solver. by rewrite app_nil_r. }
  cbn. rewrite dict_get_set. destruct (decide (c = chrom denovo)) as [->|];
    last first.
  { cbn. rewrite decide_False by naive_solver. rewrite app_nil_r.
    destruct (dict_get (kid denovo) vbs) as [by_chrom|]; cbn; [|done].
    by destruct (dict_get c by_chrom). }
  cbn. rewrite dict_get_set. destruct (decide (p = start denovo)) as [->|].
  - cbn. rewrite decide_True by done.
    destruct (dict_get (kid denovo) vbs) as [by_chrom|]; cbn; [|done].
    by destruct (dict_get (chrom denovo) by_chrom) as [by_pos|].
  - cbn. rewrite decide_False by naive_solver. rewrite app_nil_r.
    destruct (dict_get (kid denovo) vbs) as [by_chrom|]; cbn; [|done].
    by destruct (dict_get (chrom denovo) by_chrom) as [by_pos|].
Qed.

Lemma record_loc_get loc sample locs p :
  default [] (dict_get p (record_loc loc sample locs))
  = default [] (dict_get p locs) ++ (if decide (p = loc) then [sample] else []).
Proof.
  unfold record_loc. rewrite dict_get_set.
  case_decide; [by subst|by rewrite app_nil_r].
Qed.

Lemma record_loc_NoDup loc sample locs :
  NoDup (dict_keys locs) → NoDup (dict_keys (record_loc loc sample locs)).
Proof. apply dict_keys_set_NoDup. Qed.

Lemma close_samples_at_record denovo sbl k c p :
  occurrences k (close_samples_at (record_sample denovo sbl) c p)
  = (occurrences k (close_samples_at sbl c p)
     + length (filter (listed_at k c p) [denovo]))%nat.
Proof.
  unfold close_samples_at, record_sample, listed_at.
  rewrite filter_cons, filter_nil. rewrite dict_get_set.
  destruct (decide (c = chrom denovo)) as [->|];
    [|cbn; case_decide as H; [by destruct H as (_&?&_)|cbn; lia]].
  cbn [mbind option_bind].
  assert (default [] (dict_get (chrom denovo) sbl ≫= λ locs, dict_get p locs)
          = default [] (dict_get p (default [] (dict_get (chrom denovo) sbl))))
    as -> by by destruct (dict_get (chrom denovo) sbl).
  destruct (Z.ltb_spec 2 (end_ denovo - start denovo)).
  - rewrite !record_loc_get, !occurrences_app.
    repeat case_decide; unfold occurrences; cbn; repeat case_decide;
      cbn; try lia; exfalso; intuition lia.
  - rewrite !record_loc_get, !occurrences_app.
    repeat case_decide; unfold occurrences; cbn; repeat case_decide;
      cbn; try lia; exfalso; intuition lia.
Qed.

Lemma record_sample_wf denovo sbl : sbl_wf sbl → sbl_wf (record_sample denovo sbl).
Proof.
  intros Hwf c locs. unfold record_sample. rewrite dict_get_set.
  case_decide; [|apply Hwf]. intros [= <-].
  assert (NoDup (dict_keys (default [] (dict_get (chrom denovo) sbl)))) as Hnd.
  { destruct (dict_get (chrom denovo) sbl) eqn:Hc; cbn; [by eapply Hwf|constructor]. }
  case_match; auto using record_loc_NoDup.
Qed.

Section Lookups.
Context (par : PARTables) (pedigrees : dict string Pedigree) (build : string).

(** What the indices hold, in terms of the list of indexed records. *)
Definition lookups_ok (lk : Lookups) : Prop :=
  sbl_wf (samples_by_location lk)
  ∧ (∀ k c p, slot (vars_by_sample lk) k c p
              = filter (same_slot k c p) (dnms_nonautophase lk))
  ∧ (∀ k c p, occurrences k (close_samples_at (samples_by_location lk) c p)
              = length (filter (listed_at k c p) (dnms_nonautophase lk))).

Lemma create_lookups_step_ok lk denovo lk' :
  lookups_ok lk →
  create_lookups_step par pedigrees build lk denovo = Ok lk' →
  lookups_ok lk'.
Proof.
  intros (Hwf & Hslot & Hocc). unfold create_lookups_step.
  destruct (autophaseable _ _ _ _) as [[]|]; cbn [mbind result_bind]; [| |done];
    intros [= <-]; [done|].
  split_and!; cbn [samples_by_location vars_by_sample dnms_nonautophase].
  - by apply record_sample_wf.
  - intros k c p. by rewrite slot_record_var, Hslot, filter_app.
  - intros k c p. by rewrite close_samples_at_record, Hocc, filter_app, length_app.
Qed.

Lemma create_lookups_ok dnms lk :
  create_lookups par pedigrees build dnms = Ok lk → lookups_ok lk.
Proof.
  unfold create_lookups.
  assert (lookups_ok empty_lookups) as Hinit by (by split_and!).
  revert Hinit. generalize empty_lookups.
  induction dnms as [|denovo dnms IH]; intros lk0 Hlk0; cbn [for_each].
  - by intros [= <-].
  - destruct (create_lookups_step _ _ _ _ _) as [lk1|] eqn:Hstep;
      cbn [mbind result_bind]; [|done].
    apply IH. by eapply create_lookups_step_ok.
Qed.
End Lookups.

(** The scans of [find_many], one chromosome after the other, are one
    stream of variants through [scan_variant] from the fresh indices. *)
Lemma find_many_stream par tun pedigrees build dnms vcf search_dist whole_region out :
  find_many par tun pedigrees build dnms vcf search_dist whole_region = Ok out →
  ∃ lk variants vbs',
    create_lookups par pedigrees build dnms = Ok lk
    ∧ for_each (scan_variant par tun pedigrees build (samples_by_location lk)
                  search_dist whole_region (sample_dict_of vcf))
        variants (vars_by_sample lk) = Ok vbs'
    ∧ out = dnms_annotated vbs' ++ dnms_autophase lk.
Proof.
  unfold find_many.
  destruct (create_lookups _ _ _ _) as [lk|]; cbn [mbind result_bind]; [|done].
  destruct (for_each _ _ _) as [vbs'|] eqn:Hscan; cbn [mbind result_bind]; [|done].
  intros [= <-]. exists lk.
  enough (∃ variants,
            for_each (scan_variant par tun pedigrees build (samples_by_location lk)
                        search_dist whole_region (sample_dict_of vcf))
              variants (vars_by_sample lk) = Ok vbs') as [variants Hv]
    by by exists variants, vbs'.
  revert Hscan. generalize (vars_by_sample lk).
  generalize (remove_dups (map chrom (dnms_nonautophase lk))).
  intros chroms. induction chroms as [|c chroms IH]; intros vbs; cbn [for_each].
  - intros [= <-]. by exists [].
  - destruct (subscript (chrom_ranges lk) c) as [chrom_range|];
      cbn [mbind result_bind]; [|done].
    destruct (multithread_find_many _ _ _ _ _ _ _ _ _ _ _) as [vbs1|] eqn:Hc;
      cbn [mbind result_bind]; [|done].
    intros (variants & Hv)%IH. unfold multithread_find_many in Hc.
    eexists (_ ++ variants). by rewrite for_each_app, Hc.
Qed.

(** What does hold of the batched scan.  Let [d0] be, among the records
    that [create_lookups] indexed, the only one of its kid and chromosome that
    starts at [start d0] or, being longer than 2, ends there.  Then, however
    long the stream of variants that the scan goes through from the fresh
    indices, the slot of [d0] still holds one record, which is [d0] with new
    entries appended to its two site lists, and the positions of the new
    candidate sites, like those of the new het sites, are a subsequence of
    the positions of the streamed variants.  A repeated entry therefore has
    one of two causes: the kid is listed twice at the position of the DNM, or
    a record of the callset is streamed twice. *)
Lemma batch_scan_reports_each_variant_once par tun pedigrees build dnms lk d0
    search_dist whole_region sample_dict variants vbs' :
  create_lookups par pedigrees build dnms = Ok lk →
  filter (listed_at (kid d0) (chrom d0) (start d0)) (dnms_nonautophase lk) = [d0] →
  for_each (scan_variant par tun pedigrees build (samples_by_location lk)
              search_dist whole_region sample_dict)
    variants (vars_by_sample lk) = Ok vbs' →
  ∃ d0' newc newh,
    slot vbs' (kid d0) (chrom d0) (start d0) = [d0']
    ∧ extends_sites d0 d0' newc newh
    ∧ sublist (c_pos <$> newc) (v_start <$> variants)
    ∧ sublist (pos <$> newh) (v_start <$> variants).
Proof.
  intros (Hwf & Hslot & Hocc)%create_lookups_ok Halone Hrun.
  assert (vbs_keyed (vars_by_sample lk)) as Hkeyed.
  { intros k c p d. rewrite Hslot. by intros [(_ & _ & ?) _]%list_elem_of_filter. }
  assert (slot (vars_by_sample lk) (kid d0) (chrom d0) (start d0) = [d0]) as Hd0.
  { rewrite Hslot.
    assert (filter (same_slot (kid d0) (chrom d0) (start d0)) (dnms_nonautophase lk)
            = filter (same_slot (kid d0) (chrom d0) (start d0))
                (filter (listed_at (kid d0) (chrom d0) (start d0))
                   (dnms_nonautophase lk))) as ->.
    { rewrite list_filter_filter. apply list_filter_iff.
      unfold same_slot, listed_at. intros d. naive_solver. }
    rewrite Halone, filter_cons, filter_nil. by rewrite decide_True. }
  eapply (scan_stream_effect par tun pedigrees build (samples_by_location lk));
    [done| |done|exact Hd0|exact Hrun].
  by rewrite Hocc, Halone.
Qed.

Definition scanned_dnm : DNM := kid_dnm "1" 1000 1001.

Definition scanned_variants : list Variant :=
  [informative_snv "1" 990; informative_snv "1" 995].

Definition scanned_lookups : Lookups :=
  match create_lookups example_par trio_pedigrees "38" [scanned_dnm] with
  | Ok lk => lk
  | Raise _ => empty_lookups
  end.

Definition scanned_result : dict string (dict string (dict Z (list DNM))) :=
  match for_each (scan_variant example_par trio_tunables trio_pedigrees "38"
                    (samples_by_location scanned_lookups) 100 false
                    (sample_dict_of (trio_vcf "" [])))
          scanned_variants (vars_by_sample scanned_lookups) with
  | Ok vbs => vbs
  | Raise _ => []
  end.

Lemma batch_scan_reports_each_variant_once_witness :
  create_lookups example_par trio_pedigrees "38" [scanned_dnm] = Ok scanned_lookups
  ∧ ∃ d0' newc newh,
      slot scanned_result (kid scanned_dnm) (chrom scanned_dnm) (start scanned_dnm)
      = [d0']
      ∧ extends_sites scanned_dnm d0' newc newh
      ∧ sublist (c_pos <$> newc) (v_start <$> scanned_variants)
      ∧ sublist (pos <$> newh) (v_start <$> scanned_variants).
Proof.
  split; [by vm_compute|].
  apply (batch_scan_reports_each_variant_once
           example_par trio_tunables trio_pedigrees "38" [scanned_dnm]
           scanned_lookups scanned_dnm 100 false
           (sample_dict_of (trio_vcf "" [])) scanned_variants scanned_result).
  - by vm_compute.
  - by vm_compute.
  - by vm_compute.
Defined.

(** The key under which the batched path files a DNM. *)
Definition slot_key (d : DNM) : string * string * Z := (kid d, chrom d, start d).

(** A DNM longer than 2 that ends where the next one starts. *)
Definition adjoining_dnms : list DNM := [kid_dnm "1" 100 110; kid_dnm "1" 110 111].

(** One position under the two spellings of the chromosome. *)
Definition respelled_dnms : list DNM :=
  [kid_dnm "1" 1000 1001; kid_dnm "chr1" 1000 1001].

(** C2.  A single batched run reports one variant twice to a DNM although
    no two DNMs of the input share a key [(kid, chrom, start)], where the
    per-DNM path reports it once.  (i) The first DNM, longer than 2, ends at
    110 where the second starts: [create_lookups] lists the kid twice at 110,
    [get_close_vars] yields the key [(kid, 1, 110)] once per listing, and the
    second DNM gets the variant at 155 twice.  (ii) The two DNMs name the
    chromosome [1] and [chr1]: the scan of either chromosome queries the
    contig [1], whose records match the index of the DNM on [1], and that DNM
    gets the variant at 990 once per scan; the DNM on [chr1] gets nothing. *)
Theorem batch_reports_variant_twice_on_distinct_keys :
  (NoDup (slot_key <$> adjoining_dnms)
   ∧ find example_par trio_tunables trio_pedigrees "38" adjoining_dnms
       (trio_vcf "" [informative_snv "1" 155]) 50 1 false
     = Ok (Some [kid_dnm "1" 100 110;
                 set_sites (kid_dnm "1" 110 111)
                   (Some [snv_candidate 155; snv_candidate 155])
                   (Some [snv_het_site 155; snv_het_site 155])])
   ∧ find example_par trio_tunables trio_pedigrees "38" adjoining_dnms
       (trio_vcf "" [informative_snv "1" 155]) 50 3 false
     = Ok (Some [set_sites (kid_dnm "1" 100 110) (Some []) (Some []);
                 set_sites (kid_dnm "1" 110 111)
                   (Some [snv_candidate 155]) (Some [snv_het_site 155])]))
  ∧ (NoDup (slot_key <$> respelled_dnms)
     ∧ find example_par trio_tunables trio_pedigrees "38" respelled_dnms
         (trio_vcf "" [informative_snv "1" 990]) 100 1 false
       = Ok (Some [set_sites (kid_dnm "1" 1000 1001)
                     (Some [snv_candidate 990; snv_candidate 990])
                     (Some [snv_het_site 990; snv_het_site 990]);
                   kid_dnm "chr1" 1000 1001])
     ∧ find example_par trio_tunables trio_pedigrees "38" respelled_dnms
         (trio_vcf "" [informative_snv "1" 990]) 100 3 false
       = Ok (Some [set_sites (kid_dnm "1" 1000 1001)
                     (Some [snv_candidate 990]) (Some [snv_het_site 990]);
                   set_sites (kid_dnm "chr1" 1000 1001)
                     (Some [snv_candidate 990]) (Some [snv_het_site 990])])).
Proof.
  split; (split; [apply (bool_decide_unpack _); by vm_compute|]);
    split; vm_compute; reflexivity.
Qed.

(** * Further properties of the two modules *)

(** ** The sample index *)

(** [dict(zip(names, range(len(names))))] *)
Definition index_names (names : list string) : dict string nat :=
  fold_left (λ d si, dict_set si.1 si.2 d) (zip names (seq 0 (length names))) [].

Lemma index_names_snoc names x :
  index_names (names ++ [x]) = dict_set x (length names) (index_names names).
Proof.
  unfold index_names. rewrite length_app, Nat.add_1_r, seq_S.
  rewrite (zip_with_app pair names [x]) by (by rewrite length_seq).
  by rewrite fold_left_app.
Qed.

Lemma lookup_snoc_ne {A} (l : list A) x y i :
  x ≠ y → (l ++ [x]) !! i = Some y ↔ l !! i = Some y.
Proof.
  intros Hne. destruct (decide (i < length l)%nat).
  - by rewrite lookup_app_l.
  - rewrite lookup_app_r by lia. rewrite (lookup_ge_None_2 l) by lia.
    destruct (i - length l)%nat; cbn; naive_solver.
Qed.

Lemma index_names_lookup names name i :
  dict_get name (index_names names) = Some i
  ↔ names !! i = Some name ∧ ∀ j, (i < j)%nat → names !! j ≠ Some name.
Proof.
  revert i. induction names as [|x names IH] using rev_ind; intros i.
  { cbn. split; [done|]. by intros [? _]. }
  rewrite index_names_snoc, dict_get_set. case_decide as Hx.
  - subst x. split.
    + intros [= <-]. split; [by rewrite list_lookup_middle|].
      intros j Hj. rewrite lookup_ge_None_2; [done|]. rewrite length_app. cbn. lia.
    + intros [Hi Hlast]. f_equal.
      assert (i < length (names ++ [name]))%nat as Hlt by by eapply lookup_lt_Some.
      rewrite length_app in Hlt. cbn in Hlt.
      destruct (decide (i = length names)) as [|Hne]; [done|].
      exfalso. apply (Hlast (length names)); [lia|]. by rewrite list_lookup_middle.
  - rewrite IH, (lookup_snoc_ne _ _ _ _ (not_eq_sym Hx)).
    split; intros [Hi Hlast]; (split; [done|]); intros j Hj.
    + rewrite (lookup_snoc_ne _ _ _ _ (not_eq_sym Hx)). auto.
    + rewrite <- (lookup_snoc_ne _ x _ _ (not_eq_sym Hx)). auto.
Qed.

Lemma index_names_None names name :
  dict_get name (index_names names) = None ↔ name ∉ names.
Proof.
  induction names as [|x names IH] using rev_ind.
  { cbn. split; [intros _; apply not_elem_of_nil|done]. }
  rewrite index_names_snoc, dict_get_set, not_elem_of_app, list_elem_of_singleton.
  case_decide; [naive_solver|]. rewrite IH. naive_solver.
Qed.

(** X1.  The sample index that both paths build from [vcf.samples] maps a
    name to a column of that name, the last one when the name occurs more
    than once, and holds no other name. *)
Theorem sample_dict_of_last_column vcf name :
  (∀ i, dict_get name (sample_dict_of vcf) = Some i
        ↔ samples vcf !! i = Some name
          ∧ ∀ j, (i < j)%nat → samples vcf !! j ≠ Some name)
  ∧ (dict_get name (sample_dict_of vcf) = None ↔ name ∉ samples vcf).
Proof.
  split; [intros i; apply index_names_lookup | apply index_names_None].
Qed.

(** ** Loops *)

(** An invariant of the loop body is an invariant of the loop. *)
Lemma for_each_inv {A S} (P : S → Prop) (Q : A → Prop)
    (body : S → A → result S) l st st' :
  (∀ s x s', Q x → P s → body s x = Ok s' → P s') →
  Forall Q l →
  P st →
  for_each body l st = Ok st' →
  P st'.
Proof.
  intros Hbody Hl. revert st. induction Hl as [|x l Hx _ IH]; intros st Hst; cbn.
  - by intros [= <-].
  - destruct (body st x) as [s1|] eqn:Hstep; cbn [mbind result_bind]; [|done].
    apply IH. by eapply Hbody.
Qed.

(** ** Kid-allele inference for deletions and for other variant types *)

(** X2.  For a DEL DNM whose kid has depths [r] and [a] (their int32 sum
    not overflowing) and genotype [g], the kid allele is inferred exactly
    when [r + a > 4]: a HOM_ALT kid inherited the site from the reference
    parent, a HOM_REF kid from the alternate parent, and a HET or unknown
    kid gives nothing.  At depth 4 or less nothing is inferred. *)
Theorem get_kid_allele_del tun genotypes ref_depths alt_depths
    kid_idx dad_idx mom_idx r a g :
  ref_depths !! kid_idx = Some r →
  alt_depths !! kid_idx = Some a →
  genotypes !! kid_idx = Some g →
  - 2 ^ 31 ≤ r + a < 2 ^ 31 →
  get_kid_allele tun "DEL" genotypes ref_depths alt_depths kid_idx dad_idx mom_idx
  = Ok (if 4 <? r + a then
          match g with
          | HOM_ALT => Some "ref_parent"
          | HOM_REF => Some "alt_parent"
          | _ => None
          end
        else None).
Proof.
  intros Hr Ha Hg Hsum.
  unfold get_kid_allele. cbn [String.eqb Ascii.eqb Bool.eqb mbind result_bind].
  rewrite (index_lookup ref_depths kid_idx r Hr). cbn [mbind result_bind].
  rewrite (index_lookup alt_depths kid_idx a Ha). cbn [mbind result_bind].
  unfold add32. rewrite (wrap32_small _ Hsum).
  destruct (4 <? r + a); [|reflexivity].
  rewrite (index_lookup genotypes kid_idx g Hg). cbn [mbind result_bind].
  by destruct g.
Qed.

Lemma get_kid_allele_del_witness :
  get_kid_allele trio_tunables "DEL" [HOM_ALT; HOM_ALT; HOM_REF]
    [0; 0; 20] [5; 20; 0] 0 1 2 = Ok (Some "ref_parent").
Proof.
  rewrite (get_kid_allele_del trio_tunables [HOM_ALT; HOM_ALT; HOM_REF]
             [0; 0; 20] [5; 20; 0] 0 1 2 0 5 HOM_ALT);
    [reflexivity | reflexivity | reflexivity | reflexivity | lia].
Defined.

(** A variant type that is neither DEL nor DUP gives no kid allele,
    whatever the arrays hold. *)
Lemma get_kid_allele_not_cnv tun vt genotypes ref_depths alt_depths
    kid_idx dad_idx mom_idx :
  vt ≠ "DEL" → vt ≠ "DUP" →
  get_kid_allele tun vt genotypes ref_depths alt_depths kid_idx dad_idx mom_idx
  = Ok None.
Proof.
  intros Hdel Hdup. unfold get_kid_allele.
  apply String.eqb_neq in Hdel, Hdup. by rewrite Hdel, Hdup.
Qed.

Section WholeRegionTyped.
Context (par : PARTables) (tun : Tunables).
Context (pedigrees : dict string Pedigree) (build : string).

Lemma informative_site_not_cnv denovo variant kid_idx dad_idx mom_idx dad mom vt
    het cand :
  vartype denovo = Some vt → vt ≠ "DEL" → vt ≠ "DUP" →
  informative_site tun true denovo variant kid_idx dad_idx mom_idx dad mom
  = Ok (het, cand) →
  cand = None.
Proof.
  intros Hvt Hdel Hdup. unfold informative_site. rewrite Hvt.
  rewrite get_kid_allele_not_cnv by done. cbn [mbind result_bind].
  destruct (index (ALT variant) 0); cbn [mbind result_bind]; [|done].
  destruct (index (gt_types variant) kid_idx); cbn [mbind result_bind]; [|done].
  destruct (if bool_decide _ then _ else _); cbn [mbind result_bind]; [|done].
  by intros [= _ <-].
Qed.

(** X3.  In whole-region mode the per-DNM path never gives a candidate
    site to a DNM that carries a variant type other than DEL and DUP: the
    record comes back as it was, or with an empty candidate list. *)
Theorem find_denovo_typed_not_cnv vcf search_dist denovo vt out :
  vartype denovo = Some vt → vt ≠ "DEL" → vt ≠ "DUP" →
  find_denovo par tun pedigrees build vcf search_dist true denovo = Ok out →
  out = denovo ∨ ∃ hs, out = set_sites denovo (Some []) (Some hs).
Proof.
  intros Hvt Hdel Hdup. unfold find_denovo.
  destruct (autophaseable _ _ _ _) as [[]|]; cbn [mbind result_bind]; [| |done].
  { intros [= <-]. by left. }
  destruct (subscript pedigrees (kid denovo)) as [ped|]; cbn [mbind result_bind];
    [|done].
  repeat case_match; try (intros [= <-]; by left).
  destruct (for_each _ _ _) as [[cs hs]|] eqn:Hloop; cbn [mbind result_bind]; [|done].
  intros [= <-]. right. exists (sorted pos hs).
  apply (for_each_inv (λ acc, acc.1 = []) (λ _, True)) in Hloop;
    [cbn in Hloop; by subst| |apply Forall_True|done].
  intros [cs0 hs0] variant [cs1 hs1] _ Hcs. cbn in Hcs. subst cs0.
  unfold find_variant. repeat case_match; try by intros [= <- <-].
  destruct (informative_site _ _ _ _ _ _ _ _ _) as [[het cand]|] eqn:Hsite;
    cbn [mbind result_bind]; [|done].
  apply (informative_site_not_cnv _ _ _ _ _ _ _ vt) in Hsite as ->; [|done..].
  by intros [= <- <-].
Qed.
End WholeRegionTyped.

Definition typed_dnm (vt : string) : DNM :=
  {| chrom := "1"; start := 1000; end_ := 1001; kid := "kid";
     vartype := Some vt; candidate_sites := None; het_sites := None |}.

Lemma find_denovo_typed_not_cnv_witness :
  find_denovo example_par trio_tunables trio_pedigrees "38"
    (trio_vcf "" [informative_snv "1" 990]) 100 true (typed_dnm "SNV")
  = Ok (set_sites (typed_dnm "SNV") (Some []) (Some [snv_het_site 990]))
  ∧ (set_sites (typed_dnm "SNV") (Some []) (Some [snv_het_site 990])
     = typed_dnm "SNV"
     ∨ ∃ hs, set_sites (typed_dnm "SNV") (Some []) (Some [snv_het_site 990])
             = set_sites (typed_dnm "SNV") (Some []) (Some hs)).
Proof.
  split; [by vm_compute|].
  apply (find_denovo_typed_not_cnv example_par trio_tunables trio_pedigrees "38"
           (trio_vcf "" [informative_snv "1" 990]) 100 (typed_dnm "SNV") "SNV");
    [reflexivity | discriminate | discriminate | by vm_compute].
Defined.

(** ** What an accepted site says *)

Lemma index_Ok {A} (l : list A) i x : index l i = Ok x → l !! i = Some x.
Proof. unfold index. by destruct (l !! i); intros [= <-]. Qed.

(** The genotype pairs (alternate parent, reference parent) that
    [assign_parents] accepts: the first carries more alternate alleles. *)
Definition carries_more_alt (ga gr : genotype) : Prop :=
  (ga, gr) ∈ [(HET, HOM_REF); (HOM_ALT, HOM_REF); (HOM_ALT, HET)].

Lemma assign_parents_spec gd gm dad mom altp refp :
  assign_parents gd gm dad mom = Some (altp, refp) →
  (altp = dad ∧ refp = mom ∧ carries_more_alt gd gm)
  ∨ (altp = mom ∧ refp = dad ∧ carries_more_alt gm gd).
Proof.
  unfold carries_more_alt.
  destruct gd, gm; cbn; intros [= <- <-]; set_solver.
Qed.

Lemma unique_allele_spec gk gd gm :
  unique_allele gk gd gm = true →
  gk ∈ [HOM_ALT; HOM_REF] → HET ∈ [gd; gm] → gk ≠ gd ∧ gk ≠ gm.
Proof.
  destruct gk, gd, gm; cbn; intros [=]; set_solver.
Qed.

Lemma informative_site_accepts tun whole_region denovo variant
    kid_idx dad_idx mom_idx dad mom het c :
  informative_site tun whole_region denovo variant kid_idx dad_idx mom_idx dad mom
  = Ok (het, Some c) →
  ∃ gk gd gm,
    gt_types variant !! kid_idx = Some gk
    ∧ gt_types variant !! dad_idx = Some gd
    ∧ gt_types variant !! mom_idx = Some gm
    ∧ c_pos c = v_start variant
    ∧ c_ref_allele c = REF variant
    ∧ ALT variant !! 0%nat = Some (c_alt_allele c)
    ∧ parents_high_quality tun dad_idx mom_idx variant = Ok true
    ∧ ((alt_parent c = dad ∧ ref_parent c = mom ∧ carries_more_alt gd gm)
       ∨ (alt_parent c = mom ∧ ref_parent c = dad ∧ carries_more_alt gm gd))
    ∧ (gk ∈ [HOM_ALT; HOM_REF] → HET ∈ [gd; gm] → gk ≠ gd ∧ gk ≠ gm)
    ∧ match kid_allele c with
      | None =>
          gk = HET
          ∧ is_high_quality_site tun kid_idx (gt_ref_depths variant)
              (gt_alt_depths variant) (gt_types variant) (gt_quals variant)
            = Ok true
      | Some a =>
          whole_region = true
          ∧ ∃ vt, vartype denovo = Some vt
                  ∧ get_kid_allele tun vt (gt_types variant) (gt_ref_depths variant)
                      (gt_alt_depths variant) kid_idx dad_idx mom_idx
                    = Ok (Some a)
      end.
Proof.
  unfold informative_site. intros Hrun.
  destruct (index (ALT variant) 0) as [alt0|] eqn:Halt;
    cbn [mbind result_bind] in Hrun; [|done].
  destruct (index (gt_types variant) kid_idx) as [gk|] eqn:Hgk;
    cbn [mbind result_bind] in Hrun; [|done].
  destruct (if bool_decide (gk = HET) then _ else _) as [is_het|];
    cbn [mbind result_bind] in Hrun; [|done].
  match type of Hrun with
  | (?m ≫= _) = _ => destruct m as [[ka|]|] eqn:Hstage
  end; cbn [mbind result_bind] in Hrun; [|done|done].
  destruct (parents_high_quality _ _ _ _) as [[]|] eqn:Hhq;
    cbn [mbind result_bind negb] in Hrun; [|done|done].
  destruct (index (gt_types variant) dad_idx) as [gd|] eqn:Hgd;
    cbn [mbind result_bind] in Hrun; [|done].
  destruct (index (gt_types variant) mom_idx) as [gm|] eqn:Hgm;
    cbn [mbind result_bind] in Hrun; [|done].
  destruct (assign_parents gd gm dad mom) as [[altp refp]|] eqn:Hassign; [|done].
  destruct (unique_allele gk gd gm) eqn:Huniq; [|done].
  injection Hrun as _ <-. cbn.
  apply index_Ok in Halt, Hgk, Hgd, Hgm.
  exists gk, gd, gm. split_and!; try done.
  - by apply assign_parents_spec.
  - by apply unique_allele_spec.
  - destruct whole_region, (vartype denovo) as [vt|]; cbn in Hstage.
    1: { destruct (get_kid_allele _ _ _ _ _ _ _ _) as [[a|]|] eqn:Hka;
           cbn [mbind result_bind] in Hstage; [|done|done].
         injection Hstage as <-. split; [done|]. by exists vt. }
    all: destruct (bool_decide (gk = HET)) eqn:Hk; cbn [negb] in Hstage; [|done];
      apply bool_decide_eq_true in Hk;
      destruct (is_high_quality_site _ _ _ _ _ _) as [[]|];
      cbn [mbind result_bind] in Hstage; by simplify_eq.
Qed.

(** X4.  A candidate site that the shared loop tail accepts records the
    variant (its start, REF and first ALT); both parents passed the quality
    test; one parent is the alternate parent and the other the reference
    parent, and the alternate parent's genotype carries more alternate
    alleles (HET over HOM_REF, HOM_ALT over HOM_REF, HOM_ALT over HET); a
    homozygous kid never has the genotype of a parent when the other parent
    is HET.  Without a kid allele the kid is HET and passed the quality
    test; with one, the run is in whole-region mode on a typed DNM and the
    allele is what [get_kid_allele] inferred. *)
Theorem informative_site_candidate tun whole_region denovo variant
    kid_idx dad_idx mom_idx dad mom het c :
  informative_site tun whole_region denovo variant kid_idx dad_idx mom_idx dad mom
  = Ok (het, Some c) →
  ∃ gk gd gm,
    gt_types variant !! kid_idx = Some gk
    ∧ gt_types variant !! dad_idx = Some gd
    ∧ gt_types variant !! mom_idx = Some gm
    ∧ c_pos c = v_start variant
    ∧ c_ref_allele c = REF variant
    ∧ ALT variant !! 0%nat = Some (c_alt_allele c)
    ∧ parents_high_quality tun dad_idx mom_idx variant = Ok true
    ∧ ((alt_parent c = dad ∧ ref_parent c = mom ∧ carries_more_alt gd gm)
       ∨ (alt_parent c = mom ∧ ref_parent c = dad ∧ carries_more_alt gm gd))
    ∧ (gk ∈ [HOM_ALT; HOM_REF] → HET ∈ [gd; gm] → gk ≠ gd ∧ gk ≠ gm)
    ∧ match kid_allele c with
      | None =>
          gk = HET
          ∧ is_high_quality_site tun kid_idx (gt_ref_depths variant)
              (gt_alt_depths variant) (gt_types variant) (gt_quals variant)
            = Ok true
      | Some a =>
          whole_region = true
          ∧ ∃ vt, vartype denovo = Some vt
                  ∧ get_kid_allele tun vt (gt_types variant) (gt_ref_depths variant)
                      (gt_alt_depths variant) kid_idx dad_idx mom_idx
                    = Ok (Some a)
      end.
Proof. apply informative_site_accepts. Qed.

Lemma informative_site_candidate_witness :
  ∃ gd gm,
    gt_types (informative_snv "1" 990) !! 1%nat = Some gd
    ∧ gt_types (informative_snv "1" 990) !! 2%nat = Some gm
    ∧ carries_more_alt gd gm.
Proof.
  destruct (informative_site_candidate trio_tunables false (kid_dnm "1" 1000 1001)
              (informative_snv "1" 990) 0 1 2 "dad" "mom" (Some (snv_het_site 990))
              (snv_candidate 990))
    as (gk & gd & gm & _ & Hgd & Hgm & _ & _ & _ & _ & [(_ & _ & Hmore)|(Hmom & _)] & _);
    [by vm_compute | by exists gd, gm | discriminate Hmom].
Defined.

(** ** Sorting *)

Section sorted_facts.
Context {A : Type} (key : A → Z).

Lemma insert_sorted_perm x l : insert_sorted key x l ≡ₚ x :: l.
Proof.
  induction l as [|y l IH]; cbn; [done|]. case_match; [done|].
  by rewrite IH, Permutation_swap.
Qed.

(** Sorting neither drops nor repeats an element. *)
Lemma sorted_perm l : sorted key l ≡ₚ l.
Proof.
  induction l as [|x l IH]; cbn; [done|].
  fold (sorted key l). by rewrite insert_sorted_perm, IH.
Qed.

Lemma insert_sorted_sorted x l :
  StronglySorted (λ a b, key a ≤ key b) l →
  StronglySorted (λ a b, key a ≤ key b) (insert_sorted key x l).
Proof.
  induction 1 as [|y l Hl IH Hy]; cbn.
  - repeat constructor.
  - destruct (Z.leb_spec (key x) (key y)).
    + constructor; [by constructor|]. constructor; [done|].
      eapply Forall_impl; [exact Hy|]. intros z ?. cbn in *. lia.
    + constructor; [done|]. rewrite insert_sorted_perm.
      constructor; [lia|done].
Qed.

Lemma sorted_sorted l : StronglySorted (λ a b, key a ≤ key b) (sorted key l).
Proof.
  induction l as [|x l IH]; cbn; [constructor|]. by apply insert_sorted_sorted.
Qed.
End sorted_facts.

(** ** The indices built by [create_lookups] *)

#[global] Instance exn_eq_dec : EqDecision exn.
Proof. solve_decision. Defined.

#[global] Instance result_eq_dec {A} `{EqDecision A} : EqDecision (result A).
Proof. solve_decision. Defined.

Lemma widen_range_get chrom s e ranges c :
  dict_get c (widen_range chrom s e ranges)
  = if decide (c = chrom) then
      let cur := default (s, e) (dict_get chrom ranges) in
      Some (Z.min s cur.1, Z.max e cur.2)
    else dict_get c ranges.
Proof.
  unfold widen_range. rewrite dict_get_set. case_decide; [|done].
  cbn zeta. f_equal. f_equal.
  - destruct (Z.ltb_spec s (default (s, e) (dict_get chrom ranges)).1); lia.
  - destruct (Z.ltb_spec (default (s, e) (dict_get chrom ranges)).2 e); lia.
Qed.

Section LookupFacts.
Context (par : PARTables) (pedigrees : dict string Pedigree) (build : string).

(** [d] lies within the range kept for its chromosome. *)
Definition in_range (ranges : dict string (Z * Z)) (d : DNM) : Prop :=
  ∃ lo hi, dict_get (chrom d) ranges = Some (lo, hi) ∧ lo ≤ start d ∧ end_ d ≤ hi.

Lemma widen_range_in_range d ranges :
  in_range (widen_range (chrom d) (start d) (end_ d) ranges) d.
Proof.
  unfold in_range. rewrite widen_range_get, decide_True by done.
  eexists _, _. split; [done|]. cbn. lia.
Qed.

Lemma widen_range_keeps d d' ranges :
  in_range ranges d' →
  in_range (widen_range (chrom d) (start d) (end_ d) ranges) d'.
Proof.
  intros (lo & hi & Hget & Hlo & Hhi). unfold in_range.
  rewrite widen_range_get. case_decide as Hc; [|by exists lo, hi].
  rewrite <- Hc, Hget. eexists _, _. split; [done|]. cbn. lia.
Qed.

Lemma create_lookups_from dnms lk0 lk :
  for_each (create_lookups_step par pedigrees build) dnms lk0 = Ok lk →
  dnms_autophase lk
  = dnms_autophase lk0
    ++ filter (λ d, autophaseable par pedigrees build d = Ok true) dnms
  ∧ dnms_nonautophase lk
    = dnms_nonautophase lk0
      ++ filter (λ d, autophaseable par pedigrees build d = Ok false) dnms
  ∧ (Forall (in_range (chrom_ranges lk0)) (dnms_nonautophase lk0) →
     Forall (in_range (chrom_ranges lk)) (dnms_nonautophase lk)).
Proof.
  revert lk0. induction dnms as [|d dnms IH]; intros lk0; cbn [for_each].
  { intros [= <-]. by rewrite !filter_nil, !app_nil_r. }
  destruct (create_lookups_step par pedigrees build lk0 d) as [lk1|] eqn:Hstep;
    cbn [mbind result_bind]; [|done].
  intros (Ha & Hn & Hr)%IH. unfold create_lookups_step in Hstep.
  destruct (autophaseable par pedigrees build d) as [[]|] eqn:Hauto;
    cbn [mbind result_bind] in Hstep; [| |done]; injection Hstep as <-;
    cbn [dnms_autophase dnms_nonautophase chrom_ranges] in *;
    rewrite !filter_cons, !Hauto; repeat case_decide; try done.
  - split_and!; [by rewrite Ha, <- app_assoc|done|done].
  - split_and!; [done|by rewrite Hn, <- app_assoc|].
    intros Hold. apply Hr, Forall_app. split.
    + eapply Forall_impl; [exact Hold|]. intros d'. apply widen_range_keeps.
    + constructor; [apply widen_range_in_range|constructor].
Qed.

(** [create_lookups] splits the input, in order, into the auto-phaseable
    records and the others. *)
Lemma create_lookups_partition dnms lk :
  create_lookups par pedigrees build dnms = Ok lk →
  dnms_autophase lk = filter (λ d, autophaseable par pedigrees build d = Ok true) dnms
  ∧ dnms_nonautophase lk
    = filter (λ d, autophaseable par pedigrees build d = Ok false) dnms.
Proof. by intros (? & ? & _)%create_lookups_from. Qed.

(** X5.  After [create_lookups], [chrom_ranges] has an entry for the
    chromosome of every indexed (not auto-phaseable) DNM of the input, and
    the entry spans the DNM: its low end is at most the DNM's start and its
    high end at least the DNM's end.  So the subscript
    [chrom_ranges[chrom]] of [find_many] cannot fail. *)
Theorem create_lookups_ranges dnms lk d :
  create_lookups par pedigrees build dnms = Ok lk →
  d ∈ dnms →
  autophaseable par pedigrees build d = Ok false →
  ∃ lo hi, dict_get (chrom d) (chrom_ranges lk) = Some (lo, hi)
           ∧ lo ≤ start d ∧ end_ d ≤ hi.
Proof.
  intros (_ & Hn & Hr)%create_lookups_from Hd Hauto.
  cbn in Hn, Hr. specialize (Hr (Forall_nil_2 _)).
  rewrite Forall_forall in Hr. apply Hr. rewrite Hn. by apply list_elem_of_filter.
Qed.
End LookupFacts.

Definition ranged_dnms : list DNM :=
  [kid_dnm "1" 1000 1001; kid_dnm "1" 200 5000].

Definition ranged_lookups : Lookups :=
  match create_lookups example_par trio_pedigrees "38" ranged_dnms with
  | Ok lk => lk
  | Raise _ => empty_lookups
  end.

Lemma create_lookups_ranges_witness :
  ∃ lo hi, dict_get "1" (chrom_ranges ranged_lookups) = Some (lo, hi)
           ∧ lo ≤ 1000 ∧ 1001 ≤ hi.
Proof.
  apply (create_lookups_ranges example_par trio_pedigrees "38"
           ranged_dnms ranged_lookups (kid_dnm "1" 1000 1001)).
  - by vm_compute.
  - left.
  - by vm_compute.
Defined.

(** ** The sites of the per-DNM path *)

Lemma informative_site_het tun whole_region denovo variant
    kid_idx dad_idx mom_idx dad mom h cand :
  informative_site tun whole_region denovo variant kid_idx dad_idx mom_idx dad mom
  = Ok (Some h, cand) →
  pos h = v_start variant
  ∧ ref_allele h = REF variant
  ∧ ALT variant !! 0%nat = Some (alt_allele h)
  ∧ gt_types variant !! kid_idx = Some HET
  ∧ parents_high_quality tun dad_idx mom_idx variant = Ok true.
Proof.
  unfold informative_site. intros Hrun.
  destruct (index (ALT variant) 0) as [alt0|] eqn:Halt;
    cbn [mbind result_bind] in Hrun; [|done].
  destruct (index (gt_types variant) kid_idx) as [gk|] eqn:Hgk;
    cbn [mbind result_bind] in Hrun; [|done].
  apply index_Ok in Halt, Hgk.
  destruct (bool_decide (gk = HET)) eqn:Hk.
  - apply bool_decide_eq_true in Hk. subst gk.
    destruct (parents_high_quality _ _ _ _) as [[]|] eqn:Hhq;
      cbn [mbind result_bind] in Hrun; [| |done];
      repeat match type of Hrun with
             | (?m ≫= _) = Ok _ =>
                 destruct m; cbn [mbind result_bind] in Hrun; [|done]
             | (match ?x with _ => _ end) = Ok _ => destruct x
             | (if ?b then _ else _) = Ok _ => destruct b
             end; by simplify_eq.
  - cbn [mbind result_bind] in Hrun.
    repeat match type of Hrun with
           | (?m ≫= _) = Ok _ =>
               destruct m; cbn [mbind result_bind] in Hrun; [|done]
           | (match ?x with _ => _ end) = Ok _ => destruct x
           | (if ?b then _ else _) = Ok _ => destruct b
           end; by simplify_eq.
Qed.

Lemma is_complex_false_single variant alt0 :
  is_complex variant = false → ALT variant !! 0%nat = Some alt0 →
  ALT variant = [alt0].
Proof.
  unfold is_complex. intros [[H1 _]%orb_false_elim _]%orb_false_elim.
  apply negb_false_iff, Nat.eqb_eq in H1.
  destruct (ALT variant) as [|a [|b l]]; cbn in *; naive_solver.
Qed.

(** [(p, ref, alt)] describes a record among [variants] that the per-DNM
    loop looks at for [denovo]: biallelic with one-base alleles, not on a
    chromosome named ["X"] when the kid is male, and not inside a small
    event. *)
Definition site_of (denovo : DNM) (ped : Pedigree) (variants : list Variant)
    (p : Z) (ref alt : string) : Prop :=
  ∃ variant,
    variant ∈ variants
    ∧ is_complex variant = false
    ∧ inside_small_event denovo variant = false
    ∧ (CHROM variant = "X" → sex ped ≠ SEX_KEY_male)
    ∧ p = v_start variant ∧ ref = REF variant ∧ ALT variant = [alt].

Section PerDNMSites.
Context (par : PARTables) (tun : Tunables).
Context (pedigrees : dict string Pedigree) (build : string).

Definition candidate_of (denovo : DNM) (ped : Pedigree) (variants : list Variant)
    (c : Candidate) : Prop :=
  site_of denovo ped variants (c_pos c) (c_ref_allele c) (c_alt_allele c)
  ∧ ((alt_parent c = dad ped ∧ ref_parent c = mom ped)
     ∨ (alt_parent c = mom ped ∧ ref_parent c = dad ped)).

Definition het_site_of (denovo : DNM) (ped : Pedigree) (variants : list Variant)
    (h : HetSite) : Prop :=
  site_of denovo ped variants (pos h) (ref_allele h) (alt_allele h).

Lemma find_variant_sites whole_region denovo ped kid_idx dad_idx mom_idx
    variants acc variant acc' :
  variant ∈ variants →
  Forall (candidate_of denovo ped variants) acc.1
  ∧ Forall (het_site_of denovo ped variants) acc.2 →
  find_variant tun whole_region denovo ped kid_idx dad_idx mom_idx acc variant
  = Ok acc' →
  Forall (candidate_of denovo ped variants) acc'.1
  ∧ Forall (het_site_of denovo ped variants) acc'.2.
Proof.
  intros Hin [Hcs Hhs]. unfold find_variant.
  destruct (is_complex variant) eqn:Hcomplex; [by intros [= <-]|].
  destruct (String.eqb (CHROM variant) "X" && (sex ped =? SEX_KEY_male)) eqn:HX;
    [by intros [= <-]|].
  destruct (inside_small_event denovo variant) eqn:Hsmall; [by intros [= <-]|].
  destruct (informative_site _ _ _ _ _ _ _ _ _) as [[het cand]|] eqn:Hsite;
    cbn [mbind result_bind]; [|done].
  intros [= <-]. cbn [fst snd].
  assert (∀ p ref alt, p = v_start variant → ref = REF variant →
            ALT variant !! 0%nat = Some alt →
            site_of denovo ped variants p ref alt) as Hsite_of.
  { intros p ref alt -> -> Halt. exists variant. split_and!; try done.
    - intros HchromX Hmale. rewrite HchromX in HX. cbn in HX.
      apply Z.eqb_neq in HX. done.
    - by apply is_complex_false_single. }
  split.
  - destruct cand as [c|]; cbn; [|done]. apply Forall_app. split; [done|].
    constructor; [|constructor].
    apply informative_site_accepts in Hsite
      as (gk & gd & gm & _ & _ & _ & Hp & Hr & Ha & _ & Hparents & _).
    split; [by apply Hsite_of|]. naive_solver.
  - destruct het as [h|]; cbn; [|done]. apply Forall_app. split; [done|].
    constructor; [|constructor].
    apply informative_site_het in Hsite as (Hp & Hr & Ha & _).
    by apply Hsite_of.
Qed.

Lemma Forall_sorted {A} (key : A → Z) (P : A → Prop) l :
  Forall P l → Forall P (sorted key l).
Proof. intros H. by rewrite sorted_perm. Qed.

(** The two ways [find_denovo] returns: the record as it was, or the record
    with the two lists of the loop, sorted. *)
Lemma find_denovo_cases vcf search_dist whole_region denovo out :
  find_denovo par tun pedigrees build vcf search_dist whole_region denovo = Ok out →
  out = denovo
  ∨ ∃ ped kid_idx dad_idx mom_idx cs hs,
      dict_get (kid denovo) pedigrees = Some ped
      ∧ for_each (find_variant tun whole_region denovo ped kid_idx dad_idx mom_idx)
          (get_position vcf denovo search_dist whole_region) ([], []) = Ok (cs, hs)
      ∧ out = set_sites denovo (Some (sorted c_pos cs)) (Some (sorted pos hs)).
Proof.
  unfold find_denovo.
  destruct (autophaseable _ _ _ _) as [[]|]; cbn [mbind result_bind]; [| |done].
  { intros [= <-]. by left. }
  unfold subscript.
  destruct (dict_get (kid denovo) pedigrees) as [ped|] eqn:Hped;
    cbn [expect mbind result_bind]; [|done].
  repeat case_match; try (intros [= <-]; by left).
  destruct (for_each _ _ _) as [[cs hs]|] eqn:Hloop; cbn [mbind result_bind]; [|done].
  intros [= <-]. right. by eexists ped, _, _, _, cs, hs.
Qed.

(** X6.  The per-DNM path leaves a record as it is (auto-phaseable, or a
    member of the trio missing from the callset) or sets both site lists.
    Every site it sets is the start, REF and ALT of a record that the region
    queries for this DNM returned, biallelic with one-base alleles, not
    inside the DNM when the DNM is shorter than 20, and not on a chromosome
    named [X] when the kid is male; every candidate names the kid's dad and
    mom of the pedigree, one as alternate and the other as reference
    parent. *)
Theorem find_denovo_sites vcf search_dist whole_region denovo out :
  find_denovo par tun pedigrees build vcf search_dist whole_region denovo = Ok out →
  out = denovo
  ∨ ∃ ped cs hs,
      dict_get (kid denovo) pedigrees = Some ped
      ∧ out = set_sites denovo (Some cs) (Some hs)
      ∧ Forall (candidate_of denovo ped
                  (get_position vcf denovo search_dist whole_region)) cs
      ∧ Forall (het_site_of denovo ped
                  (get_position vcf denovo search_dist whole_region)) hs.
Proof.
  intros [->|(ped & k & d & m & cs & hs & Hped & Hloop & ->)]%find_denovo_cases;
    [by left|right].
  exists ped, (sorted c_pos cs), (sorted pos hs). split; [done|]. split; [done|].
  apply (for_each_inv
           (λ acc, Forall (candidate_of denovo ped
                             (get_position vcf denovo search_dist whole_region)) acc.1
                   ∧ Forall (het_site_of denovo ped
                               (get_position vcf denovo search_dist whole_region)) acc.2)
           (λ v, v ∈ get_position vcf denovo search_dist whole_region))
    in Hloop as [Hcs Hhs].
  - split; by apply Forall_sorted.
  - intros acc variant acc' Hin Hacc. by apply find_variant_sites.
  - by apply Forall_forall.
  - by split.
Qed.
End PerDNMSites.

Lemma find_denovo_sites_witness :
  ∃ out,
    find_denovo example_par trio_tunables trio_pedigrees "38"
      (trio_vcf "" [informative_snv "1" 990]) 100 false (kid_dnm "1" 1000 1001)
    = Ok out
    ∧ (out = kid_dnm "1" 1000 1001
       ∨ ∃ ped cs hs,
           dict_get "kid" trio_pedigrees = Some ped
           ∧ out = set_sites (kid_dnm "1" 1000 1001) (Some cs) (Some hs)
           ∧ Forall (candidate_of (kid_dnm "1" 1000 1001) ped
                       [informative_snv "1" 990]) cs
           ∧ Forall (het_site_of (kid_dnm "1" 1000 1001) ped
                       [informative_snv "1" 990]) hs).
Proof.
  eexists. split; [by vm_compute|].
  apply (find_denovo_sites example_par trio_tunables trio_pedigrees "38"
           (trio_vcf "" [informative_snv "1" 990]) 100 false (kid_dnm "1" 1000 1001)).
  by vm_compute.
Defined.

(** ** What [find] gives back *)

(** Both site lists of the record, where present, ascend by position. *)
Definition sites_sorted (d : DNM) : Prop :=
  (∀ cs, candidate_sites d = Some cs → StronglySorted (λ a b, c_pos a ≤ c_pos b) cs)
  ∧ (∀ hs, het_sites d = Some hs → StronglySorted (λ a b, pos a ≤ pos b) hs).

(** The fields of a record that identify the de novo. *)
Definition dnm_key (d : DNM) : string * Z * Z * string * option string :=
  (chrom d, start d, end_ d, kid d, vartype d).

Lemma sort_sites_sorted d : sites_sorted (sort_sites d).
Proof.
  unfold sites_sorted, sort_sites. cbn. split.
  - intros cs. destruct (candidate_sites d); cbn; [|done].
    intros [= <-]. apply sorted_sorted.
  - intros hs. destruct (het_sites d); cbn; [|done].
    intros [= <-]. apply sorted_sorted.
Qed.

Lemma dnms_annotated_sorted vbs : Forall sites_sorted (dnms_annotated vbs).
Proof.
  unfold dnms_annotated. apply Forall_forall. intros d.
  intros (by_sample & _ & Hd%list_elem_of_In)%list_elem_of_In%in_flat_map.
  apply list_elem_of_In, in_flat_map in Hd as (by_chrom & _ & Hd%list_elem_of_In).
  apply list_elem_of_In, in_flat_map in Hd as (by_pos & _ & Hd).
  apply in_map_iff in Hd as (d0 & <- & _). apply sort_sites_sorted.
Qed.

Section dict_split.
Context {K V : Type} `{EqDecision K}.

Lemma dict_set_split (k : K) (v v0 : V) d :
  dict_get k d = Some v0 →
  ∃ d1 d2, d = d1 ++ (k, v0) :: d2 ∧ dict_set k v d = d1 ++ (k, v) :: d2.
Proof.
  induction d as [|[k' v'] d IH]; cbn; [done|]. case_decide as Hk.
  - intros [= ->]. subst k'. by exists [], d.
  - intros (d1 & d2 & -> & ->)%IH. by exists ((k', v') :: d1), d2.
Qed.

Lemma dict_set_new (k : K) (v : V) d :
  dict_get k d = None → dict_set k v d = d ++ [(k, v)].
Proof.
  induction d as [|[k' v'] d IH]; cbn; [done|]. case_decide; [done|].
  intros ->%IH. done.
Qed.

(** Replacing a value by one with the same image leaves the image of the
    concatenated values as it was. *)
Lemma flat_map_dict_set_same {T U} (g : V → list T) (F : T → U) k v v0 d :
  dict_get k d = Some v0 →
  F <$> g v = F <$> g v0 →
  F <$> flat_map (λ kv : K * V, g kv.2) (dict_set k v d)
  = F <$> flat_map (λ kv : K * V, g kv.2) d.
Proof.
  intros (d1 & d2 & -> & ->)%(dict_set_split k v) Hg.
  rewrite !flat_map_app. cbn [flat_map snd]. rewrite !fmap_app. congruence.
Qed.

(** Extending a value, or adding one, extends the concatenated values. *)
Lemma flat_map_dict_set_add {T} (g : V → list T) k v e d extra :
  g e = [] →
  g v ≡ₚ g (default e (dict_get k d)) ++ extra →
  flat_map (λ kv : K * V, g kv.2) (dict_set k v d)
  ≡ₚ flat_map (λ kv : K * V, g kv.2) d ++ extra.
Proof.
  intros He Hg. destruct (dict_get k d) as [v0|] eqn:Hget; cbn in Hg.
  - apply (dict_set_split k v) in Hget as (d1 & d2 & -> & ->).
    rewrite !flat_map_app. cbn [flat_map snd]. rewrite Hg.
    rewrite <- !app_assoc. f_equiv. f_equiv. apply Permutation_app_comm.
  - rewrite (dict_set_new _ _ _ Hget), flat_map_app. cbn [flat_map snd].
    by rewrite app_nil_r, Hg, He.
Qed.
End dict_split.

Lemma dnm_key_sort_sites d : dnm_key (sort_sites d) = dnm_key d.
Proof. done. Qed.

Lemma dnm_key_map_sort_sites l : dnm_key <$> map sort_sites l = dnm_key <$> l.
Proof. induction l as [|d l IH]; [done|]. cbn. by rewrite IH. Qed.

Lemma dnms_annotated_record_var d vbs :
  dnms_annotated (record_var d vbs) ≡ₚ dnms_annotated vbs ++ [sort_sites d].
Proof.
  unfold dnms_annotated, record_var.
  apply (flat_map_dict_set_add
           (λ by_chrom : dict string (dict Z (list DNM)),
              flat_map (λ kv, flat_map (λ by_pos : Z * list DNM,
                                          map sort_sites by_pos.2) kv.2) by_chrom)
           _ _ []); [done|].
  apply (flat_map_dict_set_add
           (λ by_pos : dict Z (list DNM),
              flat_map (λ kv : Z * list DNM, map sort_sites kv.2) by_pos)
           _ _ []); [done|].
  apply (flat_map_dict_set_add (λ l : list DNM, map sort_sites l) _ _ []); [done|].
  by rewrite map_app.
Qed.

Section FindKeeps.
Context (par : PARTables) (tun : Tunables).
Context (pedigrees : dict string Pedigree) (build : string).

Lemma create_lookups_perm_from dnms lk0 lk :
  for_each (create_lookups_step par pedigrees build) dnms lk0 = Ok lk →
  dnms_annotated (vars_by_sample lk)
  ≡ₚ dnms_annotated (vars_by_sample lk0)
     ++ (sort_sites <$> filter (λ d, autophaseable par pedigrees build d = Ok false) dnms)
  ∧ dnms_autophase lk ++ dnms_nonautophase lk
    ≡ₚ (dnms_autophase lk0 ++ dnms_nonautophase lk0) ++ dnms.
Proof.
  revert lk0. induction dnms as [|d dnms IH]; intros lk0; cbn [for_each].
  { intros [= <-]. by rewrite filter_nil, !app_nil_r. }
  destruct (create_lookups_step par pedigrees build lk0 d) as [lk1|] eqn:Hstep;
    cbn [mbind result_bind]; [|done].
  intros [Hv Hp]%IH. unfold create_lookups_step in Hstep.
  destruct (autophaseable par pedigrees build d) as [[]|] eqn:Hauto;
    cbn [mbind result_bind] in Hstep; [| |done]; injection Hstep as <-;
    cbn [dnms_autophase dnms_nonautophase vars_by_sample] in *;
    rewrite filter_cons, Hauto; case_decide; try done.
  - split; [done|]. rewrite Hp, <- !app_assoc. f_equiv. cbn.
    apply Permutation_middle.
  - split.
    + by rewrite Hv, dnms_annotated_record_var, <- app_assoc.
    + rewrite Hp. by rewrite <- !app_assoc.
Qed.

Lemma mapM_add_variant_keys variant whole_region kid_idx dad_idx mom_idx dad mom
    denovos denovos' :
  mapM (add_variant_to par tun pedigrees build variant whole_region
          kid_idx dad_idx mom_idx dad mom) denovos = Ok denovos' →
  dnm_key <$> denovos' = dnm_key <$> denovos.
Proof.
  intros Hmap%mapM_Ok_Forall2.
  induction Hmap as [|d d' l l' Hd _ IH]; [done|]. cbn. f_equal; [|done].
  apply add_variant_to_effect in Hd as (newc & newh & (?&?&?&?&?&_) & _).
  unfold dnm_key. congruence.
Qed.

Lemma add_good_candidate_variant_keys variant vbs key whole_region sample_dict
    vbs' b :
  add_good_candidate_variant par tun pedigrees build variant vbs key
    whole_region sample_dict = Ok (vbs', b) →
  dnm_key <$> dnms_annotated vbs' = dnm_key <$> dnms_annotated vbs.
Proof.
  destruct key as [[k c] p]. unfold add_good_candidate_variant.
  destruct (get_family_indexes _ _ _) as [idx|]; cbn [mbind result_bind]; [|done].
  destruct (subscript pedigrees k) as [ped|]; cbn [mbind result_bind]; [|done].
  destruct idx as [[[kid_idx dad_idx] mom_idx]|]; [|by intros [= <- _]].
  unfold subscript.
  destruct (dict_get k vbs) as [by_chrom|] eqn:Hk; cbn; [|done].
  destruct (dict_get c by_chrom) as [by_pos|] eqn:Hc; cbn; [|done].
  destruct (dict_get p by_pos) as [denovos|] eqn:Hp; [|by intros [= <- _]].
  destruct (mapM _ denovos) as [denovos'|] eqn:Hmap; cbn; [|done].
  intros [= <- _]. apply mapM_add_variant_keys in Hmap.
  unfold dnms_annotated.
  apply (flat_map_dict_set_same
           (λ by_chrom : dict string (dict Z (list DNM)),
              flat_map (λ kv, flat_map (λ by_pos : Z * list DNM,
                                          map sort_sites by_pos.2) kv.2) by_chrom)
           dnm_key _ _ _ _ Hk).
  apply (flat_map_dict_set_same
           (λ by_pos : dict Z (list DNM),
              flat_map (λ kv : Z * list DNM, map sort_sites kv.2) by_pos)
           dnm_key _ _ _ _ Hc).
  apply (flat_map_dict_set_same (λ l : list DNM, map sort_sites l)
           dnm_key _ _ _ _ Hp).
  cbn beta. by rewrite !dnm_key_map_sort_sites.
Qed.

Lemma scan_variant_keys sbl search_dist whole_region sample_dict vbs variant vbs' :
  scan_variant par tun pedigrees build sbl search_dist whole_region sample_dict
    vbs variant = Ok vbs' →
  dnm_key <$> dnms_annotated vbs' = dnm_key <$> dnms_annotated vbs.
Proof.
  unfold scan_variant. case_match; [by intros [= <-]|].
  destruct (get_close_vars _ _ _ _ _ _) as [keys|]; cbn [mbind result_bind]; [|done].
  apply (for_each_inv
           (λ v, dnm_key <$> dnms_annotated v = dnm_key <$> dnms_annotated vbs)
           (λ _, True)); [|apply Forall_True|done].
  intros s key s' _ Hs.
  destruct (add_good_candidate_variant _ _ _ _ _ _ _ _ _) as [[s1 b]|] eqn:Hkey;
    cbn [mbind result_bind]; [|done].
  intros [= <-]. apply add_good_candidate_variant_keys in Hkey. congruence.
Qed.

(** X7.  [find] neither loses nor invents a record: when it returns a
    list, the identifying fields (chromosome, start, end, kid, variant type)
    of the output records are those of the input records, each as often as
    in the input; below the batch threshold they are also in input order.
    Every output record is an input record handed back as it was or has both
    of its site lists, where present, in ascending order of position. *)
Theorem find_keeps_records dnms vcf search_dist multithread_proc_min whole_region out :
  find par tun pedigrees build dnms vcf search_dist multithread_proc_min whole_region
  = Ok (Some out) →
  dnm_key <$> out ≡ₚ dnm_key <$> dnms
  ∧ (Z.of_nat (length dnms) < multithread_proc_min →
     dnm_key <$> out = dnm_key <$> dnms)
  ∧ Forall (λ d, d ∈ dnms ∨ sites_sorted d) out.
Proof.
  unfold find. destruct (Z.leb_spec multithread_proc_min (Z.of_nat (length dnms))).
  - destruct (find_many _ _ _ _ _ _ _ _) as [out'|] eqn:Hmany; [|done].
    intros [= <-]. split_and!; [| lia |].
    + apply find_many_stream in Hmany as (lk & variants & vbs' & Hlk & Hscan & ->).
      apply (for_each_inv
               (λ v, dnm_key <$> dnms_annotated v
                     = dnm_key <$> dnms_annotated (vars_by_sample lk))
               (λ _, True)) in Hscan; [|by eauto using scan_variant_keys, eq_trans
                                        |apply Forall_True|done].
      pose proof (create_lookups_from par pedigrees build _ _ _ Hlk) as (_ & Hn & _).
      apply create_lookups_perm_from in Hlk as [Hv Hp]. cbn in Hv, Hp, Hn.
      rewrite fmap_app, Hscan, Hv, <- Hn, <- list_fmap_compose.
      rewrite <- Hp, (Permutation_app_comm (dnms_autophase lk)), fmap_app.
      f_equiv. by erewrite list_fmap_ext.
    + apply find_many_stream in Hmany as (lk & variants & vbs' & Hlk & Hscan & ->).
      apply Forall_app. split.
      * eapply Forall_impl; [apply dnms_annotated_sorted|]. by right.
      * apply create_lookups_partition in Hlk as [-> _].
        apply Forall_forall. intros d [_ ?]%list_elem_of_filter. by left.
  - destruct (Z.leb_spec (Z.of_nat (length dnms)) 0); [done|].
    destruct (mapM _ dnms) as [out'|] eqn:Hmap; [|done]. intros [= <-].
    apply mapM_Ok_Forall2 in Hmap.
    assert (dnm_key <$> out' = dnm_key <$> dnms
            ∧ Forall (λ d, d ∈ dnms ∨ sites_sorted d) out') as [Hkeys Hsorted].
    { clear -Hmap. induction Hmap as [|d d' l l' Hd _ [IHk IHs]]; [done|].
      cbn. split.
      - f_equal; [|done].
        by apply find_denovo_cases in Hd as [->|(?&?&?&?&?&?&_&_&->)].
      - constructor.
        + apply find_denovo_cases in Hd as [->|(?&?&?&?&cs&hs&_&_&->)]; [left; left|].
          right. split; cbn; intros ? [= <-]; apply sorted_sorted.
        + eapply Forall_impl; [exact IHs|]. intros x [?|?]; [left; by right|by right]. }
    split_and!; [by rewrite Hkeys|done|done].
Qed.
End FindKeeps.

Lemma find_keeps_records_witness :
  ∃ out,
    find example_par trio_tunables trio_pedigrees "38"
      [kid_dnm "1" 1000 1001; kid_dnm "X" 5000000 5000001; kid_dnm "1" 200 300]
      (trio_vcf "" [informative_snv "1" 990]) 100 1 false = Ok (Some out)
    ∧ dnm_key <$> out
      ≡ₚ dnm_key <$> [kid_dnm "1" 1000 1001; kid_dnm "X" 5000000 5000001;
                      kid_dnm "1" 200 300].
Proof.
  eexists. split; [by vm_compute|].
  eapply (find_keeps_records example_par trio_tunables trio_pedigrees "38"
            [kid_dnm "1" 1000 1001; kid_dnm "X" 5000000 5000001; kid_dnm "1" 200 300]
            (trio_vcf "" [informative_snv "1" 990]) 100 1 false).
  by vm_compute.
Defined.

(** ** The reach of a streamed variant in the batched path *)

(** [variant] reaches the slot [vars_by_sample[k][c][p]], which holds [ds]:
    its chromosome name is [c] itself and its position is within the search
    distance of [p] (start/end mode) or of one of the records of the slot
    (whole-region mode). *)
Definition reaches (search_dist : Z) (whole_region : bool) (variant : Variant)
    (c : string) (p : Z) (ds : list DNM) : Prop :=
  CHROM variant = c
  ∧ if whole_region
    then ∃ d, d ∈ ds ∧ start d - search_dist ≤ POS variant ≤ end_ d + search_dist
    else p - search_dist ≤ POS variant ≤ p + search_dist.

Section Reach.
Context (par : PARTables) (tun : Tunables).
Context (pedigrees : dict string Pedigree) (build : string).
Context (sbl : dict string (dict Z (list string))).
Context (search_dist : Z) (whole_region : bool) (sample_dict : dict string nat).

Lemma get_close_vars_reaches vbs variant keys k c p :
  vbs_keyed vbs →
  get_close_vars (CHROM variant) (POS variant) sbl vbs search_dist whole_region
  = Ok keys →
  (k, c, p) ∈ keys →
  reaches search_dist whole_region variant c p (slot vbs k c p).
Proof.
  intros Hkeyed ->%get_close_vars_spec.
  intros (loc & _ & Hin%list_elem_of_In)%list_elem_of_In%in_flat_map.
  unfold keys_at in Hin. unfold reaches. destruct whole_region.
  - apply list_elem_of_In, in_flat_map in Hin as (s & _ & Hin%list_elem_of_In).
    apply list_elem_of_omap in Hin as (d & Hd & Hkey). unfold key_in_range in Hkey.
    case_match eqn:Hrange; [|done]. injection Hkey as <- <- <-.
    apply andb_prop in Hrange as [?%Z.leb_le ?%Z.leb_le].
    split; [done|]. exists d. split; [by rewrite (Hkeyed _ _ _ _ Hd)|lia].
  - case_match eqn:Hrange; [|by apply elem_of_nil in Hin].
    apply andb_prop in Hrange as [?%Z.leb_le ?%Z.leb_le].
    apply list_elem_of_fmap in Hin as (s & [= -> -> ->] & _). split; [done|]. lia.
Qed.

Lemma add_good_candidate_variant_other variant vbs key vbs' b k c p :
  add_good_candidate_variant par tun pedigrees build variant vbs key
    whole_region sample_dict = Ok (vbs', b) →
  (k, c, p) ≠ key →
  slot vbs' k c p = slot vbs k c p.
Proof.
  destruct key as [[k0 c0] p0]. unfold add_good_candidate_variant.
  destruct (get_family_indexes _ _ _) as [idx|]; cbn [mbind result_bind]; [|done].
  destruct (subscript pedigrees k0) as [ped|]; cbn [mbind result_bind]; [|done].
  destruct idx as [[[kid_idx dad_idx] mom_idx]|]; [|by intros [= <- _]].
  unfold subscript.
  destruct (dict_get k0 vbs) as [by_chrom|] eqn:Hk; cbn; [|done].
  destruct (dict_get c0 by_chrom) as [by_pos|] eqn:Hc; cbn; [|done].
  destruct (dict_get p0 by_pos) as [denovos|] eqn:Hp; [|by intros [= <- _]].
  destruct (mapM _ denovos) as [denovos'|]; cbn; [|done].
  intros [= <- _] Hne. rewrite (slot_update _ _ _ _ _ _ _ _ _ _ Hk Hc).
  by case_decide.
Qed.

Lemma scan_variant_keyed vbs variant vbs' :
  vbs_keyed vbs →
  scan_variant par tun pedigrees build sbl search_dist whole_region sample_dict
    vbs variant = Ok vbs' →
  vbs_keyed vbs'.
Proof.
  intros Hkeyed. unfold scan_variant. case_match; [by intros [= <-]|].
  destruct (get_close_vars _ _ _ _ _ _) as [keys|]; cbn [mbind result_bind]; [|done].
  apply (for_each_inv vbs_keyed (λ _, True)); [|apply Forall_True|done].
  intros s key s' _ Hs.
  destruct (add_good_candidate_variant _ _ _ _ _ _ _ _ _) as [[s1 b]|] eqn:Hkey;
    cbn [mbind result_bind]; [|done].
  intros [= <-].
  by apply add_good_candidate_variant_effect in Hkey as (? & _).
Qed.

Lemma scan_variant_out_of_reach vbs variant vbs' k c p :
  vbs_keyed vbs →
  scan_variant par tun pedigrees build sbl search_dist whole_region sample_dict
    vbs variant = Ok vbs' →
  ¬ reaches search_dist whole_region variant c p (slot vbs k c p) →
  slot vbs' k c p = slot vbs k c p.
Proof.
  intros Hkeyed Hscan Hout. unfold scan_variant in Hscan.
  destruct (is_complex variant); [by simplify_eq|].
  destruct (get_close_vars _ _ _ _ _ _) as [keys|] eqn:Hkeys;
    cbn [mbind result_bind] in Hscan; [|done].
  assert ((k, c, p) ∉ keys) as Hnot.
  { intros Hin. by apply Hout, (get_close_vars_reaches _ _ keys). }
  clear Hkeys Hout Hkeyed. revert vbs Hscan.
  induction keys as [|key keys IH]; intros vbs; cbn [for_each].
  - by intros [= <-].
  - apply not_elem_of_cons in Hnot as [Hne Hnot].
    destruct (add_good_candidate_variant _ _ _ _ _ _ _ _ _) as [[s1 b]|] eqn:Hkey;
      cbn [mbind result_bind]; [|done].
    intros Hrest%(IH Hnot). cbn [fst] in Hrest. rewrite Hrest.
    by eapply add_good_candidate_variant_other.
Qed.

(** X8.  In the batched path a stream of variants leaves the slot of a
    DNM, [vars_by_sample[k][c][p]], as it was unless one of them reaches it:
    a variant whose chromosome name is not the string [c] itself never does
    (the name is not normalised), nor, in start/end mode, one whose POS is
    more than the search distance away from [p], the DNM's start; in
    whole-region mode it must lie within the search distance of the span
    of a record of the slot. *)
Theorem scan_stream_out_of_reach variants vbs vbs' k c p :
  vbs_keyed vbs →
  Forall (λ variant,
            ¬ reaches search_dist whole_region variant c p (slot vbs k c p))
    variants →
  for_each (scan_variant par tun pedigrees build sbl search_dist whole_region
              sample_dict) variants vbs = Ok vbs' →
  slot vbs' k c p = slot vbs k c p.
Proof.
  intros Hkeyed Hout. revert vbs Hkeyed Hout.
  induction variants as [|variant variants IH]; intros vbs Hkeyed Hout;
    cbn [for_each].
  - by intros [= <-].
  - apply Forall_cons in Hout as [Hv Hout].
    destruct (scan_variant _ _ _ _ _ _ _ _ _ _) as [vbs1|] eqn:Hscan;
      cbn [mbind result_bind]; [|done].
    pose proof (scan_variant_out_of_reach _ _ _ _ _ _ Hkeyed Hscan Hv) as Hsame.
    intros Hrest. rewrite <- Hsame. apply IH; [| |done].
    + by eapply scan_variant_keyed.
    + by rewrite Hsame.
Qed.
End Reach.

Lemma create_lookups_keyed par pedigrees build dnms lk :
  create_lookups par pedigrees build dnms = Ok lk → vbs_keyed (vars_by_sample lk).
Proof.
  intros (_ & Hslot & _)%create_lookups_ok k c p d. rewrite Hslot.
  by intros [(_ & _ & ?) _]%list_elem_of_filter.
Qed.

(** A DNM written [chr1] against a callset that writes [1]. *)
Definition prefixed_lookups : Lookups :=
  match create_lookups example_par trio_pedigrees "38" [kid_dnm "chr1" 1000 1001] with
  | Ok lk => lk
  | Raise _ => empty_lookups
  end.

Definition prefixed_result : dict string (dict string (dict Z (list DNM))) :=
  match for_each (scan_variant example_par trio_tunables trio_pedigrees "38"
                    (samples_by_location prefixed_lookups) 100 false
                    (sample_dict_of (trio_vcf "" [])))
          [informative_snv "1" 990] (vars_by_sample prefixed_lookups) with
  | Ok vbs => vbs
  | Raise _ => []
  end.

Lemma scan_stream_out_of_reach_witness :
  slot prefixed_result "kid" "chr1" 1000
  = slot (vars_by_sample prefixed_lookups) "kid" "chr1" 1000.
Proof.
  apply (scan_stream_out_of_reach example_par trio_tunables trio_pedigrees "38"
           (samples_by_location prefixed_lookups) 100 false
           (sample_dict_of (trio_vcf "" [])) [informative_snv "1" 990]
           (vars_by_sample prefixed_lookups) prefixed_result "kid" "chr1" 1000).
  - apply (create_lookups_keyed example_par trio_pedigrees "38"
             [kid_dnm "chr1" 1000 1001]).
    by vm_compute.
  - repeat constructor. intros [Hchrom _]. discriminate Hchrom.
  - by vm_compute.
Defined.

(** ** The allele a read pair carries *)

Lemma position_of_Some x l i :
  position_of x l = Some i →
  l !! i = Some x ∧ ∀ j, (j < i)%nat → l !! j ≠ Some x.
Proof.
  revert i. induction l as [|y l IH]; intros i; cbn; [done|].
  case_decide as Hy.
  - intros [= <-]. subst y. split; [done|]. lia.
  - destruct (position_of x l) as [i'|]; cbn; [|done]. intros [= <-].
    destruct (IH i' eq_refl) as [Hi Hfirst]. split; [done|].
    intros [|j] Hj; cbn; [congruence|]. apply Hfirst. lia.
Qed.

Lemma position_of_None x l : position_of x l = None ↔ x ∉ l.
Proof.
  induction l as [|y l IH]; cbn; [split; [intros _; apply not_elem_of_nil|done]|].
  rewrite not_elem_of_cons. case_decide as Hy; [naive_solver|].
  destruct (position_of x l); cbn; naive_solver.
Qed.

Lemma string_get_lt s i :
  (i < String.length s)%nat → ∃ c, String.get i s = Some c.
Proof.
  revert i. induction s as [|a s IH]; intros i; cbn; [lia|].
  destruct i as [|i]; [by exists a|]. intros Hi. apply IH. lia.
Qed.

(** The read has a base for every reference position it lists, as
    [get_reference_positions(full_length=True)] gives one entry per base. *)
Definition read_wf (read : AlignedSegment) : Prop :=
  (length (reference_positions read) ≤ String.length (query_sequence read))%nat.

(** The base of [src] at the first offset aligned to [pos]. *)
Definition first_base_at (src : AlignedSegment) (pos : Z) (b : string) : Prop :=
  ∃ i c,
    reference_positions src !! i = Some (Some pos)
    ∧ (∀ j, (j < i)%nat → reference_positions src !! j ≠ Some (Some pos))
    ∧ String.get i (query_sequence src) = Some c
    ∧ b = String c EmptyString.

Lemma base_at_first src pos i :
  read_wf src →
  position_of (Some pos) (reference_positions src) = Some i →
  ∃ b, base_at src i = Ok b ∧ first_base_at src pos b.
Proof.
  intros Hwf [Hi Hfirst]%position_of_Some.
  destruct (string_get_lt (query_sequence src) i) as [c Hc].
  { apply lookup_lt_Some in Hi. unfold read_wf in Hwf. lia. }
  exists (String c EmptyString). unfold base_at. rewrite Hc. split; [done|].
  by exists i, c.
Qed.

(** X9.  On reads that have a base for each listed reference position,
    [get_allele_at] does not raise.  It returns nothing exactly when neither
    the read nor the mate is aligned to the position; otherwise it returns
    the one base at the first offset aligned to the position, of the read
    if the read covers it and of the mate only if the read does not. *)
Theorem get_allele_at_covered read mate pos :
  read_wf read → read_wf mate →
  ∃ r,
    get_allele_at read mate pos = Ok r
    ∧ (r = None ↔ (Some pos ∉ reference_positions read)
                  ∧ (Some pos ∉ reference_positions mate))
    ∧ ∀ b, r = Some b →
        first_base_at read pos b
        ∨ ((Some pos ∉ reference_positions read) ∧ first_base_at mate pos b).
Proof.
  intros Hread Hmate. unfold get_allele_at.
  destruct (position_of (Some pos) (reference_positions read)) as [i|] eqn:Hi.
  - destruct (base_at_first read pos i Hread Hi) as (b & -> & Hb).
    exists (Some b). split; [done|]. split.
    + split; [done|]. intros [Hnot _]. by apply position_of_None in Hnot; simplify_eq.
    + intros ? [= <-]. by left.
  - pose proof (proj1 (position_of_None _ _) Hi) as Hnot.
    destruct (position_of (Some pos) (reference_positions mate)) as [j|] eqn:Hj.
    + destruct (base_at_first mate pos j Hmate Hj) as (b & -> & Hb).
      exists (Some b). split; [done|]. split.
      * split; [done|]. intros [_ Hnot']. by apply position_of_None in Hnot'; simplify_eq.
      * intros ? [= <-]. by right.
    + exists None. split; [done|]. split; [|done].
      split; [|done]. intros _. split; [done|]. by apply position_of_None.
Qed.

Lemma get_allele_at_covered_witness :
  ∃ r, get_allele_at read_s (mate_of read_s) 15 = Ok r
       ∧ (r = None ↔ (Some 15 ∉ reference_positions read_s)
                     ∧ (Some 15 ∉ reference_positions (mate_of read_s)))
       ∧ ∀ b, r = Some b →
           first_base_at read_s 15 b
           ∨ ((Some 15 ∉ reference_positions read_s)
              ∧ first_base_at (mate_of read_s) 15 b).
Proof.
  apply (get_allele_at_covered read_s (mate_of read_s) 15);
    unfold read_wf; cbn; lia.
Defined.

(** ** The supporting reads of the SV collector *)

(** Two records that passed [goodread], one the mate of the other. *)
Definition mate_pair (bamfile : AlignmentFile) (a b : AlignedSegment) : Prop :=
  goodread a = true ∧ goodread b = true
  ∧ (mate bamfile a = Some b ∨ mate bamfile b = Some a).

(** The list is a sequence of such pairs. *)
Definition in_mate_pairs (bamfile : AlignmentFile) (l : list AlignedSegment) : Prop :=
  ∃ pairs : list (AlignedSegment * AlignedSegment),
    l = flat_map (λ ab, [ab.1; ab.2]) pairs
    ∧ Forall (λ ab, mate_pair bamfile ab.1 ab.2) pairs.

Lemma in_mate_pairs_snoc bamfile l a b :
  in_mate_pairs bamfile l → mate_pair bamfile a b →
  in_mate_pairs bamfile (l ++ [a; b]).
Proof.
  intros (pairs & -> & Hpairs) Hab. exists (pairs ++ [(a, b)]). split.
  - by rewrite flat_map_app.
  - apply Forall_app. split; [done|]. constructor; [done|constructor].
Qed.

Lemma sv_read_pairs bamfile region position var_len concordant_upper_len l read l' :
  in_mate_pairs bamfile l →
  sv_read bamfile region position var_len concordant_upper_len l read = Ok l' →
  in_mate_pairs bamfile l'.
Proof.
  intros Hl. unfold sv_read.
  destruct (goodread read) eqn:Hread; cbn [negb]; [|by intros [= <-]].
  destruct (mate bamfile read) as [mate0|] eqn:Hmate; [|by intros [= <-]].
  destruct (goodread mate0) eqn:Hmate0; cbn [negb]; [|by intros [= <-]].
  assert (mate_pair bamfile read mate0) as Hpair by (split_and!; auto).
  assert (mate_pair bamfile mate0 read) as Hpair' by (split_and!; auto).
  destruct (has_SA read).
  { case_match; intros [= <-]; [by apply in_mate_pairs_snoc|done]. }
  destruct (if num_ltb _ _ then _ else _) as [discordant|];
    cbn [mbind result_bind]; [|done].
  destruct discordant.
  - destruct (num_int concordant_upper_len); cbn [mbind result_bind]; [|done].
    case_match; intros [= <-]; [done|by apply in_mate_pairs_snoc].
  - repeat case_match; intros [= <-]; try done; by apply in_mate_pairs_snoc.
Qed.

(** X10.  Without extended grouping the SV collector returns, under
    ["alt"], a sequence of pairs of records that both passed [goodread], one
    the mate of the other, and nothing under ["ref"]. *)
Theorem collect_reads_sv_mate_pairs np_percentile binary_search fuel bamfile
    region het_sites concordant_upper_len out :
  collect_reads_sv np_percentile binary_search fuel bamfile region het_sites
    true concordant_upper_len = Some (Ok out) →
  in_mate_pairs bamfile (on_alt out) ∧ on_ref out = [].
Proof.
  unfold collect_reads_sv.
  destruct (sv_supporting_reads _ _ _ _) as [l|] eqn:Hrun; [|done].
  intros [= <-]. split; [|done]. cbn [on_alt].
  unfold sv_supporting_reads in Hrun.
  destruct (concordant_or_estimate _ _ _) as [c|]; cbn [mbind result_bind] in Hrun;
    [|done].
  apply (for_each_inv (in_mate_pairs bamfile) (λ _, True)) in Hrun;
    [done| |apply Forall_True|by exists []].
  intros l0 position l1 _ Hl0. unfold sv_breakpoint.
  destruct (fetch_retry _ _ _ _ _ _ _) as [bam_iter|]; cbn [mbind result_bind];
    [|done].
  apply (for_each_inv (in_mate_pairs bamfile) (λ _, True));
    [|apply Forall_True|done].
  intros l2 read l3 _. apply sv_read_pairs.
Qed.

Definition split_read : AlignedSegment :=
  {| query_name := "sp"; is_qcfail := false; is_unmapped := false;
     is_duplicate := false; mapping_quality := 60; is_secondary := false;
     is_supplementary := false; mate_is_unmapped := false;
     next_reference_id := 0; reference_id := 0;
     reference_start := 98; reference_end := 150; tlen := 400;
     reference_positions := [Some 98]; query_sequence := "A"; has_SA := true |}.

(** An alignment file whose every query returns one split read that starts
    two bases before position 100. *)
Definition split_bam : AlignmentFile :=
  {| alignments := [split_read];
     fetch := λ _ _ _, Some [split_read];
     mate := λ read,
       if reference_start read =? 300 then Some split_read
       else Some (mate_of read) |}.

Lemma collect_reads_sv_mate_pairs_witness :
  ∃ out,
    collect_reads_sv largest_value spanned_sites 0 split_bam (kid_dnm "1" 100 5000)
      [] true (Some (PyInt 500)) = Some (Ok out)
    ∧ on_alt out = [split_read; mate_of split_read]
    ∧ in_mate_pairs split_bam (on_alt out) ∧ on_ref out = [].
Proof.
  eexists. split; [by vm_compute|]. split; [done|].
  apply (collect_reads_sv_mate_pairs largest_value spanned_sites 0 split_bam
           (kid_dnm "1" 100 5000) [] (Some (PyInt 500))).
  by vm_compute.
Defined.

(** ** The seeds of the grouper *)

Section Seeds.
Context (binary_search : Z → Z → list HetSite → list HetSite).
Context (bamfile : AlignmentFile) (het_sites : list HetSite).

(** What one seed does to the state of the seed loop; [P] is any property
    of the entries of [fetched_reads] that the seed's own entry has. *)
Lemma seed_read_effect sd read sd' :
  seed_read binary_search bamfile het_sites sd read = Ok sd' →
  seed_names sd' = seed_names sd ∪ {[query_name read]}
  ∧ seed_new sd' = seed_new sd ++ [(query_name read, -1)]
  ∧ (∀ k, is_Some (dict_get k (fetched_reads (seed_ix sd))) →
          is_Some (dict_get k (fetched_reads (seed_ix sd'))))
  ∧ (∀ m, mate bamfile read = Some m →
          is_Some (dict_get (query_name read) (fetched_reads (seed_ix sd'))))
  ∧ (∀ P : string → AlignedSegment * AlignedSegment → Prop,
       (∀ m, mate bamfile read = Some m → P (query_name read) (read, m)) →
       (∀ k v, dict_get k (fetched_reads (seed_ix sd)) = Some v → P k v) →
       ∀ k v, dict_get k (fetched_reads (seed_ix sd')) = Some v → P k v).
Proof.
  unfold seed_read. destruct (mate bamfile read) as [m|] eqn:Hmate.
  - assert (∀ rs sr,
              let ix' := {| fetched_reads :=
                              dict_set (query_name read) (read, m)
                                (fetched_reads (seed_ix sd));
                            read_sites := rs; site_reads := sr |} in
              (∀ k, is_Some (dict_get k (fetched_reads (seed_ix sd))) →
                    is_Some (dict_get k (fetched_reads ix')))
              ∧ (∀ m0, Some m = Some m0 →
                       is_Some (dict_get (query_name read) (fetched_reads ix')))
              ∧ (∀ P : string → AlignedSegment * AlignedSegment → Prop,
                   (∀ m0, Some m = Some m0 → P (query_name read) (read, m0)) →
                   (∀ k v, dict_get k (fetched_reads (seed_ix sd)) = Some v → P k v) →
                   ∀ k v, dict_get k (fetched_reads ix') = Some v → P k v)) as Hix.
    { intros rs sr. cbn. split_and!.
      - intros k Hk. rewrite dict_get_set. by case_decide.
      - intros _ _. by rewrite dict_get_set_eq.
      - intros P Hnew Hold k v. rewrite dict_get_set. case_decide as Hk; [|apply Hold].
        intros [= <-]. subst k. by apply Hnew. }
    case_match.
    + intros [= <-]. cbn [seed_names seed_new seed_ix]. split; [done|]. split; [done|].
      apply Hix.
    + destruct (expect _ _) as [het_site|]; cbn [mbind result_bind]; [|done].
      intros [= <-]. cbn [seed_names seed_new seed_ix]. split; [done|].
      split; [done|]. apply Hix.
  - intros [= <-]. cbn [seed_names seed_new seed_ix]. by split_and!.
Qed.

Lemma seed_loop_effect seeds sd sd' :
  for_each (seed_read binary_search bamfile het_sites) seeds sd = Ok sd' →
  seed_names sd' = seed_names sd ∪ list_to_set (query_name <$> seeds)
  ∧ seed_new sd' = seed_new sd ++ ((λ read, (query_name read, -1)) <$> seeds)
  ∧ (∀ k, is_Some (dict_get k (fetched_reads (seed_ix sd))) →
          is_Some (dict_get k (fetched_reads (seed_ix sd'))))
  ∧ (∀ read m, read ∈ seeds → mate bamfile read = Some m →
          is_Some (dict_get (query_name read) (fetched_reads (seed_ix sd'))))
  ∧ (∀ P : string → AlignedSegment * AlignedSegment → Prop,
       (∀ read m, read ∈ seeds → mate bamfile read = Some m →
                  P (query_name read) (read, m)) →
       (∀ k v, dict_get k (fetched_reads (seed_ix sd)) = Some v → P k v) →
       ∀ k v, dict_get k (fetched_reads (seed_ix sd')) = Some v → P k v).
Proof.
  revert sd. induction seeds as [|read seeds IH]; intros sd; cbn [for_each].
  { intros [= <-]. split_and!; try done.
    - cbn. set_solver.
    - by rewrite app_nil_r.
    - by intros ? ? ?%elem_of_nil. }
  destruct (seed_read _ _ _ _ _) as [sd1|] eqn:Hseed; cbn [mbind result_bind];
    [|done].
  apply seed_read_effect in Hseed as (Hn1 & Hq1 & Hk1 & Hm1 & HP1).
  intros (Hn & Hq & Hk & Hm & HP)%IH. split_and!.
  - rewrite Hn, Hn1. cbn. set_solver.
  - rewrite Hq, Hq1. cbn. by rewrite <- app_assoc.
  - auto.
  - intros r m [->|Hin]%elem_of_cons Hmate; [|by eapply Hm]. by eapply Hk, Hm1.
  - intros P Hnew Hold. apply HP.
    + intros r m Hin. apply Hnew. by right.
    + apply HP1; [|done]. intros m. apply Hnew. by left.
Qed.
End Seeds.

(** The key of an entry of [fetched_reads] is the name of its first record. *)
Definition keyed_by_name (fetched : dict string (AlignedSegment * AlignedSegment))
    : Prop :=
  ∀ k v, dict_get k fetched = Some v → query_name v.1 = k.

Lemma index_fetched_read_keyed bamfile het_site ix i_read :
  keyed_by_name (fetched_reads ix) →
  keyed_by_name (fetched_reads (index_fetched_read bamfile het_site ix i_read)).
Proof.
  intros Hix. unfold index_fetched_read. repeat case_match; try done.
  cbn [fetched_reads]. intros k v. rewrite dict_get_set. case_decide; [|apply Hix].
  by intros [= <-].
Qed.

Lemma index_het_site_keyed bamfile region ix het_site ix' :
  keyed_by_name (fetched_reads ix) →
  index_het_site bamfile region ix het_site = Ok ix' →
  keyed_by_name (fetched_reads ix').
Proof.
  intros Hix. unfold index_het_site.
  destruct (fetch_retry _ _ _ _ _ _ _) as [bam_iter|]; cbn [mbind result_bind];
    [|done].
  intros [= <-]. revert ix Hix.
  generalize (zip (seq 0 (length bam_iter)) bam_iter).
  intros l. induction l as [|x l IH]; intros ix Hix; cbn [fold_left]; [done|].
  by apply IH, index_fetched_read_keyed.
Qed.

(** What the grouper holds when the closure has returned. *)
Lemma connected_reads_of_facts binary_search fuel bamfile region grouped_reads
    het_sites ix connected_reads :
  connected_reads_of binary_search fuel bamfile region grouped_reads het_sites
  = Some (Ok (ix, connected_reads)) →
  (∀ read, read ∈ on_alt grouped_reads →
           query_name read ∈ on_alt connected_reads
           ∧ query_name read ∉ on_ref connected_reads)
  ∧ (∀ read m, read ∈ on_alt grouped_reads → mate bamfile read = Some m →
               is_Some (dict_get (query_name read) (fetched_reads ix)))
  ∧ keyed_by_name (fetched_reads ix).
Proof.
  unfold connected_reads_of. intros Hrun.
  destruct (for_each (index_het_site bamfile region) het_sites _) as [ix0|] eqn:Hix0;
    cbn [mbind result_bind] in Hrun; [|done].
  destruct (for_each (seed_read binary_search bamfile het_sites) _ _) as [sd|] eqn:Hseeds;
    [|done].
  apply seed_loop_effect in Hseeds as (Hnames & _ & _ & Hmates & HP).
  cbn in Hnames, HP.
  destruct (connect_reads _ _ _ _ _ _) as [[g'|]|] eqn:Hconn; [|done|done].
  injection Hrun as <- <-.
  apply connect_reads_grows in Hconn as ([Halt _] & _ & Hdis). cbn in Halt, Hdis.
  split_and!.
  - intros read Hin.
    assert (query_name read ∈ on_alt g') as Hread.
    { apply Halt. rewrite Hnames. apply elem_of_union_r, elem_of_list_to_set.
      apply list_elem_of_fmap. by exists read. }
    split; [done|]. specialize (Hdis ltac:(set_solver)). set_solver.
  - done.
  - assert (keyed_by_name (fetched_reads ix0)) as Hkeyed.
    { apply (for_each_inv (λ ix, keyed_by_name (fetched_reads ix)) (λ _, True))
        in Hix0; [done| |apply Forall_True|done].
      intros s x s' _ Hs. by apply index_het_site_keyed. }
    intros k v. by apply (HP (λ k v, query_name v.1 = k)).
Qed.

(** X11.  Whatever the closure adds, every seed read stays on the side of
    the de novo allele: in the name sets that the grouper gets back from
    [connect_reads], the name of each read passed in under ["alt"] is in the
    alt set and not in the ref set. *)
Theorem seeds_stay_alt binary_search fuel bamfile region grouped_reads het_sites
    ix connected_reads read :
  connected_reads_of binary_search fuel bamfile region grouped_reads het_sites
  = Some (Ok (ix, connected_reads)) →
  read ∈ on_alt grouped_reads →
  query_name read ∈ on_alt connected_reads
  ∧ query_name read ∉ on_ref connected_reads.
Proof. intros (Hseeds & _)%connected_reads_of_facts. apply Hseeds. Qed.

Lemma seeds_stay_alt_witness :
  ∃ ix connected_reads,
    connected_reads_of spanned_sites 3 small_bam small_dnm
      {| on_alt := [read_s; mate_of read_s]; on_ref := [] |} [site_h1; site_h2]
    = Some (Ok (ix, connected_reads))
    ∧ "s" ∈ on_alt connected_reads ∧ "s" ∉ on_ref connected_reads.
Proof.
  eexists _, _. split; [by vm_compute|].
  eapply (seeds_stay_alt spanned_sites 3 small_bam small_dnm
            {| on_alt := [read_s; mate_of read_s]; on_ref := [] |}
            [site_h1; site_h2]) with (read := read_s); [by vm_compute|left].
Defined.

Lemma elem_of_flatten_reads fetched names r :
  r ∈ flatten_reads fetched names
  ↔ ∃ name v, name ∈ names ∧ dict_get name fetched = Some v ∧ r ∈ [v.1; v.2].
Proof.
  unfold flatten_reads. rewrite list_elem_of_In, in_flat_map. split.
  - intros (name & Hname%list_elem_of_In%elem_of_elements & Hr%list_elem_of_In).
    destruct (dict_get name fetched) as [v|] eqn:Hv; [|by apply elem_of_nil in Hr].
    by exists name, v.
  - intros (name & v & Hname & Hv & Hr). exists name. split.
    + by apply list_elem_of_In, elem_of_elements.
    + rewrite Hv. by apply list_elem_of_In.
Qed.

(** X12.  Extended grouping keeps the seeds: for each read passed in under
    ["alt"] whose mate the file can give, the ["alt"] list of the result
    holds a record of that name. *)
Theorem group_keeps_seeds binary_search fuel bamfile region grouped_reads het_sites
    out read m :
  group_reads_by_haplotype binary_search fuel bamfile region grouped_reads het_sites
  = Some (Ok out) →
  read ∈ on_alt grouped_reads →
  mate bamfile read = Some m →
  ∃ r, r ∈ on_alt out ∧ query_name r = query_name read.
Proof.
  unfold group_reads_by_haplotype.
  destruct (connected_reads_of _ _ _ _ _ _) as [[[ix conn]|]|] eqn:Hrun; [|done|done].
  apply connected_reads_of_facts in Hrun as (Hseeds & Hmates & Hkeyed).
  intros [= <-] Hin Hmate. cbn [on_alt].
  destruct (Hmates _ _ Hin Hmate) as [v Hv].
  exists v.1. split; [|by eapply Hkeyed].
  apply elem_of_flatten_reads. exists (query_name read), v.
  split; [by apply Hseeds|]. split; [done|]. left.
Qed.

Lemma group_keeps_seeds_witness :
  ∃ out,
    group_reads_by_haplotype spanned_sites 3 small_bam small_dnm
      {| on_alt := [read_s; mate_of read_s]; on_ref := [] |} [site_h1; site_h2]
    = Some (Ok out)
    ∧ ∃ r, r ∈ on_alt out ∧ query_name r = "s".
Proof.
  eexists. split; [by vm_compute|].
  eapply (group_keeps_seeds spanned_sites 3 small_bam small_dnm
            {| on_alt := [read_s; mate_of read_s]; on_ref := [] |}
            [site_h1; site_h2]) with (read := read_s);
    [by vm_compute | left | by vm_compute].
Defined.

(** ** Grouping without het sites *)

Section NoHetSites.
Context (binary_search : Z → Z → list HetSite → list HetSite).
Context (bamfile : AlignmentFile).
Hypothesis binary_search_nil : ∀ lo hi, binary_search lo hi [] = [].

Lemma seed_read_no_sites sd read :
  ∃ sd', seed_read binary_search bamfile [] sd read = Ok sd'
         ∧ read_sites (seed_ix sd') = read_sites (seed_ix sd)
         ∧ site_reads (seed_ix sd') = site_reads (seed_ix sd).
Proof.
  unfold seed_read. destruct (mate bamfile read) as [m|]; [|by eexists].
  rewrite binary_search_nil. cbn. by eexists.
Qed.

Lemma seed_loop_no_sites seeds sd :
  ∃ sd', for_each (seed_read binary_search bamfile []) seeds sd = Ok sd'
         ∧ read_sites (seed_ix sd') = read_sites (seed_ix sd)
         ∧ site_reads (seed_ix sd') = site_reads (seed_ix sd).
Proof.
  revert sd. induction seeds as [|read seeds IH]; intros sd; cbn [for_each];
    [by eexists|].
  destruct (seed_read_no_sites sd read) as (sd1 & -> & <- & <-).
  cbn [mbind result_bind]. apply IH.
Qed.

Lemma connect_pass_no_sites g sreads new fetched :
  connect_pass g [] sreads new fetched = Ok (g, {| on_alt := []; on_ref := [] |}).
Proof.
  unfold connect_pass.
  generalize ((g, {| on_alt := []; on_ref := [] |}) : conn_state).
  induction new as [|[h names] new IH]; intros st; cbn [for_each fst snd];
    [done|].
  assert (for_each (connect_read [] sreads fetched h) names st = Ok st) as ->.
  { clear. induction names as [|x names IH]; [done|]. cbn [for_each]. by cbn. }
  cbn [mbind result_bind]. apply IH.
Qed.

(** X13.  With an empty list of het sites (and a site search that finds
    nothing in an empty list) extended grouping does not raise and needs one
    call of the closure: it returns nothing under ["ref"], and every record
    under ["alt"] is a read passed in under ["alt"] or the mate the file
    gives for it. *)
Theorem group_reads_no_het_sites fuel region grouped_reads :
  ∃ out,
    group_reads_by_haplotype binary_search (S fuel) bamfile region grouped_reads []
    = Some (Ok out)
    ∧ on_ref out = []
    ∧ ∀ r, r ∈ on_alt out →
        ∃ seed m, seed ∈ on_alt grouped_reads ∧ mate bamfile seed = Some m
                  ∧ (r = seed ∨ r = m).
Proof.
  unfold group_reads_by_haplotype, connected_reads_of. cbn [for_each mbind result_bind].
  destruct (seed_loop_no_sites (on_alt grouped_reads)
              {| seed_names := ∅; seed_new := [];
                 seed_ix := {| fetched_reads := []; read_sites := [];
                               site_reads := [] |} |})
    as (sd & Hloop & Hrs & Hsr).
  rewrite Hloop. cbn in Hrs, Hsr. rewrite Hrs. cbn [connect_reads].
  rewrite connect_pass_no_sites. cbn.
  eexists. split; [done|]. cbn [on_alt on_ref]. split.
  - unfold flatten_reads. by rewrite elements_empty.
  - intros r (name & v & _ & Hv & Hr)%elem_of_flatten_reads.
    apply seed_loop_effect in Hloop as (_ & _ & _ & _ & HP).
    apply (HP (λ _ v, v.1 ∈ on_alt grouped_reads ∧ mate bamfile v.1 = Some v.2))
      in Hv as [Hseed Hmate]; [|done|done].
    exists v.1, v.2. split; [done|]. split; [done|]. set_solver.
Qed.
End NoHetSites.

Lemma group_reads_no_het_sites_witness :
  ∃ out,
    group_reads_by_haplotype spanned_sites 1 small_bam small_dnm
      {| on_alt := [read_s; mate_of read_s]; on_ref := [read_r; mate_of read_r] |} []
    = Some (Ok out)
    ∧ on_ref out = []
    ∧ ∀ r, r ∈ on_alt out →
        ∃ seed m, seed ∈ [read_s; mate_of read_s] ∧ mate small_bam seed = Some m
                  ∧ (r = seed ∨ r = m).
Proof.
  apply (group_reads_no_het_sites spanned_sites small_bam (λ _ _, eq_refl) 0
           small_dnm
           {| on_alt := [read_s; mate_of read_s]; on_ref := [read_r; mate_of read_r] |}).
Defined.

(** ** Chromosome names *)

Lemma str_of_chars_of s : str_of (chars_of s) = s.
Proof. apply string_of_list_ascii_of_string. Qed.

Lemma lstrip_chars_head chars l :
  (∀ a, head l = Some a → char_in a chars = false) →
  lstrip_chars chars l = l.
Proof. destruct l as [|a l]; cbn; [done|]. intros H. by rewrite (H a). Qed.

Lemma head_rev {A} (l : list A) : head (rev l) = last l.
Proof.
  induction l as [|x l _] using rev_ind; [done|].
  by rewrite rev_unit, last_snoc.
Qed.

Lemma remove_all_absent fuel old l :
  contains_chars old l = false → remove_all fuel old l = l.
Proof.
  revert l. induction fuel as [|fuel IH]; intros l; [done|].
  destruct l as [|a l]; [done|]. cbn [contains_chars remove_all].
  intros [Hprefix Hrest]%orb_false_elim. rewrite Hprefix. f_equal. by apply IH.
Qed.

(** A name that does not contain [chr] and neither starts nor ends with one
    of the characters [c], [h], [r]: the numbers, [X], [Y], [MT]. *)
Definition plain_name (c : string) : Prop :=
  str_contains "chr" c = false
  ∧ (∀ a, head (chars_of c) = Some a → char_in a "chr" = false)
  ∧ (∀ a, last (chars_of c) = Some a → char_in a "chr" = false).

(** X14.  On a plain chromosome name the alternate spelling that the
    collectors retry a failed fetch with toggles the [chr] prefix, and
    toggling twice gives the name back: both the stripping variant of the
    SNV collector and of the grouper and the replacing variant of the SV
    collector map [c] to [chr c] and [chr c] to [c]. *)
Theorem flip_chr_toggles c :
  plain_name c →
  flip_chr c = "chr" +:+ c
  ∧ flip_chr ("chr" +:+ c) = c
  ∧ flip_chr_sv c = "chr" +:+ c
  ∧ flip_chr_sv ("chr" +:+ c) = c.
Proof.
  intros (Hno & Hhead & Hlast).
  assert (str_contains "chr" ("chr" +:+ c) = true) as Hyes by reflexivity.
  assert (chars_of ("chr" +:+ c) = chars_of "chr" ++ chars_of c) as Hchars
    by reflexivity.
  split_and!.
  - unfold flip_chr. by rewrite Hno.
  - unfold flip_chr, strip. rewrite Hyes, Hchars.
    change (lstrip_chars "chr" (chars_of "chr" ++ chars_of c))
      with (lstrip_chars "chr" (chars_of c)).
    rewrite (lstrip_chars_head "chr" (chars_of c)) by done.
    rewrite (lstrip_chars_head "chr" (rev (chars_of c)))
      by (rewrite head_rev; exact Hlast).
    by rewrite rev_involutive, str_of_chars_of.
  - unfold flip_chr_sv. by rewrite Hno.
  - unfold flip_chr_sv, str_remove. rewrite Hyes, Hchars.
    change (remove_all (length (chars_of "chr" ++ chars_of c)) (chars_of "chr")
              (chars_of "chr" ++ chars_of c))
      with (remove_all (2 + length (chars_of c)) (chars_of "chr") (chars_of c)).
    rewrite remove_all_absent by exact Hno. apply str_of_chars_of.
Qed.

Lemma flip_chr_toggles_witness :
  flip_chr "X" = "chrX" ∧ flip_chr "chrX" = "X"
  ∧ flip_chr_sv "X" = "chrX" ∧ flip_chr_sv "chrX" = "X".
Proof.
  apply (flip_chr_toggles "X"). split_and!; [done|..]; by intros a [= <-].
Defined.

Lemma strip_chr_prefix c : strip "chr" ("chr" +:+ c) = strip "chr" c.
Proof. done. Qed.

(** [d] under another chromosome name. *)
Definition with_chrom (c : string) (d : DNM) : DNM :=
  {| chrom := c; start := start d; end_ := end_ d; kid := kid d;
     vartype := vartype d; candidate_sites := candidate_sites d;
     het_sites := het_sites d |}.

(** X15.  The per-DNM path does not depend on a [chr] prefix of the DNM's
    chromosome name: written with the prefix, the DNM gets the result it
    gets without, under the prefixed name. *)
Theorem find_denovo_chr_prefix par tun pedigrees build vcf search_dist
    whole_region denovo :
  find_denovo par tun pedigrees build vcf search_dist whole_region
    (with_chrom ("chr" +:+ chrom denovo) denovo)
  = with_chrom ("chr" +:+ chrom denovo)
      <$> find_denovo par tun pedigrees build vcf search_dist whole_region denovo.
Proof.
  unfold find_denovo.
  change (autophaseable par pedigrees build (with_chrom _ denovo))
    with (autophaseable par pedigrees build denovo).
  destruct (autophaseable par pedigrees build denovo) as [[]|];
    cbn [mbind result_bind fmap result_fmap]; [done| |done].
  cbn [kid with_chrom].
  destruct (subscript pedigrees (kid denovo)) as [ped|];
    cbn [mbind result_bind fmap result_fmap]; [|done].
  repeat case_match; try done.
  change (get_position vcf (with_chrom _ denovo) search_dist whole_region)
    with (get_position vcf denovo search_dist whole_region).
  change (find_variant tun whole_region (with_chrom _ denovo))
    with (find_variant tun whole_region denovo).
  by destruct (for_each _ _ _) as [[cs hs]|].
Qed.

(** ** Error and edge behaviour of [find] *)

Section FindEdges.
Context (par : PARTables) (tun : Tunables).
Context (pedigrees : dict string Pedigree) (build : string).

Lemma autophaseable_unknown_kid denovo :
  dict_get (kid denovo) pedigrees = None →
  autophaseable par pedigrees build denovo = Ok false
  ∨ autophaseable par pedigrees build denovo = Raise KeyError.
Proof.
  intros Hkid. unfold autophaseable. case_match; [by left|right].
  unfold subscript. by rewrite Hkid.
Qed.

Lemma find_denovo_unknown_kid vcf search_dist whole_region denovo :
  dict_get (kid denovo) pedigrees = None →
  find_denovo par tun pedigrees build vcf search_dist whole_region denovo
  = Raise KeyError.
Proof.
  intros Hkid. unfold find_denovo.
  destruct (autophaseable_unknown_kid denovo Hkid) as [-> | ->]; [|done].
  cbn [mbind result_bind]. unfold subscript. by rewrite Hkid.
Qed.

(** X16.  Below the batch threshold [find] returns only if the pedigree
    has an entry for the kid of every DNM: a DNM of an unknown kid raises
    [KeyError], on an autosome as on a sex chromosome, and the exception
    ends the run. *)
Theorem find_needs_pedigree dnms vcf search_dist multithread_proc_min whole_region r :
  Z.of_nat (length dnms) < multithread_proc_min →
  find par tun pedigrees build dnms vcf search_dist multithread_proc_min whole_region
  = Ok r →
  Forall (λ denovo, is_Some (dict_get (kid denovo) pedigrees)) dnms.
Proof.
  intros Hlt. unfold find.
  destruct (Z.leb_spec multithread_proc_min (Z.of_nat (length dnms))); [lia|].
  case_match; [by destruct dnms|].
  destruct (mapM _ dnms) as [out|] eqn:Hmap; [|done]. intros _.
  apply mapM_Ok_Forall2 in Hmap. apply Forall_forall. intros d Hd.
  apply list_elem_of_lookup in Hd as [i Hi].
  destruct (Forall2_lookup_l _ _ _ _ _ Hmap Hi) as (d' & _ & Hrun).
  destruct (dict_get (kid d) pedigrees) eqn:Hkid; [done|].
  by rewrite find_denovo_unknown_kid in Hrun.
Qed.
End FindEdges.

Lemma find_needs_pedigree_witness :
  Forall (λ denovo, is_Some (dict_get (kid denovo) trio_pedigrees))
    [kid_dnm "1" 1000 1001].
Proof.
  apply (find_needs_pedigree example_par trio_tunables trio_pedigrees "38"
           [kid_dnm "1" 1000 1001] (trio_vcf "" [informative_snv "1" 990]) 100 2 false
           (Some [set_sites (kid_dnm "1" 1000 1001)
                    (Some [snv_candidate 990]) (Some [snv_het_site 990])]));
    [done | by vm_compute].
Defined.

(** ** The two indices, read back *)

(** X17.  The indices of the batched path hold what was put in: after
    [create_lookups], [vars_by_sample[k][c][p]] is the list, in input order,
    of the not auto-phaseable DNMs of kid [k] on chromosome [c] that start at
    [p], and [samples_by_location[c][p]] names kid [k] once for each such DNM
    that starts at [p] and once more for each that is longer than 2 and
    ends at [p]. *)
Theorem create_lookups_index par pedigrees build dnms lk k c p :
  create_lookups par pedigrees build dnms = Ok lk →
  let indexed := filter (λ d, autophaseable par pedigrees build d = Ok false) dnms in
  slot (vars_by_sample lk) k c p = filter (same_slot k c p) indexed
  ∧ occurrences k (close_samples_at (samples_by_location lk) c p)
    = length (filter (listed_at k c p) indexed).
Proof.
  intros Hlk indexed.
  pose proof (create_lookups_partition _ _ _ _ _ Hlk) as [_ Hn].
  apply create_lookups_ok in Hlk as (_ & Hslot & Hocc).
  subst indexed. rewrite <- Hn. by split.
Qed.

Lemma create_lookups_index_witness :
  slot (vars_by_sample scanned_lookups) "kid" "1" 1000 = [scanned_dnm]
  ∧ occurrences "kid" (close_samples_at (samples_by_location scanned_lookups) "1" 1000)
    = 1%nat.
Proof.
  apply (create_lookups_index example_par trio_pedigrees "38" [scanned_dnm]
           scanned_lookups "kid" "1" 1000).
  by vm_compute.
Defined.

(** ** A record in both query windows *)

Section Overlap.
Context (tun : Tunables) (whole_region : bool) (denovo : DNM) (ped : Pedigree).
Context (kid_idx dad_idx mom_idx : nat).

#[local] Abbreviation visit :=
  (find_variant tun whole_region denovo ped kid_idx dad_idx mom_idx).

(** The loop body only appends, and what it appends does not depend on
    what was collected before. *)
Lemma find_variant_acc acc variant :
  visit acc variant
  = new ← visit ([], []) variant; Ok (acc.1 ++ new.1, acc.2 ++ new.2).
Proof.
  unfold find_variant. destruct acc as [cs hs]. cbn [fst snd].
  repeat case_match; cbn [mbind result_bind fst snd]; rewrite ?app_nil_r; try done.
  destruct (informative_site _ _ _ _ _ _ _ _ _) as [[het cand]|];
    cbn [mbind result_bind fst snd]; [|done].
  destruct het, cand; cbn; by rewrite ?app_nil_r.
Qed.

Lemma find_loop_acc variants acc :
  for_each visit variants acc
  = new ← for_each visit variants ([], []); Ok (acc.1 ++ new.1, acc.2 ++ new.2).
Proof.
  revert acc. induction variants as [|variant variants IH]; intros acc;
    cbn [for_each].
  { destruct acc. cbn. by rewrite !app_nil_r. }
  rewrite find_variant_acc.
  destruct (visit ([], []) variant) as [[nc nh]|]; cbn [mbind result_bind fst snd];
    [|done].
  rewrite IH, (IH (nc, nh)).
  destruct (for_each visit variants ([], [])) as [[nc' nh']|];
    cbn [mbind result_bind fst snd]; [|done].
  by rewrite !app_assoc.
Qed.

Lemma find_loop_twice l1 l2 l3 variant c newh cs hs :
  visit ([], []) variant = Ok ([c], newh) →
  for_each visit (l1 ++ variant :: l2 ++ variant :: l3) ([], []) = Ok (cs, hs) →
  ∃ rest, cs ≡ₚ c :: c :: rest.
Proof.
  intros Hv. rewrite for_each_app.
  destruct (for_each visit l1 ([], [])) as [[c1 h1]|]; cbn [mbind result_bind];
    [|done].
  cbn [for_each]. rewrite find_variant_acc, Hv. cbn [mbind result_bind fst snd].
  rewrite for_each_app, find_loop_acc.
  destruct (for_each visit l2 ([], [])) as [[c2 h2]|]; cbn [mbind result_bind fst snd];
    [|done].
  cbn [for_each]. rewrite find_variant_acc, Hv. cbn [mbind result_bind fst snd].
  rewrite find_loop_acc.
  destruct (for_each visit l3 ([], [])) as [[c3 h3]|]; cbn [mbind result_bind fst snd];
    [|done].
  intros [= <- _]. exists (c1 ++ c2 ++ c3).
  rewrite <- !app_assoc. cbn. rewrite <- Permutation_middle. f_equiv.
  rewrite (app_assoc c1 c2), <- Permutation_middle. by rewrite <- app_assoc.
Qed.
End Overlap.

(** X18.  The per-DNM path does not de-duplicate either.  In start/end
    mode, when the DNM is longer than the search distance, a record that
    both region queries (around the start and around the end) return is
    visited twice, and a candidate site that it yields is in the DNM's list
    twice. *)
Theorem find_loop_window_overlap tun denovo ped kid_idx dad_idx mom_idx vcf
    search_dist variant c newh cs hs :
  let name := prefix vcf +:+ strip "chr" (chrom denovo) in
  search_dist < end_ denovo - start denovo →
  variant ∈ region vcf name (start denovo - search_dist) (start denovo + search_dist) →
  variant ∈ region vcf name (end_ denovo - search_dist) (end_ denovo + search_dist) →
  find_variant tun false denovo ped kid_idx dad_idx mom_idx ([], []) variant
  = Ok ([c], newh) →
  for_each (find_variant tun false denovo ped kid_idx dad_idx mom_idx)
    (get_position vcf denovo search_dist false) ([], []) = Ok (cs, hs) →
  ∃ rest, cs ≡ₚ c :: c :: rest.
Proof.
  intros name Hlong (a1 & a2 & Ha)%list_elem_of_split (b1 & b2 & Hb)%list_elem_of_split
    Hv.
  unfold get_position. fold name. rewrite Ha, Hb.
  apply Z.ltb_lt in Hlong. rewrite Hlong, <- app_assoc. cbn [app].
  rewrite (app_assoc a2 b1). by apply (find_loop_twice _ _ _ _ _ _ _ _ _ _ _ _ newh).
Qed.

Lemma find_loop_window_overlap_witness :
  for_each (find_variant trio_tunables false (kid_dnm "1" 1000 1100)
              {| dad := "dad"; mom := "mom"; sex := 1 |} 0 1 2)
    (get_position (trio_vcf "" [informative_snv "1" 1050]) (kid_dnm "1" 1000 1100)
       60 false) ([], [])
  = Ok ([snv_candidate 1050; snv_candidate 1050],
        [snv_het_site 1050; snv_het_site 1050])
  ∧ ∃ rest,
      [snv_candidate 1050; snv_candidate 1050]
      ≡ₚ snv_candidate 1050 :: snv_candidate 1050 :: rest.
Proof.
  split; [by vm_compute|].
  apply (find_loop_window_overlap trio_tunables (kid_dnm "1" 1000 1100)
           {| dad := "dad"; mom := "mom"; sex := 1 |} 0 1 2
           (trio_vcf "" [informative_snv "1" 1050]) 60
           (informative_snv "1" 1050) (snv_candidate 1050) [snv_het_site 1050]
           [snv_candidate 1050; snv_candidate 1050]
           [snv_het_site 1050; snv_het_site 1050]).
  - done.
  - vm_compute. left.
  - vm_compute. left.
  - by vm_compute.
  - by vm_compute.
Defined.

(** ** The indices of the grouper *)

(** What the first loop of [group_reads_by_haplotype] keeps true of its
    three dictionaries: an entry of [fetched_reads] is a good read under its
    own name with the good mate the file gives for it, neither end of the
    read lying within the span of the mate ([mates_overlap], the test of the
    loop, which a mate inside the read passes); every name of [read_sites] and of [site_reads] has such an
    entry; and the two are inverse to each other, a name being listed at a
    position exactly when the read has a site of that position. *)
Definition index_ok (bamfile : AlignmentFile) (ix : Indices) : Prop :=
  (∀ k v, dict_get k (fetched_reads ix) = Some v →
          query_name v.1 = k ∧ goodread v.1 = true ∧ goodread v.2 = true
          ∧ mate bamfile v.1 = Some v.2 ∧ mates_overlap v.1 v.2 = false)
  ∧ (∀ name h, h ∈ default [] (dict_get name (read_sites ix)) →
               is_Some (dict_get name (fetched_reads ix)))
  ∧ (∀ name p, name ∈ default [] (dict_get p (site_reads ix))
               ↔ ∃ h, h ∈ default [] (dict_get name (read_sites ix)) ∧ pos h = p).

Lemma index_fetched_read_ok bamfile het_site ix i_read :
  index_ok bamfile ix →
  index_ok bamfile (index_fetched_read bamfile het_site ix i_read).
Proof.
  intros (Hf & Hr & Hinv). unfold index_fetched_read.
  case_match; [done|].
  destruct (goodread i_read.2) eqn:Hgood; cbn [negb]; [|done].
  destruct (mate bamfile i_read.2) as [m|] eqn:Hmate; [|done].
  destruct (goodread m) eqn:Hgoodm; cbn [negb]; [|done].
  destruct (mates_overlap i_read.2 m) eqn:Hover; [done|].
  split_and!; cbn [fetched_reads read_sites site_reads].
  - intros k v. rewrite dict_get_set. case_decide; [|apply Hf].
    by intros [= <-].
  - intros name h. rewrite !dict_get_set. case_decide; [done|]. apply Hr.
  - intros name p. rewrite !dict_get_set.
    destruct (decide (p = pos het_site)) as [->|Hp],
             (decide (name = query_name i_read.2)) as [->|Hn]; cbn.
    + split; [|intros _; set_solver]. intros _. exists het_site. set_solver.
    + rewrite elem_of_app, Hinv. set_solver.
    + rewrite Hinv. split; intros (h & Hh & <-); exists h; set_solver.
    + apply Hinv.
Qed.

(** The reads that the body of the inner loop can index: those that
    [enumerate] numbers 0 to [EXTENDED_RB_READ_GOAL]. *)
Lemma index_fetched_read_count bamfile het_site ix i_read :
  (length (flat_map (λ kv : Z * list string, kv.2)
             (site_reads (index_fetched_read bamfile het_site ix i_read)))
   ≤ length (flat_map (λ kv : Z * list string, kv.2) (site_reads ix))
     + (if decide (i_read.1 ≤ 100)%nat then 1 else 0))%nat.
Proof.
  unfold index_fetched_read, EXTENDED_RB_READ_GOAL.
  destruct (Z.ltb_spec 100 (Z.of_nat i_read.1)).
  { lia. }
  rewrite decide_True by lia.
  repeat case_match; try lia. cbn [site_reads].
  rewrite (flat_map_dict_set_add (λ l : list string, l) _ _ [] _
             [query_name i_read.2]); [|done|done].
  rewrite length_app. cbn. lia.
Qed.

Lemma enumerate_first_101 {A} (l : list A) a n :
  (length (filter (λ ir : nat * A, (ir.1 ≤ 100)%nat) (zip (seq a n) l))
   ≤ 101 - a)%nat.
Proof.
  revert a l. induction n as [|n IH]; intros a l; cbn [seq zip_with];
    [cbn; lia|].
  destruct l as [|x l]; [cbn; lia|]. rewrite filter_cons. cbn [fst].
  specialize (IH (S a) l). case_decide; cbn [length]; lia.
Qed.

Lemma index_het_site_effect bamfile region ix het_site ix' :
  index_het_site bamfile region ix het_site = Ok ix' →
  (index_ok bamfile ix → index_ok bamfile ix')
  ∧ (length (flat_map (λ kv : Z * list string, kv.2) (site_reads ix'))
     ≤ length (flat_map (λ kv : Z * list string, kv.2) (site_reads ix)) + 101)%nat.
Proof.
  unfold index_het_site.
  destruct (fetch_retry _ _ _ _ _ _ _) as [bam_iter|]; cbn [mbind result_bind];
    [|done].
  intros [= <-].
  pose proof (enumerate_first_101 bam_iter 0 (length bam_iter)) as Hcount.
  revert Hcount. generalize (zip (seq 0 (length bam_iter)) bam_iter). intros l Hcount.
  enough ((index_ok bamfile ix →
           index_ok bamfile (fold_left (index_fetched_read bamfile het_site) l ix))
          ∧ (length (flat_map (λ kv : Z * list string, kv.2)
                       (site_reads (fold_left (index_fetched_read bamfile het_site) l ix)))
             ≤ length (flat_map (λ kv : Z * list string, kv.2) (site_reads ix))
               + length (filter (λ ir : nat * AlignedSegment, (ir.1 ≤ 100)%nat) l))%nat)
    as [Hok Hlen] by (split; [done|lia]).
  clear Hcount. revert ix. induction l as [|x l IH]; intros ix; cbn [fold_left].
  { split; [done|cbn; lia]. }
  rewrite filter_cons.
  pose proof (index_fetched_read_count bamfile het_site ix x) as Hx.
  destruct (IH (index_fetched_read bamfile het_site ix x)) as [Hok Hlen].
  split.
  - intros Hix. by apply Hok, index_fetched_read_ok.
  - case_decide; cbn [length]; lia.
Qed.

Lemma index_loop_effect bamfile region het_sites ix0 ix :
  for_each (index_het_site bamfile region) het_sites ix0 = Ok ix →
  (index_ok bamfile ix0 → index_ok bamfile ix)
  ∧ (length (flat_map (λ kv : Z * list string, kv.2) (site_reads ix))
     ≤ length (flat_map (λ kv : Z * list string, kv.2) (site_reads ix0))
       + 101 * length het_sites)%nat.
Proof.
  revert ix0. induction het_sites as [|h hs IH]; intros ix0; cbn [for_each].
  { intros [= <-]. split; [done|lia]. }
  destruct (index_het_site bamfile region ix0 h) as [ix1|] eqn:Hstep;
    cbn [mbind result_bind]; [|done].
  apply index_het_site_effect in Hstep as [Hok1 Hlen1].
  intros [Hok Hlen]%IH. split; [auto|]. cbn [length]. lia.
Qed.

(** X19.  After the first loop of the grouper, over the het sites, the
    three dictionaries are consistent: every entry of [fetched_reads] is a
    read that passed [goodread], filed under its own name with the mate the
    file gives for it, which passed too and for which the overlap test of
    the loop is false: neither the start nor the end of the read lies within
    the span of the mate (a mate that lies inside the read passes the test);
    every read named in [read_sites] or [site_reads] has an entry; a read is
    listed at a position of [site_reads] exactly when [read_sites] gives it a
    site of that position.  At most 101 reads are listed per het site. *)
Theorem index_het_sites_consistent bamfile region het_sites ix :
  for_each (index_het_site bamfile region) het_sites
    {| fetched_reads := []; read_sites := []; site_reads := [] |} = Ok ix →
  index_ok bamfile ix
  ∧ (length (flat_map (λ kv : Z * list string, kv.2) (site_reads ix))
     ≤ 101 * length het_sites)%nat.
Proof.
  intros [Hok Hlen]%index_loop_effect. split; [|exact Hlen].
  apply Hok. split_and!; cbn; try done.
  - intros name h Hh. by apply elem_of_nil in Hh.
  - intros name p. split; [by intros ?%elem_of_nil|].
    by intros (h & ?%elem_of_nil & _).
Qed.

Lemma index_het_sites_consistent_witness :
  ∃ ix,
    for_each (index_het_site small_bam small_dnm) [site_h1; site_h2]
      {| fetched_reads := []; read_sites := []; site_reads := [] |} = Ok ix
    ∧ index_ok small_bam ix
    ∧ (length (flat_map (λ kv : Z * list string, kv.2) (site_reads ix))
       ≤ 101 * 2)%nat.
Proof.
  eexists. split; [by vm_compute|].
  apply (index_het_sites_consistent small_bam small_dnm [site_h1; site_h2]).
  by vm_compute.
Defined.

(** ** When the closure cannot raise *)

Lemma get_allele_at_total read mate pos :
  read_wf read → read_wf mate → is_Ok (get_allele_at read mate pos).
Proof.
  intros Hread Hmate. unfold get_allele_at.
  destruct (position_of (Some pos) (reference_positions read)) as [i|] eqn:Hi.
  { destruct (base_at_first read pos i Hread Hi) as (b & -> & _). by eexists. }
  destruct (position_of (Some pos) (reference_positions mate)) as [j|] eqn:Hj.
  { destruct (base_at_first mate pos j Hmate Hj) as (b & -> & _). by eexists. }
  by eexists.
Qed.

(** The three dictionaries fit together: each read of [read_sites] has a
    fetched pair and each of its sites a list in [site_reads]; each name in
    [site_reads] has a fetched pair; each fetched record has a base for every
    reference position it lists. *)
Definition closure_ready (fetched : dict string (AlignedSegment * AlignedSegment))
    (rsites : dict string (list HetSite)) (sreads : dict Z (list string)) : Prop :=
  Forall (λ kv : string * list HetSite,
            is_Some (dict_get kv.1 fetched)
            ∧ Forall (λ h, is_Some (dict_get (pos h) sreads)) kv.2) rsites
  ∧ Forall (λ kv : Z * list string,
              Forall (λ name, is_Some (dict_get name fetched)) kv.2) sreads
  ∧ Forall (λ kv : string * (AlignedSegment * AlignedSegment),
              read_wf kv.2.1 ∧ read_wf kv.2.2) fetched.

Section ClosureTotal.
Context (fetched : dict string (AlignedSegment * AlignedSegment)).
Context (rsites : dict string (list HetSite)) (sreads : dict Z (list string)).
Hypothesis ready : closure_ready fetched rsites sreads.

Lemma fetched_wf name v :
  dict_get name fetched = Some v → read_wf v.1 ∧ read_wf v.2.
Proof.
  destruct ready as (_ & _ & Hwf). intros Hv%dict_get_Some_elem.
  rewrite Forall_forall in Hwf. apply (Hwf _ Hv).
Qed.

Lemma connect_site_read_total h site fa nfa st name :
  is_Some (dict_get name fetched) →
  is_Ok (connect_site_read fetched h site fa nfa st name).
Proof.
  intros [v Hv]. unfold connect_site_read. case_match; [|by eexists].
  unfold subscript. rewrite Hv. cbn [expect mbind result_bind].
  destruct (fetched_wf _ _ Hv) as [H1 H2].
  destruct (get_allele_at_total v.1 v.2 (pos site) H1 H2) as [r ->].
  cbn [mbind result_bind]. repeat case_match; by eexists.
Qed.

Lemma connect_site_total h readname found st site :
  is_Some (dict_get readname fetched) →
  is_Some (dict_get (pos site) sreads) →
  is_Ok (connect_site sreads fetched h readname found st site).
Proof.
  intros [v Hv] [names Hnames]. unfold connect_site. case_match; [by eexists|].
  unfold subscript. rewrite Hv. cbn [expect mbind result_bind].
  destruct (fetched_wf _ _ Hv) as [H1 H2].
  destruct (get_allele_at_total v.1 v.2 (pos site) H1 H2) as [r ->].
  cbn [mbind result_bind]. destruct r as [fa|]; [|by eexists].
  destruct (if str_truthy fa then _ else _) as [nfa|]; [|by eexists].
  case_match; [by eexists|]. rewrite Hnames. cbn [expect mbind result_bind].
  apply (for_each_total (λ name, is_Some (dict_get name fetched))).
  - intros s x Hx. by apply connect_site_read_total.
  - destruct ready as (_ & Hsr & _). apply dict_get_Some_elem in Hnames.
    rewrite Forall_forall in Hsr. apply (Hsr _ Hnames).
Qed.

Lemma connect_read_total h st new_read :
  is_Ok (connect_read rsites sreads fetched h st new_read).
Proof.
  unfold connect_read. destruct (dict_get new_read.1 rsites) as [sites|] eqn:Hsites;
    [|by eexists].
  destruct ready as (Hrs & _ & _). apply dict_get_Some_elem in Hsites.
  rewrite Forall_forall in Hrs. destruct (Hrs _ Hsites) as [Hf Hs]. cbn in Hf, Hs.
  apply (for_each_total (λ h, is_Some (dict_get (pos h) sreads))); [|done].
  intros s x Hx. by apply connect_site_total.
Qed.

Lemma connect_pass_total g new :
  is_Ok (connect_pass g rsites sreads new fetched).
Proof.
  unfold connect_pass. apply (for_each_total (λ _, True)); [|apply Forall_True].
  intros s entry _. apply (for_each_total (λ _, True)); [|apply Forall_True].
  intros s1 x _. apply connect_read_total.
Qed.

Lemma connect_reads_no_raise fuel g new r :
  connect_reads fuel g rsites sreads new fetched = Some r → is_Ok r.
Proof.
  revert g new. induction fuel as [|fuel IH]; intros g new; [done|].
  cbn [connect_reads].
  destruct (connect_pass_total g new) as [[g1 rta] ->].
  case_match; [apply IH|]. intros [= <-]. by eexists.
Qed.

(** X20.  On dictionaries that fit together the closure cannot raise:
    with fuel above the number of names of [site_reads] that are in neither
    set it returns the two name sets. *)
Theorem connect_reads_returns fuel g new :
  (size (site_read_names sreads ∖ assigned g) < fuel)%nat →
  ∃ g', connect_reads fuel g rsites sreads new fetched = Some (Ok g').
Proof.
  intros Hfuel.
  destruct (connect_reads_enough_fuel fetched rsites sreads _ fuel g new (le_n _) Hfuel)
    as [r Hr].
  destruct (connect_reads_no_raise _ _ _ _ Hr) as [g' ->]. by exists g'.
Qed.
End ClosureTotal.

(** The dictionaries of the small alignment file after the first loop. *)
Definition small_indices : Indices :=
  match for_each (index_het_site small_bam small_dnm) [site_h1; site_h2]
          {| fetched_reads := []; read_sites := []; site_reads := [] |} with
  | Ok ix => ix
  | Raise _ => {| fetched_reads := []; read_sites := []; site_reads := [] |}
  end.

Lemma connect_reads_returns_witness :
  ∃ g',
    connect_reads 4 {| on_alt := {["s"]}; on_ref := ∅ |}
      (read_sites small_indices) (site_reads small_indices)
      [(Alt, [("s", -1)]); (Ref, [])] (fetched_reads small_indices)
    = Some (Ok g').
Proof.
  apply (connect_reads_returns (fetched_reads small_indices)
           (read_sites small_indices) (site_reads small_indices)).
  - unfold closure_ready. vm_compute.
    repeat first [split | constructor | by eexists].
  - vm_compute. lia.
Defined.

(** ** The sites of the batched path *)

Lemma elem_of_dict_set {K V} `{EqDecision K} (k k' : K) (v v' : V) d :
  (k', v') ∈ dict_set k v d → (k', v') ∈ d ∨ (k' = k ∧ v' = v).
Proof.
  induction d as [|[k0 v0] d IH]; cbn.
  - intros [= -> ->]%list_elem_of_singleton. by right.
  - case_decide.
    + intros [[= -> ->]|Hin]%elem_of_cons; [by right|]. left. by right.
    + intros [->|Hin]%elem_of_cons; [left; left|].
      destruct (IH Hin) as [?|?]; [left; by right|by right].
Qed.

(** [d] is one of the records of [vars_by_sample], filed under kid [k]. *)
Definition filed_under (vbs : dict string (dict string (dict Z (list DNM))))
    (k : string) (d : DNM) : Prop :=
  ∃ by_chrom c by_pos p ds,
    (k, by_chrom) ∈ vbs ∧ (c, by_pos) ∈ by_chrom ∧ (p, ds) ∈ by_pos ∧ d ∈ ds.

Lemma filed_under_update vbs k c p by_chrom by_pos ds ds' k' d :
  dict_get k vbs = Some by_chrom →
  dict_get c by_chrom = Some by_pos →
  dict_get p by_pos = Some ds →
  filed_under (dict_set k (dict_set c (dict_set p ds' by_pos) by_chrom) vbs) k' d →
  filed_under vbs k' d ∨ (k' = k ∧ d ∈ ds').
Proof.
  intros Hk%dict_get_Some_elem Hc%dict_get_Some_elem Hp%dict_get_Some_elem.
  intros (bc & c' & bp & p' & l & H1 & H2 & H3 & H4).
  apply elem_of_dict_set in H1 as [H1|[-> ->]]; [left; by exists bc, c', bp, p', l|].
  apply elem_of_dict_set in H2 as [H2|[-> ->]];
    [left; by exists by_chrom, c', bp, p', l|].
  apply elem_of_dict_set in H3 as [H3|[-> ->]];
    [left; by exists by_chrom, c, by_pos, p', l|].
  by right.
Qed.

Lemma filed_under_record_var denovo vbs k d :
  filed_under (record_var denovo vbs) k d →
  filed_under vbs k d ∨ (k = kid denovo ∧ d = denovo).
Proof.
  unfold record_var. intros (bc & c' & bp & p' & l & H1 & H2 & H3 & H4).
  apply elem_of_dict_set in H1 as [H1|[-> ->]]; [left; by exists bc, c', bp, p', l|].
  destruct (dict_get (kid denovo) vbs) as [by_chrom|] eqn:Hk; cbn in H2;
    [apply dict_get_Some_elem in Hk|].
  2: { apply list_elem_of_singleton in H2 as [= -> ->].
       apply list_elem_of_singleton in H3 as [= -> ->].
       apply list_elem_of_singleton in H4 as ->. by right. }
  apply elem_of_dict_set in H2 as [H2|[-> ->]];
    [left; by exists by_chrom, c', bp, p', l|].
  destruct (dict_get (chrom denovo) by_chrom) as [by_pos|] eqn:Hc; cbn in H3;
    [apply dict_get_Some_elem in Hc|].
  2: { apply list_elem_of_singleton in H3 as [= -> ->].
       apply list_elem_of_singleton in H4 as ->. by right. }
  apply elem_of_dict_set in H3 as [H3|[-> ->]];
    [left; by exists by_chrom, (chrom denovo), by_pos, p', l|].
  destruct (dict_get (start denovo) by_pos) as [here|] eqn:Hp; cbn in H4;
    [apply dict_get_Some_elem in Hp|].
  2: { apply list_elem_of_singleton in H4 as ->. by right. }
  apply elem_of_app in H4 as [H4| ->%list_elem_of_singleton]; [|by right].
  left. by exists by_chrom, (chrom denovo), by_pos, (start denovo), here.
Qed.

Lemma elem_of_dnms_annotated vbs d :
  d ∈ dnms_annotated vbs → ∃ k d0, filed_under vbs k d0 ∧ d = sort_sites d0.
Proof.
  unfold dnms_annotated.
  intros ([k bc] & H1%list_elem_of_In & Hd%list_elem_of_In)%list_elem_of_In%in_flat_map.
  apply list_elem_of_In, in_flat_map in Hd
    as ([c bp] & H2%list_elem_of_In & Hd%list_elem_of_In).
  apply list_elem_of_In, in_flat_map in Hd as ([p ds] & H3%list_elem_of_In & Hd).
  apply in_map_iff in Hd as (d0 & <- & H4%list_elem_of_In).
  exists k, d0. split; [|done]. by exists bc, c, bp, p, ds.
Qed.

(** [(p, ref, alt)] describes a record of the callset that the batched
    path evaluates for [denovo]: biallelic with one-base alleles and not
    inside a small event. *)
Definition batch_site_of (vcf : VCF) (denovo : DNM) (p : Z) (ref alt : string) : Prop :=
  ∃ variant,
    variant ∈ records vcf
    ∧ is_complex variant = false
    ∧ inside_small_event denovo variant = false
    ∧ p = v_start variant ∧ ref = REF variant ∧ ALT variant = [alt].

(** Every site of the record is such a record of the callset, and every
    candidate names the dad and the mom of the record's kid. *)
Definition batch_sites_ok (pedigrees : dict string Pedigree) (vcf : VCF) (d : DNM)
    : Prop :=
  Forall (λ c, batch_site_of vcf d (c_pos c) (c_ref_allele c) (c_alt_allele c)
               ∧ ∃ ped, dict_get (kid d) pedigrees = Some ped
                        ∧ ((alt_parent c = dad ped ∧ ref_parent c = mom ped)
                           ∨ (alt_parent c = mom ped ∧ ref_parent c = dad ped)))
    (cands d)
  ∧ Forall (λ h, batch_site_of vcf d (pos h) (ref_allele h) (alt_allele h)) (hets d).

Lemma batch_sites_ok_sort pedigrees vcf d :
  batch_sites_ok pedigrees vcf d → batch_sites_ok pedigrees vcf (sort_sites d).
Proof.
  unfold batch_sites_ok, cands, hets, sort_sites. cbn. intros [Hc Hh]. split.
  - destruct (candidate_sites d); cbn in *; [|done]. by apply Forall_sorted.
  - destruct (het_sites d); cbn in *; [|done]. by apply Forall_sorted.
Qed.

Section BatchSites.
Context (par : PARTables) (tun : Tunables).
Context (pedigrees : dict string Pedigree) (build : string).
Context (vcf : VCF).

(** The invariant of the scan: each record is filed under its kid and has
    only sites of the callset. *)
Definition scan_inv (vbs : dict string (dict string (dict Z (list DNM)))) : Prop :=
  ∀ k d, filed_under vbs k d → kid d = k ∧ batch_sites_ok pedigrees vcf d.

Lemma add_variant_to_sites variant whole_region kid_idx dad_idx mom_idx ped d d' :
  variant ∈ records vcf →
  is_complex variant = false →
  dict_get (kid d) pedigrees = Some ped →
  batch_sites_ok pedigrees vcf d →
  add_variant_to par tun pedigrees build variant whole_region
    kid_idx dad_idx mom_idx (dad ped) (mom ped) d = Ok d' →
  kid d' = kid d ∧ batch_sites_ok pedigrees vcf d'.
Proof.
  intros Hin Hcomplex Hped [Hcs Hhs]. unfold add_variant_to.
  destruct (autophaseable _ _ _ _) as [[]|]; cbn [mbind result_bind]; [| |done].
  { by intros [= <-]. }
  destruct (inside_small_event d variant) eqn:Hsmall; [by intros [= <-]|].
  destruct (informative_site _ _ _ _ _ _ _ _ _) as [[het cand]|] eqn:Hsite;
    cbn [mbind result_bind]; [|done].
  intros [= <-]. split; [done|].
  assert (∀ p ref alt, p = v_start variant → ref = REF variant →
            ALT variant !! 0%nat = Some alt →
            batch_site_of vcf
              (set_sites d
                 match cand with
                 | Some c => Some (default [] (candidate_sites d) ++ [c])
                 | None => candidate_sites d
                 end
                 match het with
                 | Some h => Some (default [] (het_sites d) ++ [h])
                 | None => het_sites d
                 end) p ref alt) as Hsite_of.
  { intros p ref alt -> -> Halt. exists variant. split_and!; try done.
    by apply is_complex_false_single. }
  assert (∀ p ref alt, batch_site_of vcf d p ref alt →
            batch_site_of vcf
              (set_sites d
                 match cand with
                 | Some c => Some (default [] (candidate_sites d) ++ [c])
                 | None => candidate_sites d
                 end
                 match het with
                 | Some h => Some (default [] (het_sites d) ++ [h])
                 | None => het_sites d
                 end) p ref alt) as Hkeep by done.
  unfold batch_sites_ok, cands, hets in *. cbn [candidate_sites het_sites set_sites kid].
  split.
  - assert (Forall (λ c, batch_site_of vcf
                          (set_sites d
                             match cand with
                             | Some c => Some (default [] (candidate_sites d) ++ [c])
                             | None => candidate_sites d
                             end
                             match het with
                             | Some h => Some (default [] (het_sites d) ++ [h])
                             | None => het_sites d
                             end) (c_pos c) (c_ref_allele c) (c_alt_allele c)
                          ∧ ∃ ped, dict_get (kid d) pedigrees = Some ped
                                   ∧ ((alt_parent c = dad ped ∧ ref_parent c = mom ped)
                                      ∨ (alt_parent c = mom ped
                                         ∧ ref_parent c = dad ped)))
              (default [] (candidate_sites d))) as Hold.
    { eapply Forall_impl; [exact Hcs|]. intros c [? ?]. split; [by apply Hkeep|done]. }
    destruct cand as [c|]; cbn; [|done]. apply Forall_app. split; [done|].
    constructor; [|constructor].
    apply informative_site_accepts in Hsite
      as (gk & gd & gm & _ & _ & _ & Hp & Hr & Ha & _ & Hparents & _).
    split; [by apply Hsite_of|]. exists ped. split; [done|]. naive_solver.
  - assert (Forall (λ h, batch_site_of vcf
                          (set_sites d
                             match cand with
                             | Some c => Some (default [] (candidate_sites d) ++ [c])
                             | None => candidate_sites d
                             end
                             match het with
                             | Some h => Some (default [] (het_sites d) ++ [h])
                             | None => het_sites d
                             end) (pos h) (ref_allele h) (alt_allele h))
              (default [] (het_sites d))) as Hold.
    { eapply Forall_impl; [exact Hhs|]. intros h ?. by apply Hkeep. }
    destruct het as [h|]; cbn; [|done]. apply Forall_app. split; [done|].
    constructor; [|constructor].
    apply informative_site_het in Hsite as (Hp & Hr & Ha & _).
    by apply Hsite_of.
Qed.

Lemma add_good_candidate_variant_inv variant vbs key whole_region sample_dict
    vbs' b :
  variant ∈ records vcf →
  is_complex variant = false →
  scan_inv vbs →
  add_good_candidate_variant par tun pedigrees build variant vbs key
    whole_region sample_dict = Ok (vbs', b) →
  scan_inv vbs'.
Proof.
  intros Hin Hcomplex Hinv. destruct key as [[k c] p].
  unfold add_good_candidate_variant.
  destruct (get_family_indexes _ _ _) as [idx|]; cbn [mbind result_bind]; [|done].
  destruct (subscript pedigrees k) as [ped|] eqn:Hsub; cbn [mbind result_bind];
    [|done].
  assert (dict_get k pedigrees = Some ped) as Hped.
  { unfold subscript in Hsub. by destruct (dict_get k pedigrees); simplify_eq/=. }
  clear Hsub.
  destruct idx as [[[kid_idx dad_idx] mom_idx]|]; [|by intros [= <- _]].
  unfold subscript.
  destruct (dict_get k vbs) as [by_chrom|] eqn:Hk; cbn; [|done].
  destruct (dict_get c by_chrom) as [by_pos|] eqn:Hc; cbn; [|done].
  destruct (dict_get p by_pos) as [denovos|] eqn:Hp; [|by intros [= <- _]].
  destruct (mapM _ denovos) as [denovos'|] eqn:Hmap; cbn; [|done].
  intros [= <- _] k' d' Hfiled.
  apply (filed_under_update _ _ _ _ _ _ _ _ _ _ Hk Hc Hp) in Hfiled
    as [Hold|[-> Hd']]; [by apply Hinv|].
  apply mapM_Ok_Forall2 in Hmap.
  apply list_elem_of_lookup in Hd' as [i Hi].
  destruct (Forall2_lookup_r _ _ _ _ _ Hmap Hi) as (d & Hd & Hrun).
  assert (filed_under vbs k d) as Hfiled.
  { exists by_chrom, c, by_pos, p, denovos.
    split_and!; try by apply dict_get_Some_elem. by eapply list_elem_of_lookup_2. }
  destruct (Hinv _ _ Hfiled) as [Hkid Hok].
  rewrite <- Hkid in Hped.
  destruct (add_variant_to_sites _ _ _ _ _ _ _ _ Hin Hcomplex Hped Hok Hrun)
    as [Hkid' Hok'].
  split; [congruence|done].
Qed.

Lemma scan_variant_inv sbl search_dist whole_region sample_dict vbs variant vbs' :
  variant ∈ records vcf →
  scan_inv vbs →
  scan_variant par tun pedigrees build sbl search_dist whole_region sample_dict
    vbs variant = Ok vbs' →
  scan_inv vbs'.
Proof.
  intros Hin Hinv. unfold scan_variant.
  destruct (is_complex variant) eqn:Hcomplex; [by intros [= <-]|].
  destruct (get_close_vars _ _ _ _ _ _) as [keys|]; cbn [mbind result_bind]; [|done].
  apply (for_each_inv scan_inv (λ _, True)); [|apply Forall_True|done].
  intros s key s' _ Hs.
  destruct (add_good_candidate_variant _ _ _ _ _ _ _ _ _) as [[s1 b]|] eqn:Hkey;
    cbn [mbind result_bind]; [|done].
  intros [= <-]. by eapply add_good_candidate_variant_inv.
Qed.

Lemma create_lookups_filed dnms lk0 lk :
  for_each (create_lookups_step par pedigrees build) dnms lk0 = Ok lk →
  ∀ k d, filed_under (vars_by_sample lk) k d →
         filed_under (vars_by_sample lk0) k d ∨ (k = kid d ∧ d ∈ dnms).
Proof.
  revert lk0. induction dnms as [|d0 dnms IH]; intros lk0; cbn [for_each].
  { intros [= <-] k d ?. by left. }
  destruct (create_lookups_step par pedigrees build lk0 d0) as [lk1|] eqn:Hstep;
    cbn [mbind result_bind]; [|done].
  intros Hrest k d Hfiled.
  destruct (IH _ Hrest _ _ Hfiled) as [Hold|[-> Hin]]; [|right; split; [done|by right]].
  unfold create_lookups_step in Hstep.
  destruct (autophaseable _ _ _ _) as [[]|]; cbn [mbind result_bind] in Hstep;
    [| |done]; injection Hstep as <-; cbn [vars_by_sample] in Hold; [by left|].
  apply filed_under_record_var in Hold as [?|[-> ->]]; [by left|].
  right. split; [done|left].
Qed.

Lemma find_many_stream_records dnms search_dist whole_region out :
  find_many par tun pedigrees build dnms vcf search_dist whole_region = Ok out →
  ∃ lk variants vbs',
    create_lookups par pedigrees build dnms = Ok lk
    ∧ Forall (λ variant, variant ∈ records vcf) variants
    ∧ for_each (scan_variant par tun pedigrees build (samples_by_location lk)
                  search_dist whole_region (sample_dict_of vcf))
        variants (vars_by_sample lk) = Ok vbs'
    ∧ out = dnms_annotated vbs' ++ dnms_autophase lk.
Proof.
  unfold find_many.
  destruct (create_lookups _ _ _ _) as [lk|]; cbn [mbind result_bind]; [|done].
  destruct (for_each _ _ _) as [vbs'|] eqn:Hscan; cbn [mbind result_bind]; [|done].
  intros [= <-]. exists lk.
  enough (∃ variants,
            Forall (λ variant, variant ∈ records vcf) variants
            ∧ for_each (scan_variant par tun pedigrees build (samples_by_location lk)
                          search_dist whole_region (sample_dict_of vcf))
                variants (vars_by_sample lk) = Ok vbs') as (variants & ? & ?)
    by by exists variants, vbs'.
  revert Hscan. generalize (vars_by_sample lk).
  generalize (remove_dups (map chrom (dnms_nonautophase lk))).
  intros chroms. induction chroms as [|c chroms IH]; intros vbs; cbn [for_each].
  - intros [= <-]. by exists [].
  - destruct (subscript (chrom_ranges lk) c) as [chrom_range|];
      cbn [mbind result_bind]; [|done].
    destruct (multithread_find_many _ _ _ _ _ _ _ _ _ _ _) as [vbs1|] eqn:Hc;
      cbn [mbind result_bind]; [|done].
    intros (variants & Hrec & Hv)%IH. unfold multithread_find_many in Hc.
    eexists (_ ++ variants). split; [|by rewrite for_each_app, Hc].
    apply Forall_app. split; [|done]. apply Forall_forall. intros v Hv'.
    unfold region in Hv'. by apply list_elem_of_In, filter_In in Hv' as [?%list_elem_of_In _].
Qed.

(** X21.  When the DNMs come without site lists, every site in the
    result of the batched path is the start, REF and ALT of a record of the
    callset, biallelic with one-base alleles and not inside the DNM when the
    DNM is shorter than 20, and every candidate names the dad and the mom
    that the pedigree gives for the DNM's kid, one as alternate and the other
    as reference parent. *)
Theorem find_many_sites dnms search_dist whole_region out :
  Forall (λ d, candidate_sites d = None ∧ het_sites d = None) dnms →
  find_many par tun pedigrees build dnms vcf search_dist whole_region = Ok out →
  Forall (batch_sites_ok pedigrees vcf) out.
Proof.
  intros Hfresh (lk & variants & vbs' & Hlk & Hrec & Hscan & ->)%find_many_stream_records.
  assert (∀ d, d ∈ dnms → batch_sites_ok pedigrees vcf d) as Hinit.
  { intros d Hd. rewrite Forall_forall in Hfresh. destruct (Hfresh _ Hd) as [Hc Hh].
    unfold batch_sites_ok, cands, hets. rewrite Hc, Hh. by split. }
  apply Forall_app. split.
  - assert (scan_inv (vars_by_sample lk)) as Hinv0.
    { intros k d Hfiled.
      destruct (create_lookups_filed _ _ _ Hlk _ _ Hfiled)
        as [(? & ? & ? & ? & ? & []%elem_of_nil & _)|[-> Hin]].
      split; [done|]. by apply Hinit. }
    apply (for_each_inv scan_inv (λ variant, variant ∈ records vcf)) in Hscan;
      [|by eauto using scan_variant_inv|done|done].
    apply Forall_forall. intros d (k & d0 & Hfiled & ->)%elem_of_dnms_annotated.
    apply batch_sites_ok_sort. by apply (Hscan k).
  - apply create_lookups_partition in Hlk as [-> _].
    apply Forall_forall. intros d [_ Hd]%list_elem_of_filter. by apply Hinit.
Qed.
End BatchSites.

Lemma find_many_sites_witness :
  ∃ out,
    find_many example_par trio_tunables trio_pedigrees "38"
      [kid_dnm "1" 1000 1001; kid_dnm "1" 200 300]
      (trio_vcf "" [informative_snv "1" 990]) 100 false = Ok out
    ∧ Forall (batch_sites_ok trio_pedigrees (trio_vcf "" [informative_snv "1" 990])) out.
Proof.
  eexists. split; [by vm_compute|].
  apply (find_many_sites example_par trio_tunables trio_pedigrees "38"
           (trio_vcf "" [informative_snv "1" 990])
           [kid_dnm "1" 1000 1001; kid_dnm "1" 200 300] 100 false).
  - by repeat constructor.
  - by vm_compute.
Defined.

(** ** The result of [find] below the batch threshold *)

(** The records that the loop of the per-DNM path evaluates: not complex,
    not on [X] for a male kid, not inside a small event. *)
Definition evaluated (denovo : DNM) (ped : Pedigree) (variant : Variant) : bool :=
  negb (is_complex variant)
  && negb (String.eqb (CHROM variant) "X" && (sex ped =? SEX_KEY_male))
  && negb (inside_small_event denovo variant).

Section Annotation.
Context (par : PARTables) (tun : Tunables).
Context (pedigrees : dict string Pedigree) (build : string).

(** [out] is [denovo], annotated.  An auto-phaseable record, and one with
    a member of the trio missing from the callset, is handed back as it is.
    Any other record gets both site lists: the candidates and the het sites
    that the evaluation of a site yields on the evaluated records of the
    region queries, sorted by position. *)
Definition annotated (vcf : VCF) (search_dist : Z) (whole_region : bool)
    (denovo out : DNM) : Prop :=
  (autophaseable par pedigrees build denovo = Ok true ∧ out = denovo)
  ∨ ∃ ped,
      autophaseable par pedigrees build denovo = Ok false
      ∧ dict_get (kid denovo) pedigrees = Some ped
      ∧ ((¬ (kid denovo ∈ samples vcf ∧ dad ped ∈ samples vcf
             ∧ mom ped ∈ samples vcf)
          ∧ out = denovo)
         ∨ ∃ kid_idx dad_idx mom_idx sites,
             dict_get (kid denovo) (sample_dict_of vcf) = Some kid_idx
             ∧ dict_get (dad ped) (sample_dict_of vcf) = Some dad_idx
             ∧ dict_get (mom ped) (sample_dict_of vcf) = Some mom_idx
             ∧ mapM (λ variant,
                       informative_site tun whole_region denovo variant
                         kid_idx dad_idx mom_idx (dad ped) (mom ped))
                 (List.filter (evaluated denovo ped)
                    (get_position vcf denovo search_dist whole_region))
               = Ok sites
             ∧ out = set_sites denovo
                       (Some (sorted c_pos (omap snd sites)))
                       (Some (sorted pos (omap fst sites)))).

(** The loop with its three [continue]s and two accumulators is a filter
    followed by a map. *)
Lemma find_loop_as_map whole_region denovo ped kid_idx dad_idx mom_idx
    variants acc cs hs :
  for_each (find_variant tun whole_region denovo ped kid_idx dad_idx mom_idx)
    variants acc = Ok (cs, hs) →
  ∃ sites,
    mapM (λ variant,
            informative_site tun whole_region denovo variant
              kid_idx dad_idx mom_idx (dad ped) (mom ped))
      (List.filter (evaluated denovo ped) variants) = Ok sites
    ∧ cs = acc.1 ++ omap snd sites
    ∧ hs = acc.2 ++ omap fst sites.
Proof.
  revert acc. induction variants as [|variant variants IH]; intros acc;
    cbn [for_each List.filter].
  { intros [= ->]. exists []. cbn. by rewrite !app_nil_r. }
  destruct (find_variant tun whole_region denovo ped kid_idx dad_idx mom_idx
              acc variant) as [acc1|] eqn:Hstep; cbn [mbind result_bind]; [|done].
  intros (sites & Hsites & -> & ->)%IH.
  unfold find_variant in Hstep.
  destruct (evaluated denovo ped variant) eqn:Hev; unfold evaluated in Hev.
  - apply andb_prop in Hev as [[H1%negb_true_iff H2%negb_true_iff]%andb_prop
                                 H3%negb_true_iff].
    rewrite H1, H2, H3 in Hstep.
    destruct (informative_site _ _ _ _ _ _ _ _ _) as [[het cand]|] eqn:Hsite;
      cbn [mbind result_bind] in Hstep; [|done].
    injection Hstep as <-. exists ((het, cand) :: sites).
    cbn [mapM]. rewrite Hsite, Hsites. split; [done|].
    destruct het, cand; cbn; by rewrite <- ?app_assoc.
  - assert (acc1 = acc) as ->; [|by exists sites].
    destruct (is_complex variant); [by injection Hstep|].
    destruct (String.eqb (CHROM variant) "X" && (sex ped =? SEX_KEY_male));
      [by injection Hstep|].
    destruct (inside_small_event denovo variant); [by injection Hstep|done].
Qed.

Lemma find_denovo_annotated vcf search_dist whole_region denovo out :
  find_denovo par tun pedigrees build vcf search_dist whole_region denovo = Ok out →
  annotated vcf search_dist whole_region denovo out.
Proof.
  unfold find_denovo, annotated.
  destruct (autophaseable _ _ _ _) as [[]|]; cbn [mbind result_bind]; [| |done].
  { intros [= <-]. by left. }
  unfold subscript.
  destruct (dict_get (kid denovo) pedigrees) as [ped|];
    cbn [expect mbind result_bind]; [|done].
  intros Hrun. right. exists ped. split_and!; try done.
  destruct (dict_get (kid denovo) (sample_dict_of vcf)) as [kid_idx|] eqn:Hk.
  2: { left. injection Hrun as <-. split; [|done].
       apply index_names_None in Hk. naive_solver. }
  destruct (dict_get (dad ped) (sample_dict_of vcf)) as [dad_idx|] eqn:Hd.
  2: { left. injection Hrun as <-. split; [|done].
       apply index_names_None in Hd. naive_solver. }
  destruct (dict_get (mom ped) (sample_dict_of vcf)) as [mom_idx|] eqn:Hm.
  2: { left. injection Hrun as <-. split; [|done].
       apply index_names_None in Hm. naive_solver. }
  right. exists kid_idx, dad_idx, mom_idx.
  destruct (for_each _ _ _) as [[cs hs]|] eqn:Hloop; cbn [mbind result_bind] in Hrun;
    [|done].
  injection Hrun as <-.
  apply find_loop_as_map in Hloop as (sites & Hsites & -> & ->).
  exists sites. by split_and!.
Qed.

(** A record has one annotation. *)
Lemma annotated_unique vcf search_dist whole_region denovo out1 out2 :
  annotated vcf search_dist whole_region denovo out1 →
  annotated vcf search_dist whole_region denovo out2 →
  out1 = out2.
Proof.
  assert (∀ name i, dict_get name (sample_dict_of vcf) = Some i →
                    name ∈ samples vcf) as Hin.
  { intros name i Hi. destruct (decide (name ∈ samples vcf)) as [|Hno]; [done|].
    apply index_names_None in Hno. unfold sample_dict_of in Hi.
    unfold index_names in Hno. congruence. }
  intros [[Ha1 ->]|(ped1 & Ha1 & Hp1 & H1)] [[Ha2 ->]|(ped2 & Ha2 & Hp2 & H2)];
    [done|congruence|congruence|].
  assert (ped2 = ped1) as -> by congruence.
  destruct H1 as [[Hno1 ->]|(k1 & d1 & m1 & sites1 & Hk1 & Hd1 & Hm1 & Hs1 & ->)],
           H2 as [[Hno2 ->]|(k2 & d2 & m2 & sites2 & Hk2 & Hd2 & Hm2 & Hs2 & ->)].
  - done.
  - destruct Hno1. split_and!; by eapply Hin.
  - destruct Hno2. split_and!; by eapply Hin.
  - assert (k2 = k1) as -> by congruence.
    assert (d2 = d1) as -> by congruence.
    assert (m2 = m1) as -> by congruence.
    by assert (sites2 = sites1) as -> by congruence.
Qed.

(** C10, as amended.  Below the batch threshold, [find] returns [None]
    on the empty list.  On every other list it returns a list when the
    pedigree has an entry for every kid (the tables having an entry for x and
    y, and every record of the callset one array entry per sample, so that no
    subscript raises): one output record per input record, in order, each
    the annotation of the input record, of which there is one
    ([annotated_unique]). *)
Theorem find_returns_None_on_empty_input dnms vcf search_dist
    multithread_proc_min whole_region :
  Z.of_nat (length dnms) < multithread_proc_min →
  par_complete par →
  Forall (λ denovo, is_Some (dict_get (kid denovo) pedigrees)) dnms →
  Forall (variant_wf (length (samples vcf))) (records vcf) →
  match dnms with
  | [] =>
      find par tun pedigrees build dnms vcf search_dist multithread_proc_min
        whole_region = Ok None
  | _ :: _ =>
      ∃ out,
        find par tun pedigrees build dnms vcf search_dist multithread_proc_min
          whole_region = Ok (Some out)
        ∧ Forall2 (annotated vcf search_dist whole_region) dnms out
  end.
Proof.
  intros Hlt Hpar Hped Hwf. unfold find.
  destruct (Z.leb_spec multithread_proc_min (Z.of_nat (length dnms))); [lia|].
  destruct dnms as [|denovo dnms]; [done|].
  destruct (Z.leb_spec (Z.of_nat (length (denovo :: dnms))) 0);
    [cbn [length] in *; lia|].
  destruct (mapM_total (annotated vcf search_dist whole_region)
              (find_denovo par tun pedigrees build vcf search_dist whole_region)
              (denovo :: dnms)) as (out & Hout & Hann).
  { eapply Forall_impl; [exact Hped|]. intros d Hd. cbn beta in Hd.
    destruct (find_denovo_returns par tun pedigrees build vcf search_dist
                whole_region d Hpar Hd Hwf) as (out & Hout & _).
    exists out. split; [done|]. by apply find_denovo_annotated. }
  exists out. by rewrite Hout.
Qed.
End Annotation.

Definition annotated_dnms : list DNM :=
  [kid_dnm "1" 1000 1001; kid_dnm "X" 5000000 5000001].

Lemma find_returns_None_on_empty_input_witness :
  ∃ out,
    find example_par trio_tunables trio_pedigrees "38" annotated_dnms
      (trio_vcf "" [informative_snv "1" 990]) 100 3 false = Ok (Some out)
    ∧ Forall2 (annotated example_par trio_tunables trio_pedigrees "38"
                 (trio_vcf "" [informative_snv "1" 990]) 100 false)
        annotated_dnms out.
Proof.
  apply (find_returns_None_on_empty_input example_par trio_tunables trio_pedigrees
           "38" annotated_dnms (trio_vcf "" [informative_snv "1" 990]) 100 3 false).
  - vm_compute. reflexivity.
  - repeat constructor; by eexists.
  - repeat constructor; by eexists.
  - repeat constructor.
Defined.

(** C10 as stated fails: on a nonempty list below the threshold [find]
    does not return a list when the pedigree has no entry for the kid of a
    DNM.  The subscript [pedigrees[denovo["kid"]]] raises [KeyError], with
    an empty pedigree as with a pedigree that knows only another kid. *)
Lemma find_raises_on_unknown_kid :
  find example_par trio_tunables [] "38" [kid_dnm "1" 1000 1001]
    (trio_vcf "" [informative_snv "1" 990]) 100 2 false
  = Raise KeyError
  ∧ find example_par trio_tunables
      [("sib", {| dad := "dad"; mom := "mom"; sex := 2 |})] "38"
      [kid_dnm "1" 1000 1001; kid_dnm "X" 5000000 5000001]
      (trio_vcf "" [informative_snv "1" 990]) 100 3 false
    = Raise KeyError.
Proof. split; vm_compute; reflexivity. Qed.
